(** * SNOW Update Center: batch lifecycle, dependency ordering and progress
      reconciliation.

    A shallow embedding of the server-side scripts of the application
    (UpdateAnalyzer, the Available Updates remote table script,
    ActivityLogger, BatchUpdateManager and the Monitor Batch Progress flow
    step) together with the properties of the design document that they
    satisfy, or fail to satisfy.

    Conventions of the embedding:
    - a GlideRecord table is a finite map from sys_id to record when it is
      only read and written by key, and a list of records in insertion order
      when it is queried;
    - a JavaScript string is the sequence of the bytes of its UTF-8
      encoding: a character below U+0080 is one [ascii], any other character
      is the two, three or four bytes of its encoding. Equality, emptiness,
      splitting at an ASCII separator and concatenation are the same on both
      sides of the encoding;
    - a JavaScript object that starts as the literal [{}] and is used as a
      table ([visited], [visiting], [depMap]) is a [gmap] of its own
      properties, keyed by string; a key that is not an own property reads
      what the object inherits from [Object.prototype], and [undefined] when
      nothing is inherited under that name. The flag tables are read under
      any candidate id; [depMap] is read only under names that it owns or
      under which nothing is inherited;
    - sys_ids are opaque strings; the record store hands out a fresh one on
      every insert;
    - the clock, the CI/CD flow runner, the progress worker and the package
      inventory are inputs of the functions that read them. *)

From stdpp Require Import gmap strings list fin_maps pretty relations.
From Stdlib Require Import Ascii ZArith Lia Sorted.

(* ===================================================================== *)
(** * Part I: the programs                                                *)
(* ===================================================================== *)

(** ** JavaScript string primitives used by the scripts *)
Module JS.

(** [s.split(c)] for a one-character separator: never returns the empty
    array, [''.split(c)] is the one-element array holding the empty string. *)
Fixpoint split (c : ascii) (s : string) : list string :=
  match s with
  | EmptyString => [EmptyString]
  | String a rest =>
      if Ascii.eqb a c then EmptyString :: split c rest
      else match split c rest with
           | hd :: tl => String a hd :: tl
           | [] => [String a EmptyString]
           end
  end.

(** The code points that [String.prototype.trim] removes (WhiteSpace and
    LineTerminator of ECMAScript), each as the bytes of its UTF-8 encoding:
    U+0009 to U+000D, U+0020, U+00A0, U+1680, U+2000 to U+200A, U+2028,
    U+2029, U+202F, U+205F, U+3000 and U+FEFF, that is the control
    characters TAB, LF, VT, FF and CR, the byte order mark, the line and
    paragraph separators and the space separators of Unicode (U+180E is
    none of them since Unicode 6.3). *)
Definition white_space : list string :=
  (λ bytes : list nat,
     Strings.String.string_of_list_ascii (ascii_of_nat <$> bytes)) <$>
  [ [9]; [10]; [11]; [12]; [13]; [32];
    [194; 160];
    [225; 154; 128];
    [226; 128; 128]; [226; 128; 129]; [226; 128; 130]; [226; 128; 131];
    [226; 128; 132]; [226; 128; 133]; [226; 128; 134]; [226; 128; 135];
    [226; 128; 136]; [226; 128; 137]; [226; 128; 138];
    [226; 128; 168]; [226; 128; 169];
    [226; 128; 175];
    [226; 129; 159];
    [227; 128; 128];
    [239; 187; 191] ].

(** [s] without the prefix [p], when it starts with [p]. *)
Fixpoint drop_prefix (p s : string) : option string :=
  match p, s with
  | EmptyString, _ => Some s
  | String a p', String b s' =>
      if Ascii.eqb a b then drop_prefix p' s' else None
  | String _ _, EmptyString => None
  end.

(** [s] without its first character, when that character is one of [ws]. *)
Fixpoint skip_one (ws : list string) (s : string) : option string :=
  match ws with
  | [] => None
  | w :: ws' =>
      match drop_prefix w s with
      | Some rest => Some rest
      | None => skip_one ws' s
      end
  end.

(** Removes the characters of [ws] that [s] starts with; [n] bounds their
    number. *)
Fixpoint skip_all (ws : list string) (n : nat) (s : string) : string :=
  match n with
  | O => s
  | S n' =>
      match skip_one ws s with
      | Some rest => skip_all ws n' rest
      | None => s
      end
  end.

Definition trim_start (s : string) : string :=
  skip_all white_space (String.length s) s.

(** The bytes of a character are read backwards from the end of the
    string. *)
Definition trim_end (s : string) : string :=
  String.rev (skip_all (String.rev <$> white_space) (String.length s)
                (String.rev s)).

(** [s.trim()] *)
Definition trim (s : string) : string := trim_end (trim_start s).

(** JavaScript truthiness of a string. *)
Definition truthy (s : string) : bool :=
  match s with EmptyString => false | _ => true end.

(** [a || b] on strings. *)
Definition or_else (a b : string) : string := if truthy a then a else b.

(** [arr.join(sep)] *)
Fixpoint join (sep : string) (l : list string) : string :=
  match l with
  | [] => EmptyString
  | [x] => x
  | x :: tl => x +:+ sep +:+ join sep tl
  end.

(** [Math.round (n / d)] for integers [n] and [d > 0]: round half up. *)
Definition round_div (n d : Z) : Z := ((2 * n + d) / (2 * d))%Z.

End JS.

(** Update levels of a version change; ['none'] is produced by the remote
    table script only. *)
Inductive UpdateLevel := major | minor | patch | none.

#[global] Instance UpdateLevel_eq_dec : EqDecision UpdateLevel.
Proof. solve_decision. Defined.

(** ** UpdateAnalyzer (script include) *)
Module UpdateAnalyzer.

(** [getUpdateLevel(fromVersion, toVersion)]; a [null] or empty version is
    replaced by ['0.0.0']; components are compared as strings, a missing
    component being [undefined]. *)
Definition getUpdateLevel (fromVersion toVersion : option string) : UpdateLevel :=
  let from := JS.split "." (JS.or_else (default EmptyString fromVersion) "0.0.0") in
  let to := JS.split "." (JS.or_else (default EmptyString toVersion) "0.0.0") in
  if negb (bool_decide (from !! 0%nat = to !! 0%nat)) then major
  else if negb (bool_decide (from !! 1%nat = to !! 1%nat)) then minor
  else patch.

Record RiskWeights := {
  w_major : Z; w_minor : Z; w_patch : Z;
  w_dependency_per : Z; w_customization_detected : Z }.

Definition RISK_WEIGHTS : RiskWeights :=
  {| w_major := 30; w_minor := 15; w_patch := 5;
     w_dependency_per := 10; w_customization_detected := 20 |}.

Inductive RiskLevel := low | medium | high | critical.

(** [assessAppRisk]; the dependency count and the customization check are
    queries on platform tables and are passed in. *)
Definition assessAppRisk (updateLevel : UpdateLevel) (depCount : Z)
    (hasCustomizations : bool) : RiskLevel :=
  let score := match updateLevel with
               | major => w_major RISK_WEIGHTS
               | minor => w_minor RISK_WEIGHTS
               | patch => w_patch RISK_WEIGHTS
               | none => 0
               end%Z in
  let score := (score + depCount * w_dependency_per RISK_WEIGHTS)%Z in
  let score := if hasCustomizations
               then (score + w_customization_detected RISK_WEIGHTS)%Z
               else score in
  if (60 <=? score)%Z then critical
  else if (40 <=? score)%Z then high
  else if (20 <=? score)%Z then medium
  else low.

(** The property names that an object literal inherits from
    [Object.prototype]: the ones of ECMAScript (constructor to
    propertyIsEnumerable, and the legacy accessors with [__proto__]) and
    the ones that Rhino, the engine of the platform, adds. Each of them
    holds a function or an object, which is truthy. *)
Definition Object_prototype : list string :=
  [ "constructor"; "toString"; "toLocaleString"; "valueOf";
    "hasOwnProperty"; "isPrototypeOf"; "propertyIsEnumerable";
    "__proto__"; "__defineGetter__"; "__defineSetter__";
    "__lookupGetter__"; "__lookupSetter__";
    "toSource"; "__parent__" ].

Definition inherited (id : string) : bool :=
  bool_decide (id ∈ Object_prototype).

(** The mutable variables closed over by [visit] in [_topologicalSort].
    [visited] and [visiting] start as [{}]; the maps hold their own
    properties. *)
Record SortState := {
  visited : gmap string bool;
  order : list string;
  conflicts : list string;
  visiting : gmap string bool }.

(** Truthiness of [m[id]] for a table that started as [{}]: an own property
    answers with its value, any other key with what [Object.prototype]
    holds under that name. *)
Definition flag (m : gmap string bool) (id : string) : bool :=
  match m !! id with
  | Some b => b
  | None => inherited id
  end.

Definition conflict_message (id : string) : string :=
  "Circular dependency detected involving " +:+ id.

Section topological_sort.
Variable appIds : list string.
Variable depMap : gmap string (list string).

(** [appIds.indexOf(d) !== -1] *)
Definition in_batch (d : string) : bool := bool_decide (d ∈ appIds).

(** A [for] loop calling [v] on the elements that pass [guard]; a call
    that does not return aborts the loop. *)
Fixpoint visit_loop (guard : string → bool)
    (v : string → SortState → option SortState)
    (ids : list string) (st : SortState) : option SortState :=
  match ids with
  | [] => Some st
  | d :: rest =>
      if guard d then
        match v d st with
        | Some st' => visit_loop guard v rest st'
        | None => None
        end
      else visit_loop guard v rest st
  end.

(** The closure [visit]; [fuel] bounds the depth of the recursion, [None]
    means that the bound was reached. The three assignments are reached
    only after [visiting[id]] read falsy, that is for an [id] that is not
    inherited: each creates or overwrites an own property. [depMap[id]] is
    read at such an [id] too, and is [undefined] when [depMap] has no own
    property [id]. *)
Fixpoint visit (fuel : nat) (id : string) (st : SortState) : option SortState :=
  match fuel with
  | O => None
  | S fuel' =>
      if flag (visiting st) id then
        Some {| visited := visited st; order := order st;
                conflicts := conflicts st ++ [conflict_message id];
                visiting := visiting st |}
      else if flag (visited st) id then Some st
      else
        let st1 := {| visited := visited st; order := order st;
                      conflicts := conflicts st;
                      visiting := <[id := true]> (visiting st) |} in
        let deps := default [] (depMap !! id) in
        match visit_loop in_batch (visit fuel') deps st1 with
        | None => None
        | Some st2 =>
            Some {| visited := <[id := true]> (visited st2);
                    order := order st2 ++ [id];
                    conflicts := conflicts st2;
                    visiting := <[id := false]> (visiting st2) |}
        end
  end.

Definition sort_init : SortState :=
  {| visited := ∅; order := []; conflicts := []; visiting := ∅ |}.

(** [_topologicalSort(appIds, depMap)], returning [(order, conflicts)].
    The recursion of [visit] is given one level per candidate plus one. *)
Definition _topologicalSort : option (list string * list string) :=
  match visit_loop (λ _, true) (visit (S (length appIds))) appIds sort_init with
  | Some st => Some (order st, conflicts st)
  | None => None
  end.
End topological_sort.

(** Rows of [sys_app_dependency]: (source_app_id, target_app_id). *)
Definition DependencyTable := list (string * string).

(** [_getAppDependencies(appSysId)] *)
Definition _getAppDependencies (tbl : DependencyTable) (appSysId : string)
    : list string :=
  (filter (λ row, row.1 = appSysId) tbl).*2.

Record Analysis := {
  orderedApps : list string;
  a_conflicts : list string;
  warnings : list string;
  dependencyMap : gmap string (list string) }.

(** The first loop of [analyzeDependencies]: [depMap[appId] = ...]. An
    assignment creates or overwrites an own property, also under a name
    that [Object.prototype] has; an engine that treats the name [__proto__]
    specially keeps the array in the prototype slot instead, from where the
    same name reads it back. *)
Definition build_depMap (tbl : DependencyTable) (appSysIds : list string)
    : gmap string (list string) :=
  foldl (λ m appId, <[appId := _getAppDependencies tbl appId]> m) ∅ appSysIds.

Definition dependency_warning (thisApp depApp : string) : string :=
  thisApp +:+ " depends on " +:+ depApp +:+
  " which is not in this batch. Ensure it is already up to date.".

(** [analyzeDependencies(appSysIds)]; [appName] is [_getAppName]. *)
Definition analyzeDependencies (tbl : DependencyTable) (appName : string → string)
    (appSysIds : list string) : option Analysis :=
  let depMap := build_depMap tbl appSysIds in
  match _topologicalSort appSysIds depMap with
  | None => None
  | Some (ord, confl) =>
      Some {| orderedApps := ord;
              a_conflicts := confl;
              warnings :=
                flat_map (λ app,
                  flat_map (λ dep,
                    if bool_decide (dep ∈ appSysIds) then []
                    else [dependency_warning (appName app) (appName dep)])
                    (default [] (depMap !! app)))
                  appSysIds;
              dependencyMap := depMap |}
  end.

(** A row of [sys_store_app] as the summary functions read it. *)
Record InstalledApp := {
  ia_sys_id : string;
  ia_name : string;
  ia_version : option string;
  ia_vendor : option string;
  ia_scope : option string;
  ia_active : bool;
  ia_update_available : bool }.

(** What [_getLatestAvailableVersion] answers for an app that has a version
    record. Which record is the latest is decided by the database
    ([orderByDesc('version')], [setLimit(1)]); the function is passed in. *)
Record LatestVersion := {
  lv_sys_id : string;
  lv_version : option string;
  lv_publish_date : option string }.

(** [_getDependencyCount(appSysId)]: the COUNT aggregate on the rows of the
    app in [sys_app_dependency]. *)
Definition _getDependencyCount (tbl : DependencyTable) (appSysId : string) : Z :=
  Z.of_nat (length (filter (λ row, row.1 = appSysId) tbl)).

(** The query [active = true, update_available = true]. *)
Definition updatable (store_apps : list InstalledApp) : list InstalledApp :=
  filter (λ a, ia_active a = true ∧ ia_update_available a = true) store_apps.

Record Counts := {
  c_major : Z; c_minor : Z; c_patch : Z; c_total : Z }.

(** [counts[level]++; counts.total++]; [getUpdateLevel] never answers
    ['none']. *)
Definition count_level (level : UpdateLevel) (c : Counts) : Counts :=
  {| c_major := if bool_decide (level = major) then c_major c + 1 else c_major c;
     c_minor := if bool_decide (level = minor) then c_minor c + 1 else c_minor c;
     c_patch := if bool_decide (level = patch) then c_patch c + 1 else c_patch c;
     c_total := c_total c + 1 |}%Z.


Record RiskBreakdown := {
  rb_low : Z; rb_medium : Z; rb_high : Z; rb_critical : Z }.

(** [summary.riskBreakdown[risk]++] *)
Definition count_risk (risk : RiskLevel) (rb : RiskBreakdown) : RiskBreakdown :=
  match risk with
  | low => {| rb_low := rb_low rb + 1; rb_medium := rb_medium rb;
              rb_high := rb_high rb; rb_critical := rb_critical rb |}
  | medium => {| rb_low := rb_low rb; rb_medium := rb_medium rb + 1;
                 rb_high := rb_high rb; rb_critical := rb_critical rb |}
  | high => {| rb_low := rb_low rb; rb_medium := rb_medium rb;
               rb_high := rb_high rb + 1; rb_critical := rb_critical rb |}
  | critical => {| rb_low := rb_low rb; rb_medium := rb_medium rb;
                   rb_high := rb_high rb; rb_critical := rb_critical rb + 1 |}
  end%Z.

(** An element of [summary.apps]. *)
Record AppUpdate := {
  au_sys_id : string;
  au_name : string;
  au_scope : option string;
  au_installedVersion : option string;
  au_availableVersion : option string;
  au_availableVersionSysId : string;
  au_updateLevel : UpdateLevel;
  au_riskLevel : RiskLevel;
  au_vendor : string;
  au_publishDate : option string }.

Record UpdateSummary := {
  s_counts : Counts;
  byVendor : gmap string Z;
  riskBreakdown : RiskBreakdown;
  apps : list AppUpdate }.

(** [getUpdateSummary()]; [hasCustomizations] is [_hasCustomizations]. *)
Definition getUpdateSummary (store_apps : list InstalledApp)
    (latest : string → option LatestVersion) (tbl : DependencyTable)
    (hasCustomizations : string → bool) : UpdateSummary :=
  foldl (λ summary app,
           let appId := ia_sys_id app in
           let vendor := JS.or_else (default EmptyString (ia_vendor app))
                           "ServiceNow" in
           match latest appId with
           | None => summary
           | Some latestVer =>
               let level := getUpdateLevel (ia_version app) (lv_version latestVer) in
               let risk := assessAppRisk level (_getDependencyCount tbl appId)
                             (hasCustomizations appId) in
               {| s_counts := count_level level (s_counts summary);
                  byVendor :=
                    <[vendor := (default 0 (byVendor summary !! vendor) + 1)%Z]>
                      (byVendor summary);
                  riskBreakdown := count_risk risk (riskBreakdown summary);
                  apps := apps summary ++
                    [{| au_sys_id := appId;
                        au_name := ia_name app;
                        au_scope := ia_scope app;
                        au_installedVersion := ia_version app;
                        au_availableVersion := lv_version latestVer;
                        au_availableVersionSysId := lv_sys_id latestVer;
                        au_updateLevel := level;
                        au_riskLevel := risk;
                        au_vendor := vendor;
                        au_publishDate := lv_publish_date latestVer |}] |}
           end)
    {| s_counts := {| c_major := 0; c_minor := 0; c_patch := 0; c_total := 0 |};
       byVendor := ∅;
       riskBreakdown := {| rb_low := 0; rb_medium := 0; rb_high := 0;
                           rb_critical := 0 |};
       apps := [] |}
    (updatable store_apps).

End UpdateAnalyzer.

(** ** Available Updates remote table script *)
Module AvailableUpdates.

(** [compareVersions(currentVer, availableVer)] *)
Definition compareVersions (currentVer availableVer : string) : UpdateLevel :=
  let cur := JS.split "." currentVer in
  let avail := JS.split "." availableVer in
  if negb (bool_decide (cur !! 0%nat = avail !! 0%nat)) then major
  else if negb (bool_decide (cur !! 1%nat = avail !! 1%nat)) then minor
  else if negb (bool_decide (cur !! 2%nat = avail !! 2%nat)) then patch
  else none.


End AvailableUpdates.

(** ** The record store *)

Inductive BatchState :=
  draft | scheduled | in_progress | completed | failed | partial | cancelled.

Inductive ItemState :=
  queued | installing | item_completed | item_failed | skipped.

Inductive ActivityType :=
  info | success | warning | error | progress | start | complete | milestone.

Inductive Phase :=
  preparation | validation | download | installation | post_install | cleanup.

#[global] Instance BatchState_eq_dec : EqDecision BatchState.
Proof. solve_decision. Defined.
#[global] Instance ItemState_eq_dec : EqDecision ItemState.
Proof. solve_decision. Defined.
#[global] Instance ActivityType_eq_dec : EqDecision ActivityType.
Proof. solve_decision. Defined.
#[global] Instance Phase_eq_dec : EqDecision Phase.
Proof. solve_decision. Defined.

(** One entry of the CI/CD manifest built by [_buildManifest]. *)
Record Package := {
  pkg_id : option string;
  pkg_type : string;
  load_demo_data : bool;
  requested_version : option string;
  pkg_notes : string }.

Record Manifest := {
  manifest_name : string;
  manifest_notes : string;
  packages : list Package }.

(** A row of [x_snc_update_center_batch_request]. Integer columns default to 0, others to [null]. *)
Module BatchRequest.
Record t := {
  requested_by : string;
  total_apps : Z;
  state : BatchState;
  scheduled_start : option string;
  install_notes : option string;
  batch_manifest : option Manifest;
  actual_start : option Z;
  actual_end : option Z;
  completed_apps : Z;
  failed_apps : Z;
  skipped_apps : Z;
  overall_progress : Z;
  duration_seconds : Z;
  error_summary : option string;
  progress_worker : option string
}.

(** [gr.setValue('state', v)] *)
Definition set_state (v : BatchState) (r : t) : t :=
  {| requested_by := requested_by r; total_apps := total_apps r; state := v;
     scheduled_start := scheduled_start r; install_notes := install_notes r;
     batch_manifest := batch_manifest r; actual_start := actual_start r;
     actual_end := actual_end r; completed_apps := completed_apps r;
     failed_apps := failed_apps r; skipped_apps := skipped_apps r;
     overall_progress := overall_progress r;
     duration_seconds := duration_seconds r;
     error_summary := error_summary r;
     progress_worker := progress_worker r |}.

(** [gr.setValue('batch_manifest', v)] *)
Definition set_batch_manifest (v : option Manifest) (r : t) : t :=
  {| requested_by := requested_by r; total_apps := total_apps r;
     state := state r; scheduled_start := scheduled_start r;
     install_notes := install_notes r; batch_manifest := v;
     actual_start := actual_start r; actual_end := actual_end r;
     completed_apps := completed_apps r; failed_apps := failed_apps r;
     skipped_apps := skipped_apps r; overall_progress := overall_progress r;
     duration_seconds := duration_seconds r;
     error_summary := error_summary r;
     progress_worker := progress_worker r |}.

(** [gr.setValue('actual_start', v)] *)
Definition set_actual_start (v : option Z) (r : t) : t :=
  {| requested_by := requested_by r; total_apps := total_apps r;
     state := state r; scheduled_start := scheduled_start r;
     install_notes := install_notes r; batch_manifest := batch_manifest r;
     actual_start := v; actual_end := actual_end r;
     completed_apps := completed_apps r; failed_apps := failed_apps r;
     skipped_apps := skipped_apps r; overall_progress := overall_progress r;
     duration_seconds := duration_seconds r;
     error_summary := error_summary r;
     progress_worker := progress_worker r |}.

(** [gr.setValue('actual_end', v)] *)
Definition set_actual_end (v : option Z) (r : t) : t :=
  {| requested_by := requested_by r; total_apps := total_apps r;
     state := state r; scheduled_start := scheduled_start r;
     install_notes := install_notes r; batch_manifest := batch_manifest r;
     actual_start := actual_start r; actual_end := v;
     completed_apps := completed_apps r; failed_apps := failed_apps r;
     skipped_apps := skipped_apps r; overall_progress := overall_progress r;
     duration_seconds := duration_seconds r;
     error_summary := error_summary r;
     progress_worker := progress_worker r |}.

(** [gr.setValue('completed_apps', v)] *)
Definition set_completed_apps (v : Z) (r : t) : t :=
  {| requested_by := requested_by r; total_apps := total_apps r;
     state := state r; scheduled_start := scheduled_start r;
     install_notes := install_notes r; batch_manifest := batch_manifest r;
     actual_start := actual_start r; actual_end := actual_end r;
     completed_apps := v; failed_apps := failed_apps r;
     skipped_apps := skipped_apps r; overall_progress := overall_progress r;
     duration_seconds := duration_seconds r;
     error_summary := error_summary r;
     progress_worker := progress_worker r |}.

(** [gr.setValue('failed_apps', v)] *)
Definition set_failed_apps (v : Z) (r : t) : t :=
  {| requested_by := requested_by r; total_apps := total_apps r;
     state := state r; scheduled_start := scheduled_start r;
     install_notes := install_notes r; batch_manifest := batch_manifest r;
     actual_start := actual_start r; actual_end := actual_end r;
     completed_apps := completed_apps r; failed_apps := v;
     skipped_apps := skipped_apps r; overall_progress := overall_progress r;
     duration_seconds := duration_seconds r;
     error_summary := error_summary r;
     progress_worker := progress_worker r |}.

(** [gr.setValue('skipped_apps', v)] *)
Definition set_skipped_apps (v : Z) (r : t) : t :=
  {| requested_by := requested_by r; total_apps := total_apps r;
     state := state r; scheduled_start := scheduled_start r;
     install_notes := install_notes r; batch_manifest := batch_manifest r;
     actual_start := actual_start r; actual_end := actual_end r;
     completed_apps := completed_apps r; failed_apps := failed_apps r;
     skipped_apps := v; overall_progress := overall_progress r;
     duration_seconds := duration_seconds r;
     error_summary := error_summary r;
     progress_worker := progress_worker r |}.

(** [gr.setValue('overall_progress', v)] *)
Definition set_overall_progress (v : Z) (r : t) : t :=
  {| requested_by := requested_by r; total_apps := total_apps r;
     state := state r; scheduled_start := scheduled_start r;
     install_notes := install_notes r; batch_manifest := batch_manifest r;
     actual_start := actual_start r; actual_end := actual_end r;
     completed_apps := completed_apps r; failed_apps := failed_apps r;
     skipped_apps := skipped_apps r; overall_progress := v;
     duration_seconds := duration_seconds r;
     error_summary := error_summary r;
     progress_worker := progress_worker r |}.

(** [gr.setValue('duration_seconds', v)] *)
Definition set_duration_seconds (v : Z) (r : t) : t :=
  {| requested_by := requested_by r; total_apps := total_apps r;
     state := state r; scheduled_start := scheduled_start r;
     install_notes := install_notes r; batch_manifest := batch_manifest r;
     actual_start := actual_start r; actual_end := actual_end r;
     completed_apps := completed_apps r; failed_apps := failed_apps r;
     skipped_apps := skipped_apps r; overall_progress := overall_progress r;
     duration_seconds := v; error_summary := error_summary r;
     progress_worker := progress_worker r |}.

(** [gr.setValue('error_summary', v)] *)
Definition set_error_summary (v : option string) (r : t) : t :=
  {| requested_by := requested_by r; total_apps := total_apps r;
     state := state r; scheduled_start := scheduled_start r;
     install_notes := install_notes r; batch_manifest := batch_manifest r;
     actual_start := actual_start r; actual_end := actual_end r;
     completed_apps := completed_apps r; failed_apps := failed_apps r;
     skipped_apps := skipped_apps r; overall_progress := overall_progress r;
     duration_seconds := duration_seconds r; error_summary := v;
     progress_worker := progress_worker r |}.

(** [gr.setValue('progress_worker', v)] *)
Definition set_progress_worker (v : option string) (r : t) : t :=
  {| requested_by := requested_by r; total_apps := total_apps r;
     state := state r; scheduled_start := scheduled_start r;
     install_notes := install_notes r; batch_manifest := batch_manifest r;
     actual_start := actual_start r; actual_end := actual_end r;
     completed_apps := completed_apps r; failed_apps := failed_apps r;
     skipped_apps := skipped_apps r; overall_progress := overall_progress r;
     duration_seconds := duration_seconds r;
     error_summary := error_summary r; progress_worker := v |}.

End BatchRequest.
(** A row of [x_snc_update_center_batch_item]. *)
Module BatchItem.
Record t := {
  sys_id : string;
  batch_request : string;
  application : option string;
  application_name : option string;
  app_version : string;
  from_version : option string;
  to_version : option string;
  update_level : UpdateLevel;
  state : ItemState;
  install_order : Z;
  progress_percent : Z;
  status_message : option string;
  error_message : option string;
  start_time : option Z;
  end_time : option Z;
  duration_seconds : Z
}.

(** [gr.setValue('state', v)] *)
Definition set_state (v : ItemState) (r : t) : t :=
  {| sys_id := sys_id r; batch_request := batch_request r;
     application := application r; application_name := application_name r;
     app_version := app_version r; from_version := from_version r;
     to_version := to_version r; update_level := update_level r; state := v;
     install_order := install_order r;
     progress_percent := progress_percent r;
     status_message := status_message r; error_message := error_message r;
     start_time := start_time r; end_time := end_time r;
     duration_seconds := duration_seconds r |}.

(** [gr.setValue('progress_percent', v)] *)
Definition set_progress_percent (v : Z) (r : t) : t :=
  {| sys_id := sys_id r; batch_request := batch_request r;
     application := application r; application_name := application_name r;
     app_version := app_version r; from_version := from_version r;
     to_version := to_version r; update_level := update_level r;
     state := state r; install_order := install_order r;
     progress_percent := v; status_message := status_message r;
     error_message := error_message r; start_time := start_time r;
     end_time := end_time r; duration_seconds := duration_seconds r |}.

(** [gr.setValue('status_message', v)] *)
Definition set_status_message (v : option string) (r : t) : t :=
  {| sys_id := sys_id r; batch_request := batch_request r;
     application := application r; application_name := application_name r;
     app_version := app_version r; from_version := from_version r;
     to_version := to_version r; update_level := update_level r;
     state := state r; install_order := install_order r;
     progress_percent := progress_percent r; status_message := v;
     error_message := error_message r; start_time := start_time r;
     end_time := end_time r; duration_seconds := duration_seconds r |}.

(** [gr.setValue('error_message', v)] *)
Definition set_error_message (v : option string) (r : t) : t :=
  {| sys_id := sys_id r; batch_request := batch_request r;
     application := application r; application_name := application_name r;
     app_version := app_version r; from_version := from_version r;
     to_version := to_version r; update_level := update_level r;
     state := state r; install_order := install_order r;
     progress_percent := progress_percent r;
     status_message := status_message r; error_message := v;
     start_time := start_time r; end_time := end_time r;
     duration_seconds := duration_seconds r |}.

(** [gr.setValue('start_time', v)] *)
Definition set_start_time (v : option Z) (r : t) : t :=
  {| sys_id := sys_id r; batch_request := batch_request r;
     application := application r; application_name := application_name r;
     app_version := app_version r; from_version := from_version r;
     to_version := to_version r; update_level := update_level r;
     state := state r; install_order := install_order r;
     progress_percent := progress_percent r;
     status_message := status_message r; error_message := error_message r;
     start_time := v; end_time := end_time r;
     duration_seconds := duration_seconds r |}.

(** [gr.setValue('end_time', v)] *)
Definition set_end_time (v : option Z) (r : t) : t :=
  {| sys_id := sys_id r; batch_request := batch_request r;
     application := application r; application_name := application_name r;
     app_version := app_version r; from_version := from_version r;
     to_version := to_version r; update_level := update_level r;
     state := state r; install_order := install_order r;
     progress_percent := progress_percent r;
     status_message := status_message r; error_message := error_message r;
     start_time := start_time r; end_time := v;
     duration_seconds := duration_seconds r |}.

(** [gr.setValue('duration_seconds', v)] *)
Definition set_duration_seconds (v : Z) (r : t) : t :=
  {| sys_id := sys_id r; batch_request := batch_request r;
     application := application r; application_name := application_name r;
     app_version := app_version r; from_version := from_version r;
     to_version := to_version r; update_level := update_level r;
     state := state r; install_order := install_order r;
     progress_percent := progress_percent r;
     status_message := status_message r; error_message := error_message r;
     start_time := start_time r; end_time := end_time r;
     duration_seconds := v |}.

End BatchItem.
(** A row of [x_snc_update_center_activity_log]. *)
Module ActivityLog.
Record t := {
  sys_id : string;
  batch_request : string;
  batch_item : option string;
  activity_type : ActivityType;
  phase : Phase;
  message : string;
  sequence : Z;
  details : option string;
  application_name : option string;
  progress_percent : option Z }.
End ActivityLog.

(** Rows of the platform tables that the scripts only read. *)
Record AppVersion := {
  source_app_id : option string;
  av_version : option string }.

Record StoreApp := {
  display_value : string;
  sa_version : option string }.

Module Store.
(** The three tables of the application. Batch requests are read and written
    by sys_id only; items and log entries are queried, and are kept in
    insertion order, a row being identified by its position. *)
Record t := {
  batch_requests : gmap string BatchRequest.t;
  batch_items : list BatchItem.t;
  activity_log : list ActivityLog.t;
  next_sys_id : nat }.

Definition empty : t :=
  {| batch_requests := ∅; batch_items := []; activity_log := [];
     next_sys_id := 0 |}.

(** The sys_id that the next insert will be given. *)
Definition fresh (s : t) : string := pretty (next_sys_id s).

(** [gr.insert()] on the batch request table. The store accepts every
    insert, so the result is never [null]; callers still test it. *)
Definition insert_batch (b : BatchRequest.t) (s : t) : option string * t :=
  (Some (fresh s),
   {| batch_requests := <[fresh s := b]> (batch_requests s);
      batch_items := batch_items s; activity_log := activity_log s;
      next_sys_id := S (next_sys_id s) |}).

(** [gr.insert()] on the item table; [mk] receives the new sys_id. *)
Definition insert_item (mk : string → BatchItem.t) (s : t) : t :=
  {| batch_requests := batch_requests s;
     batch_items := batch_items s ++ [mk (fresh s)];
     activity_log := activity_log s;
     next_sys_id := S (next_sys_id s) |}.

(** [gr.insert()] on the activity log. *)
Definition insert_log (mk : string → ActivityLog.t) (s : t) : t :=
  {| batch_requests := batch_requests s;
     batch_items := batch_items s;
     activity_log := activity_log s ++ [mk (fresh s)];
     next_sys_id := S (next_sys_id s) |}.

(** [if (gr.get(id)) { ...setValue...; gr.update(); }] *)
Definition update_batch (id : string) (f : BatchRequest.t → BatchRequest.t)
    (s : t) : t :=
  {| batch_requests := alter f id (batch_requests s);
     batch_items := batch_items s; activity_log := activity_log s;
     next_sys_id := next_sys_id s |}.

(** [...setValue...; itemGr.update()] on the row at position [i]. *)
Definition update_item (i : nat) (f : BatchItem.t → BatchItem.t) (s : t) : t :=
  {| batch_requests := batch_requests s;
     batch_items := alter f i (batch_items s);
     activity_log := activity_log s;
     next_sys_id := next_sys_id s |}.

(** [addQuery(...); query()] on the item table: the positions of the rows
    that satisfy [p], with the row read at query time. *)
Definition query_items (p : BatchItem.t → bool) (s : t)
    : list (nat * BatchItem.t) :=
  filter (λ row, p row.2 = true) (imap (λ i it, (i, it)) (batch_items s)).

Fixpoint insert_by_order (row : nat * BatchItem.t)
    (rows : list (nat * BatchItem.t)) : list (nat * BatchItem.t) :=
  match rows with
  | [] => [row]
  | r :: rest =>
      if (BatchItem.install_order r.2 <=? BatchItem.install_order row.2)%Z
      then r :: insert_by_order row rest
      else row :: rows
  end.

(** [orderBy('install_order')]: ties keep the order of the table. *)
Definition order_by_install_order (rows : list (nat * BatchItem.t))
    : list (nat * BatchItem.t) :=
  foldl (λ acc row, insert_by_order row acc) [] rows.

End Store.

(** ** ActivityLogger (script include) *)
Module ActivityLogger.

(** The instance state: [this._sequenceCounter], set to 0 by [initialize]. *)
Definition t := Z.

Definition initialize : t := 0%Z.

Record Options := {
  details : option string;
  applicationName : option string;
  progressPercent : option Z }.

(** [options = options || {}] when the argument is left out. *)
Definition no_options : Options :=
  {| details := None; applicationName := None; progressPercent := None |}.

(** [if (x) gr.setValue(f, x)]: a [null] or empty string is not stored. *)
Definition if_truthy (x : option string) : option string :=
  match x with
  | Some v => if JS.truthy v then Some v else None
  | None => None
  end.

(** [log(batchRequestId, batchItemId, activityType, phase, message, options)].
    The sys_id that [gr.insert()] returns is used by no caller and is not
    returned here. *)
Definition log (lg : t) (s : Store.t) (batchRequestId : string)
    (batchItemId : option string) (activityType : ActivityType) (phase : Phase)
    (message : string) (options : Options) : t * Store.t :=
  let counter := (lg + 1)%Z in
  (counter,
   Store.insert_log (λ id,
     {| ActivityLog.sys_id := id;
        ActivityLog.batch_request := batchRequestId;
        ActivityLog.batch_item := if_truthy batchItemId;
        ActivityLog.activity_type := activityType;
        ActivityLog.phase := phase;
        ActivityLog.message := message;
        ActivityLog.sequence := counter;
        ActivityLog.details := if_truthy (details options);
        ActivityLog.application_name := if_truthy (applicationName options);
        ActivityLog.progress_percent := progressPercent options |}) s).

(** String concatenation prints [null] as the word null. *)
Definition str (x : option string) : string := default "null" x.

Definition logAppInstallStart (lg : t) (s : Store.t) (batchRequestId : string)
    (batchItemId : string) (appName fromVersion toVersion : option string)
    : t * Store.t :=
  log lg s batchRequestId (Some batchItemId) start installation
    ("Starting installation: " +:+ str appName +:+ " " +:+
     str fromVersion +:+ " → " +:+ str toVersion)
    {| details := None; applicationName := appName;
       progressPercent := Some 0%Z |}.

Definition logAppInstallComplete (lg : t) (s : Store.t) (batchRequestId : string)
    (batchItemId : string) (appName toVersion : option string) (durationMs : Z)
    : t * Store.t :=
  let durSec := JS.round_div durationMs 1000 in
  log lg s batchRequestId (Some batchItemId) success installation
    (str appName +:+ " updated to " +:+ str toVersion +:+
     " (" +:+ pretty durSec +:+ "s)")
    {| details := None; applicationName := appName;
       progressPercent := Some 100%Z |}.

Definition logAppInstallFailed (lg : t) (s : Store.t) (batchRequestId : string)
    (batchItemId : string) (appName : option string) (errorMessage : string)
    : t * Store.t :=
  log lg s batchRequestId (Some batchItemId) error installation
    ("Failed to install " +:+ str appName +:+ ": " +:+ errorMessage)
    {| details := Some errorMessage; applicationName := appName;
       progressPercent := None |}.

(** [logBatchProgress]; [Math.round((completed / total) * 100)] is taken
    over the integers. *)
Definition logBatchProgress (lg : t) (s : Store.t) (batchRequestId : string)
    (ncompleted total : Z) : t * Store.t :=
  let pct := if (0 <? total)%Z then JS.round_div (ncompleted * 100) total
             else 0%Z in
  log lg s batchRequestId None milestone installation
    (pretty ncompleted +:+ " of " +:+ pretty total +:+
     " applications processed (" +:+ pretty pct +:+ "%)")
    {| details := None; applicationName := None;
       progressPercent := Some pct |}.

Record Summary := {
  sum_completed : Z; sum_failed : Z; sum_skipped : Z; sum_total : Z;
  sum_durationSeconds : Z }.

Definition _formatDuration (seconds : Z) : string :=
  if (seconds <? 60)%Z then pretty seconds +:+ "s"
  else
    let min := (seconds / 60)%Z in
    let sec := Z.rem seconds 60 in
    if (min <? 60)%Z then pretty min +:+ "m " +:+ pretty sec +:+ "s"
    else
      let hr := (min / 60)%Z in
      let min := Z.rem min 60 in
      pretty hr +:+ "h " +:+ pretty min +:+ "m".

(** [JSON.stringify(summary)] *)
Definition json_key (k : string) : string :=
  let dq := String (ascii_of_nat 34) EmptyString in
  dq +:+ k +:+ dq +:+ ":".

Definition stringify (sm : Summary) : string :=
  "{" +:+ json_key "completed" +:+ pretty (sum_completed sm) +:+
  "," +:+ json_key "failed" +:+ pretty (sum_failed sm) +:+
  "," +:+ json_key "skipped" +:+ pretty (sum_skipped sm) +:+
  "," +:+ json_key "total" +:+ pretty (sum_total sm) +:+
  "," +:+ json_key "durationSeconds" +:+ pretty (sum_durationSeconds sm) +:+
  "}".

Definition logBatchComplete (lg : t) (s : Store.t) (batchRequestId : string)
    (sm : Summary) : t * Store.t :=
  let msg := "Batch installation complete. " +:+
    pretty (sum_completed sm) +:+ " succeeded, " +:+
    pretty (sum_failed sm) +:+ " failed, " +:+
    pretty (sum_skipped sm) +:+ " skipped. " +:+
    "Total time: " +:+ _formatDuration (sum_durationSeconds sm) in
  let actType := if (0 <? sum_failed sm)%Z then warning else complete in
  log lg s batchRequestId None actType cleanup msg
    {| details := Some (stringify sm); applicationName := None;
       progressPercent := Some 100%Z |}.

End ActivityLogger.

(** ** BatchUpdateManager (script include) *)
Module BatchUpdateManager.

(** What the platform answers during one call: the session user, the clock
    ([new GlideDateTime()]) and the Store tables. *)
Record Platform := {
  user_id : string;
  user_display_name : string;
  now : Z;
  sys_app_version : gmap string AppVersion;
  sys_store_app : gmap string StoreApp }.

(** The result of running the batch install subflow: its outputs, or the
    exception it raised. *)
Inductive FlowOutcome :=
  | flow_outputs (progress_id status_message : string)
  | flow_throws (msg : string).

Record CreateOptions := {
  scheduledStart : option string;
  notes : option string }.

(** The object returned by the public methods; absent keys are [None]. *)
Record Result := {
  success : bool;
  message : string;
  batchRequestId : option string;
  totalApps : option Z;
  progressWorkerId : option string }.

Definition failure (msg : string) (batchId : option string) : Result :=
  {| success := false; message := msg; batchRequestId := batchId;
     totalApps := None; progressWorkerId := None |}.

(** [batchGr.initialize()] followed by the [setValue] calls of
    [createBatchRequest]. *)
Definition new_batch (pf : Platform) (total : Z) (options : CreateOptions)
    : BatchRequest.t :=
  {| BatchRequest.requested_by := user_id pf;
     BatchRequest.total_apps := total;
     BatchRequest.state :=
       match ActivityLogger.if_truthy (scheduledStart options) with
       | Some _ => scheduled
       | None => draft
       end;
     BatchRequest.scheduled_start :=
       ActivityLogger.if_truthy (scheduledStart options);
     BatchRequest.install_notes := ActivityLogger.if_truthy (notes options);
     BatchRequest.batch_manifest := None;
     BatchRequest.actual_start := None;
     BatchRequest.actual_end := None;
     BatchRequest.completed_apps := 0;
     BatchRequest.failed_apps := 0;
     BatchRequest.skipped_apps := 0;
     BatchRequest.overall_progress := 0;
     BatchRequest.duration_seconds := 0;
     BatchRequest.error_summary := None;
     BatchRequest.progress_worker := None |}.

(** The body of the loop of [_createBatchItems] once the version record
    [ver] was found. *)
Definition new_item (pf : Platform) (batchRequestId sysId : string)
    (ver : AppVersion) (order : Z) (id : string) : BatchItem.t :=
  let appId := source_app_id ver in
  let app := appId ≫= (λ a, sys_store_app pf !! a) in
  {| BatchItem.sys_id := id;
     BatchItem.batch_request := batchRequestId;
     BatchItem.application := appId;
     BatchItem.application_name := display_value <$> app;
     BatchItem.app_version := sysId;
     BatchItem.from_version := app ≫= sa_version;
     BatchItem.to_version := av_version ver;
     BatchItem.update_level :=
       UpdateAnalyzer.getUpdateLevel (app ≫= sa_version) (av_version ver);
     BatchItem.state := queued;
     BatchItem.install_order := order;
     BatchItem.progress_percent := 0;
     BatchItem.status_message := None;
     BatchItem.error_message := None;
     BatchItem.start_time := None;
     BatchItem.end_time := None;
     BatchItem.duration_seconds := 0 |}.

(** The [for] loop of [_createBatchItems]; [order] is its counter. *)
Fixpoint create_items_loop (pf : Platform) (batchRequestId : string)
    (appVersionSysIds : list string) (order : Z) (s : Store.t) : Store.t :=
  match appVersionSysIds with
  | [] => s
  | raw :: rest =>
      let sysId := JS.trim raw in
      if negb (JS.truthy sysId) then
        create_items_loop pf batchRequestId rest order s
      else
        match sys_app_version pf !! sysId with
        | None => create_items_loop pf batchRequestId rest order s
        | Some ver =>
            create_items_loop pf batchRequestId rest (order + 100)
              (Store.insert_item (new_item pf batchRequestId sysId ver order) s)
        end
  end.

(** [_createBatchItems]: always answers [{ success: true }]. *)
Definition _createBatchItems (pf : Platform) (s : Store.t)
    (batchRequestId : string) (appVersionSysIds : list string)
    : bool * Store.t :=
  (true, create_items_loop pf batchRequestId appVersionSysIds 100 s).

Definition of_batch (batchRequestId : string) (it : BatchItem.t) : bool :=
  bool_decide (BatchItem.batch_request it = batchRequestId).

Definition _buildManifest (s : Store.t) (batchRequestId : string) : Manifest :=
  {| manifest_name := "SNOW Update Center Batch Install";
     manifest_notes := "Batch installation via SNOW Update Center";
     packages :=
       (λ row : nat * BatchItem.t,
          {| pkg_id := BatchItem.application row.2;
             pkg_type := "application";
             load_demo_data := false;
             requested_version := BatchItem.to_version row.2;
             pkg_notes :=
               ActivityLogger.str (BatchItem.application_name row.2) +:+ " " +:+
               ActivityLogger.str (BatchItem.from_version row.2) +:+ " → " +:+
               ActivityLogger.str (BatchItem.to_version row.2) |})
       <$> Store.order_by_install_order
             (Store.query_items (of_batch batchRequestId) s) |}.

(** [createBatchRequest(appVersionSysIds, options)] called on a manager whose
    logger counter is [lg]. *)
Definition createBatchRequest (pf : Platform) (lg : ActivityLogger.t)
    (s : Store.t) (appVersionSysIds : string) (options : CreateOptions)
    : Result * ActivityLogger.t * Store.t :=
  let sysIds := JS.split "," appVersionSysIds in
  if bool_decide (length sysIds = 0) then
    (failure "No applications selected" None, lg, s)
  else
    let total := Z.of_nat (length sysIds) in
    match Store.insert_batch (new_batch pf total options) s with
    | (None, s) =>
        (failure "Failed to create batch request record" None, lg, s)
    | (Some batchId, s) =>
        let '(lg, s) :=
          ActivityLogger.log lg s batchId None start preparation
            ("Batch request created with " +:+ pretty total +:+ " application(s)")
            ActivityLogger.no_options in
        let '(ok, s) := _createBatchItems pf s batchId sysIds in
        if negb ok then
          (failure "undefined" (Some batchId), lg, s)
        else
          let manifest := _buildManifest s batchId in
          let s := Store.update_batch batchId
                     (BatchRequest.set_batch_manifest (Some manifest)) s in
          let '(lg, s) :=
            ActivityLogger.log lg s batchId None info preparation
              ("Batch manifest built with " +:+
               pretty (Z.of_nat (length (packages manifest))) +:+ " package(s)")
              ActivityLogger.no_options in
          ({| success := true; message := "Batch request created successfully";
              batchRequestId := Some batchId; totalApps := Some total;
              progressWorkerId := None |}, lg, s)
    end.

(** [_getAppVersionSysIds] *)
Definition _getAppVersionSysIds (s : Store.t) (batchRequestId : string) : string :=
  JS.join ","
    ((λ row : nat * BatchItem.t, BatchItem.app_version row.2)
     <$> Store.order_by_install_order
           (Store.query_items (of_batch batchRequestId) s)).

(** A [while (gr.next()) { ...; gr.update(); }] loop over a query result. *)
Definition update_rows (rows : list (nat * BatchItem.t))
    (f : BatchItem.t → BatchItem.t) (s : Store.t) : Store.t :=
  foldl (λ s row, Store.update_item row.1 f s) s rows.

Definition _markAllItemsInstalling (pf : Platform) (s : Store.t)
    (batchRequestId : string) : Store.t :=
  update_rows
    (Store.query_items (λ it, of_batch batchRequestId it &&
                              bool_decide (BatchItem.state it = queued)) s)
    (λ it, BatchItem.set_start_time (Some (now pf))
             (BatchItem.set_state installing it)) s.

Definition _updateQueuedItemsState (s : Store.t) (batchRequestId : string)
    (newState : ItemState) : Store.t :=
  update_rows
    (Store.query_items (λ it, of_batch batchRequestId it &&
       (bool_decide (BatchItem.state it = queued) ||
        bool_decide (BatchItem.state it = installing))) s)
    (BatchItem.set_state newState) s.

(** [executeBatchInstall(batchRequestId)]. [run_subflow] is the flow runner
    applied to the [apps] input. The monitor subflow that
    [_startProgressMonitoring] launches runs in the background, after this
    call has returned: see [MonitorProgress.execute]. *)
Definition executeBatchInstall (pf : Platform) (run_subflow : string → FlowOutcome)
    (lg : ActivityLogger.t) (s : Store.t) (batchRequestId : string)
    : Result * ActivityLogger.t * Store.t :=
  match Store.batch_requests s !! batchRequestId with
  | None => (failure "Batch request not found" None, lg, s)
  | Some batchGr =>
      if bool_decide (BatchRequest.state batchGr = in_progress) then
        (failure "Batch is already running" None, lg, s)
      else
        let s := Store.update_batch batchRequestId
                   (λ b, BatchRequest.set_actual_start (Some (now pf))
                           (BatchRequest.set_state in_progress b)) s in
        let '(lg, s) :=
          ActivityLogger.log lg s batchRequestId None start installation
            "Batch installation started" ActivityLogger.no_options in
        let s := _markAllItemsInstalling pf s batchRequestId in
        match run_subflow (_getAppVersionSysIds s batchRequestId) with
        | flow_outputs progressId statusMessage =>
            let s := Store.update_batch batchRequestId
                       (BatchRequest.set_progress_worker (Some progressId)) s in
            let '(lg, s) :=
              ActivityLogger.log lg s batchRequestId None info installation
                ("CI/CD Batch Install triggered. Progress worker: " +:+ progressId)
                ActivityLogger.no_options in
            ({| success := true;
                message := JS.or_else statusMessage "Installation started";
                batchRequestId := Some batchRequestId; totalApps := None;
                progressWorkerId := Some progressId |}, lg, s)
        | flow_throws errorMsg =>
            let s := Store.update_batch batchRequestId
                       (λ b, BatchRequest.set_actual_end (Some (now pf))
                               (BatchRequest.set_error_summary (Some errorMsg)
                                  (BatchRequest.set_state failed b))) s in
            let '(lg, s) :=
              ActivityLogger.log lg s batchRequestId None error installation
                ("Batch installation failed: " +:+ errorMsg)
                ActivityLogger.no_options in
            (failure errorMsg None, lg, s)
        end
  end.

(** [cancelBatchInstall(batchRequestId)] *)
Definition cancelBatchInstall (pf : Platform) (lg : ActivityLogger.t)
    (s : Store.t) (batchRequestId : string)
    : Result * ActivityLogger.t * Store.t :=
  match Store.batch_requests s !! batchRequestId with
  | None => (failure "Batch request not found" None, lg, s)
  | Some _ =>
      let s := Store.update_batch batchRequestId
                 (λ b, BatchRequest.set_actual_end (Some (now pf))
                         (BatchRequest.set_state cancelled b)) s in
      let s := _updateQueuedItemsState s batchRequestId skipped in
      let '(lg, s) :=
        ActivityLogger.log lg s batchRequestId None warning installation
          ("Batch installation cancelled by " +:+ user_display_name pf)
          ActivityLogger.no_options in
      ({| success := true; message := "Batch installation cancelled";
          batchRequestId := None; totalApps := None;
          progressWorkerId := None |}, lg, s)
  end.

End BatchUpdateManager.

(** ** Scripted REST API *)
Module UpdateCenterAPI.
Import BatchUpdateManager.

(** The request body of [POST /batch-install] after the defaults
    ([body.appVersionSysIds || ''], [body.execute !== false], ...). *)
Record InstallBody := {
  appVersionSysIds : string;
  execute : bool;
  body_options : CreateOptions }.

Record Response := {
  status : Z;
  body : option Result;
  execution : option Result }.

(** [postBatchInstall]: a new manager, hence a new logger, per request. *)
Definition postBatchInstall (pf : Platform) (run_subflow : string → FlowOutcome)
    (s : Store.t) (req : InstallBody) : Response * Store.t :=
  if negb (JS.truthy (appVersionSysIds req)) then
    ({| status := 400; body := None; execution := None |}, s)
  else
    let '(result, lg, s) :=
      createBatchRequest pf ActivityLogger.initialize s
        (appVersionSysIds req) (body_options req) in
    if negb (success result) then
      ({| status := 500; body := Some result; execution := None |}, s)
    else if execute req &&
            negb (bool_decide (is_Some (ActivityLogger.if_truthy
                                          (scheduledStart (body_options req)))))
    then
      let '(execResult, lg, s) :=
        executeBatchInstall pf run_subflow lg s
          (default EmptyString (batchRequestId result)) in
      ({| status := 201; body := Some result; execution := Some execResult |}, s)
    else
      ({| status := 201; body := Some result; execution := None |}, s).

(** [postCancel] *)
Definition postCancel (pf : Platform) (s : Store.t) (batchRequestId : string)
    : Response * Store.t :=
  if negb (JS.truthy batchRequestId) then
    ({| status := 400; body := None; execution := None |}, s)
  else
    let '(result, lg, s) :=
      cancelBatchInstall pf ActivityLogger.initialize s batchRequestId in
    ({| status := if success result then 200 else 500;
        body := Some result; execution := None |}, s).

End UpdateCenterAPI.

(** ** Monitor Batch Progress (flow script step) *)
Module MonitorProgress.

Definition MAX_POLL_TIME_MS : Z := 7200000.
Definition POLL_INTERVAL_STARTING : Z := 3000.
Definition POLL_INTERVAL_RUNNING : Z := 10000.

(** A [sys_progress_worker] row as the loop reads it, that is after
    [|| ''] on the strings and [parseInt(...) || 0] on the percentage. *)
Record Worker := {
  pw_state : string;
  pw_message : string;
  pw_percent_complete : Z;
  pw_error_message : string;
  pw_output_summary : string }.

(** What one iteration of the loop reads from outside: the clock, the
    progress worker ([None] when [pw.get] fails) and [sys_store_app]. *)
Record Observation := {
  obs_now : Z;
  obs_worker : option Worker;
  obs_store_app : gmap string StoreApp }.

(** The variables of the script and the record store it writes to. *)
Record t := {
  store : Store.t;
  logger : ActivityLogger.t;
  batchRequestId : string;
  progressWorkerId : string;
  startTime : Z;
  lastMessage : string;
  lastPercent : Z;
  completedApps : Z;
  failedApps : Z;
  pollCount : Z;
  outputs : option (BatchState * string) }.

Definition with_store (lg : ActivityLogger.t) (s : Store.t) (m : t) : t :=
  {| store := s; logger := lg; batchRequestId := batchRequestId m;
     progressWorkerId := progressWorkerId m; startTime := startTime m;
     lastMessage := lastMessage m; lastPercent := lastPercent m;
     completedApps := completedApps m; failedApps := failedApps m;
     pollCount := pollCount m; outputs := outputs m |}.

Definition with_counters (completed failed : Z) (m : t) : t :=
  {| store := store m; logger := logger m; batchRequestId := batchRequestId m;
     progressWorkerId := progressWorkerId m; startTime := startTime m;
     lastMessage := lastMessage m; lastPercent := lastPercent m;
     completedApps := completed; failedApps := failed;
     pollCount := pollCount m; outputs := outputs m |}.

Definition with_last (msg : string) (percent : Z) (m : t) : t :=
  {| store := store m; logger := logger m; batchRequestId := batchRequestId m;
     progressWorkerId := progressWorkerId m; startTime := startTime m;
     lastMessage := msg; lastPercent := percent;
     completedApps := completedApps m; failedApps := failedApps m;
     pollCount := pollCount m; outputs := outputs m |}.

Definition with_pollCount (n : Z) (m : t) : t :=
  {| store := store m; logger := logger m; batchRequestId := batchRequestId m;
     progressWorkerId := progressWorkerId m; startTime := startTime m;
     lastMessage := lastMessage m; lastPercent := lastPercent m;
     completedApps := completedApps m; failedApps := failedApps m;
     pollCount := n; outputs := outputs m |}.

Definition with_outputs (final_state : BatchState) (summary : string) (m : t) : t :=
  {| store := store m; logger := logger m; batchRequestId := batchRequestId m;
     progressWorkerId := progressWorkerId m; startTime := startTime m;
     lastMessage := lastMessage m; lastPercent := lastPercent m;
     completedApps := completedApps m; failedApps := failedApps m;
     pollCount := pollCount m; outputs := Some (final_state, summary) |}.

(** [logger.log(batchRequestId, null, ...)] *)
Definition log (activityType : ActivityType) (phase : Phase) (message : string)
    (options : ActivityLogger.Options) (m : t) : t :=
  let '(lg, s) := ActivityLogger.log (logger m) (store m) (batchRequestId m)
                    None activityType phase message options in
  with_store lg s m.

Definition to_lower_ascii (a : ascii) : ascii :=
  let n := nat_of_ascii a in
  if (65 <=? n) && (n <=? 90) then ascii_of_nat (n + 32) else a.

(** [s.toLowerCase()] *)
Fixpoint toLowerCase (s : string) : string :=
  match s with
  | EmptyString => EmptyString
  | String a rest => String (to_lower_ascii a) (toLowerCase rest)
  end.

(** [s.indexOf(sub) !== -1] *)
Fixpoint contains (sub s : string) : bool :=
  String.prefix sub s ||
  match s with
  | EmptyString => false
  | String _ rest => contains sub rest
  end.

(** The activity type chosen for a new progress worker message. *)
Definition classify (message : string) : ActivityType :=
  let lower := toLowerCase message in
  if contains "error" lower || contains "fail" lower then error
  else if contains "complete" lower || contains "success" lower then success
  else if contains "install" lower then info
  else progress.

(** [_updateBatchProgress(batchId, percent)] *)
Definition _updateBatchProgress (percent : Z) (m : t) : t :=
  with_store (logger m)
    (Store.update_batch (batchRequestId m)
       (BatchRequest.set_overall_progress percent) (store m)) m.

Definition installing_of (batchId : string) (it : BatchItem.t) : bool :=
  BatchUpdateManager.of_batch batchId it &&
  bool_decide (BatchItem.state it = installing).

(** The body of the second loop of [_parseAndUpdateItems] for the row at
    position [idx] of the ordered result. The script computes [itemIndex]
    and [itemPercent] in floating point; they are taken here over the
    integers, [itemPercent] being [overallPercent * totalItems - 100 *
    itemIndex] before it is clamped. *)
Definition estimate_row (now : Z) (message : string) (overallPercent : Z)
    (totalItems itemIndex : Z) (idx : Z) (row : nat * BatchItem.t) (m : t) : t :=
  if (idx <? itemIndex)%Z then
    let startDt := default now (BatchItem.start_time row.2) in
    with_counters (completedApps m + 1) (failedApps m)
      (with_store (logger m)
         (Store.update_item row.1
            (λ it, BatchItem.set_duration_seconds
                     (JS.round_div (now - startDt) 1000)
                  (BatchItem.set_status_message (Some "Installed successfully")
                  (BatchItem.set_end_time (Some now)
                  (BatchItem.set_progress_percent 100
                  (BatchItem.set_state item_completed it)))))
            (store m)) m)
  else if (idx =? itemIndex)%Z then
    let itemPercent :=
      Z.max 0 (Z.min 100 (overallPercent * totalItems - 100 * itemIndex)) in
    with_store (logger m)
      (Store.update_item row.1
         (λ it, BatchItem.set_status_message (Some message)
                  (BatchItem.set_progress_percent itemPercent it))
         (store m)) m
  else m.

Fixpoint estimate_rows (now : Z) (message : string) (overallPercent : Z)
    (totalItems itemIndex : Z) (idx : Z) (rows : list (nat * BatchItem.t))
    (m : t) : t :=
  match rows with
  | [] => m
  | row :: rest =>
      estimate_rows now message overallPercent totalItems itemIndex (idx + 1) rest
        (estimate_row now message overallPercent totalItems itemIndex idx row m)
  end.

(** [_parseAndUpdateItems(batchId, message, overallPercent)] *)
Definition _parseAndUpdateItems (now : Z) (message : string)
    (overallPercent : Z) (m : t) : t :=
  let rows := Store.query_items (installing_of (batchRequestId m)) (store m) in
  let totalItems := Z.of_nat (length rows) in
  if (0 <? totalItems)%Z then
    let itemIndex := (overallPercent * totalItems / 100)%Z in
    estimate_rows now message overallPercent totalItems itemIndex 0
      (Store.order_by_install_order rows) m
  else m.

Definition mismatch_message (targetVersion currentVersion : option string)
    : string :=
  "Version mismatch after install. Expected " +:+
  ActivityLogger.str targetVersion +:+ ", found " +:+
  ActivityLogger.str currentVersion.

(** The body of the loop of [_syncFinalItemStates] for one row of the query
    result. *)
Definition sync_row (now : Z) (store_app : gmap string StoreApp)
    (row : nat * BatchItem.t) (m : t) : t :=
  let itemGr := row.2 in
  match BatchItem.application itemGr ≫= (λ a, store_app !! a) with
  | None => m
  | Some appGr =>
      let currentVersion := sa_version appGr in
      let targetVersion := BatchItem.to_version itemGr in
      if bool_decide (currentVersion = targetVersion) then
        if negb (bool_decide (BatchItem.state itemGr = item_completed)) then
          let s := Store.update_item row.1
                     (λ it,
                        (if BatchItem.end_time it is None
                         then BatchItem.set_end_time (Some now) else id)
                        (BatchItem.set_status_message (Some "Installed successfully")
                        (BatchItem.set_progress_percent 100
                        (BatchItem.set_state item_completed it))))
                     (store m) in
          let '(lg, s) :=
            ActivityLogger.logAppInstallComplete (logger m) s (batchRequestId m)
              (BatchItem.sys_id itemGr) (BatchItem.application_name itemGr)
              targetVersion 0 in
          with_store lg s m
        else m
      else if bool_decide (BatchItem.state itemGr = installing) then
        let s := Store.update_item row.1
                   (λ it, BatchItem.set_end_time (Some now)
                            (BatchItem.set_error_message
                               (Some (mismatch_message targetVersion currentVersion))
                            (BatchItem.set_state item_failed it)))
                   (store m) in
        let '(lg, s) :=
          ActivityLogger.logAppInstallFailed (logger m) s (batchRequestId m)
            (BatchItem.sys_id itemGr) (BatchItem.application_name itemGr)
            ("Version not updated to " +:+ ActivityLogger.str targetVersion) in
        with_counters (completedApps m) (failedApps m + 1) (with_store lg s m)
      else m
  end.

(** [_syncFinalItemStates(batchId)] *)
Definition _syncFinalItemStates (now : Z) (store_app : gmap string StoreApp)
    (m : t) : t :=
  foldl (λ m row, sync_row now store_app row m) m
    (Store.query_items (BatchUpdateManager.of_batch (batchRequestId m)) (store m)).

Definition count_state (st : ItemState) (rows : list (nat * BatchItem.t)) : Z :=
  Z.of_nat (length (filter (λ row, BatchItem.state row.2 = st) rows)).

(** [_finalizeBatch(state, message)] *)
Definition _finalizeBatch (now : Z) (state : BatchState) (message : string)
    (m : t) : t :=
  let rows := Store.query_items (BatchUpdateManager.of_batch (batchRequestId m))
                (store m) in
  let countCompleted := count_state item_completed rows in
  let countFailed := count_state item_failed rows in
  let countSkipped := count_state skipped rows in
  let finalState :=
    if (0 <? countFailed)%Z && (0 <? countCompleted)%Z then partial else state in
  let s := Store.update_batch (batchRequestId m)
    (λ gr,
       let startDt := default now (BatchRequest.actual_start gr) in
       (if (0 <? countFailed)%Z
        then BatchRequest.set_error_summary
               (Some (pretty countFailed +:+ " app(s) failed to install"))
        else id)
       (BatchRequest.set_duration_seconds (JS.round_div (now - startDt) 1000)
       (BatchRequest.set_actual_end (Some now)
       (BatchRequest.set_overall_progress 100
       (BatchRequest.set_skipped_apps countSkipped
       (BatchRequest.set_failed_apps countFailed
       (BatchRequest.set_completed_apps countCompleted
       (BatchRequest.set_state finalState gr))))))))
    (store m) in
  let '(lg, s) :=
    ActivityLogger.logBatchComplete (logger m) s (batchRequestId m)
      {| ActivityLogger.sum_completed := countCompleted;
         ActivityLogger.sum_failed := countFailed;
         ActivityLogger.sum_skipped := countSkipped;
         ActivityLogger.sum_total := countCompleted + countFailed + countSkipped;
         ActivityLogger.sum_durationSeconds :=
           JS.round_div (now - startTime m) 1000 |} in
  with_outputs finalState message (with_store lg s m).

(** One iteration of the [while (true)] loop on the observation [o]; the
    boolean tells whether the iteration ended in [break]. *)
Definition poll (o : Observation) (m : t) : t * bool :=
  let m := with_pollCount (pollCount m + 1) m in
  let elapsed := (obs_now o - startTime m)%Z in
  if (MAX_POLL_TIME_MS <? elapsed)%Z then
    let m := log warning installation
               "Progress monitor timed out after 2 hours"
               ActivityLogger.no_options m in
    (_finalizeBatch (obs_now o) failed "Monitor timeout" m, true)
  else
    match obs_worker o with
    | None =>
        if (20 <? pollCount m)%Z then
          let m := log error installation
                     "Progress worker not found after extended polling"
                     ActivityLogger.no_options m in
          (_finalizeBatch (obs_now o) failed "Progress worker not found" m, true)
        else (m, false)
    | Some pw =>
        let state := pw_state pw in
        let message := pw_message pw in
        let percent := pw_percent_complete pw in
        let errorMsg := pw_error_message pw in
        let outputSummary := pw_output_summary pw in
        let m :=
          if negb (bool_decide (message = lastMessage m)) then
            let m := log (classify message) installation message
                       {| ActivityLogger.details := Some outputSummary;
                          ActivityLogger.applicationName := None;
                          ActivityLogger.progressPercent := Some percent |} m in
            let m := with_last message (lastPercent m) m in
            _parseAndUpdateItems (obs_now o) message percent m
          else m in
        let m :=
          if negb (bool_decide (percent = lastPercent m)) &&
             bool_decide (Z.rem percent 10 = 0)%Z && (0 <? percent)%Z
          then with_last (lastMessage m) percent (_updateBatchProgress percent m)
          else m in
        if bool_decide (state = "complete") || bool_decide (state = "cancelled")
           || bool_decide (state = "error") then
          let finalState :=
            if bool_decide (state = "complete") then completed else failed in
          let m :=
            if JS.truthy errorMsg then
              log error post_install ("Installation error: " +:+ errorMsg)
                ActivityLogger.no_options m
            else m in
          let m := _syncFinalItemStates (obs_now o) (obs_store_app o) m in
          (_finalizeBatch (obs_now o) finalState
             (JS.or_else outputSummary message) m, true)
        else (m, false)
    end.

(** The loop: the script states after each iteration, up to and including
    the one that breaks. The list of observations is what the outside world
    shows at the successive iterations; when it is used up the script is
    still polling. *)
Fixpoint poll_trace (obs : list Observation) (m : t) : list t :=
  match obs with
  | [] => []
  | o :: rest =>
      let '(m', stop) := poll o m in
      if stop then [m'] else m' :: poll_trace rest m'
  end.

(** The script up to the loop: its variables are initialised and the first
    entry is logged. *)
Definition init (s : Store.t) (batch_request_id progress_worker_id : string)
    (start : Z) : t :=
  log info installation
    ("Progress monitor started. Tracking worker: " +:+ progress_worker_id)
    ActivityLogger.no_options
    {| store := s; logger := ActivityLogger.initialize;
       batchRequestId := batch_request_id;
       progressWorkerId := progress_worker_id;
       startTime := start; lastMessage := EmptyString; lastPercent := (-1);
       completedApps := 0; failedApps := 0; pollCount := 0; outputs := None |}.

(** [execute(inputs, outputs)] on the observations [obs]: the state in which
    the script stops, or that it has reached when [obs] is used up. *)
Definition execute (s : Store.t) (batch_request_id progress_worker_id : string)
    (start : Z) (obs : list Observation) : t :=
  let m0 := init s batch_request_id progress_worker_id start in
  List.last (poll_trace obs m0) m0.

End MonitorProgress.

(** ** Scripted REST API: the read resources

    [GET /dashboard] and [GET /available-updates], applied to the summary
    that [getUpdateSummary] hands them. *)
Module UpdateCenterReadAPI.
Import UpdateAnalyzer.

#[global] Instance RiskLevel_eq_dec : EqDecision RiskLevel.
Proof. solve_decision. Defined.

(** The strings that the analyzer uses for levels and risks. *)
Definition level_name (l : UpdateLevel) : string :=
  match l with
  | major => "major" | minor => "minor" | patch => "patch" | none => "none"
  end.

Definition risk_name (r : RiskLevel) : string :=
  match r with
  | low => "low" | medium => "medium" | high => "high" | critical => "critical"
  end.

Record Dashboard := {
  d_counts : Counts;
  d_riskBreakdown : RiskBreakdown;
  d_byVendor : gmap string Z }.

(** [getDashboard] *)
Definition getDashboard (summary : UpdateSummary) : Z * Dashboard :=
  (200%Z, {| d_counts := s_counts summary;
             d_riskBreakdown := riskBreakdown summary;
             d_byVendor := byVendor summary |}).

Record UpdateList := {
  ul_total : Z;
  ul_updates : list AppUpdate }.

(** [getAvailableUpdates]; the filters are the query parameters [level]
    and [risk], the empty string when absent. *)
Definition getAvailableUpdates (summary : UpdateSummary)
    (levelFilter riskFilter : string) : Z * UpdateList :=
  let apps := apps summary in
  let apps :=
    if JS.truthy levelFilter
    then filter (λ a, level_name (au_updateLevel a) = levelFilter) apps
    else apps in
  let apps :=
    if JS.truthy riskFilter
    then filter (λ a, risk_name (au_riskLevel a) = riskFilter) apps
    else apps in
  (200%Z, {| ul_total := Z.of_nat (length apps); ul_updates := apps |}).

End UpdateCenterReadAPI.

(** ** Refresh Available Updates (scheduled job)

    The job reads the summary of the analyzer and the system property
    [last_notified_count]; the number read, [parseInt(lastNotified) || 0],
    is an input here and the number written back ([String(summary.total)])
    a result. The JSON cache of the counts, which none of these scripts
    reads back, and the [gs.info] traces are left out. *)
Module RefreshJob.
Import UpdateAnalyzer.

Record Mail := {
  mail_subject : string;
  mail_body : string;
  mail_to : list string }.

Definition nl : string := String (ascii_of_nat 10) EmptyString.

(** [_notifyAdmins(summary, newCount)]: [notifyEnabled] is the property
    [notify_on_new_updates] and [emails] are the addresses of the active
    users who hold the admin role, in the order of the query. Answers the
    mail that is saved, if one is. *)
Definition _notifyAdmins (notifyEnabled : string) (emails : list string)
    (summary : UpdateSummary) (newCount : Z) : option Mail :=
  if negb (bool_decide (notifyEnabled = "true")) then None
  else
    let recipients := filter (λ e, JS.truthy e = true) emails in
    if bool_decide (length recipients = 0) then None
    else
      let c := s_counts summary in
      let rb := riskBreakdown summary in
      Some {| mail_subject :=
                "Update Center: " +:+ pretty newCount +:+
                " New Store Update(s) Available";
              mail_body :=
                "SNOW Update Center has detected " +:+ pretty newCount +:+
                " new Store update(s) available for installation." +:+ nl +:+ nl +:+
                "Summary:" +:+ nl +:+
                "  Total Available: " +:+ pretty (c_total c) +:+ nl +:+
                "  Major Updates:   " +:+ pretty (c_major c) +:+ nl +:+
                "  Minor Updates:   " +:+ pretty (c_minor c) +:+ nl +:+
                "  Patches:         " +:+ pretty (c_patch c) +:+ nl +:+ nl +:+
                "Risk Breakdown:" +:+ nl +:+
                "  Critical: " +:+ pretty (rb_critical rb) +:+ nl +:+
                "  High:     " +:+ pretty (rb_high rb) +:+ nl +:+
                "  Medium:   " +:+ pretty (rb_medium rb) +:+ nl +:+
                "  Low:      " +:+ pretty (rb_low rb) +:+ nl +:+ nl +:+
                "Open Update Center to review and install updates.";
              mail_to := recipients |}.

(** [executeJob]: the mail saved, if any, and [last_notified_count] after
    the run. *)
Definition executeJob (notifyEnabled : string) (emails : list string)
    (summary : UpdateSummary) (lastCount : Z) : option Mail * Z :=
  let total := c_total (s_counts summary) in
  if (lastCount <? total)%Z then
    (_notifyAdmins notifyEnabled emails summary (total - lastCount), total)
  else (None, lastCount).

(** Successive runs of the job, one per summary, the property being
    handed from each run to the next. *)
Fixpoint runs (notifyEnabled : string) (emails : list string)
    (summaries : list UpdateSummary) (lastCount : Z)
    : list (option Mail) * Z :=
  match summaries with
  | [] => ([], lastCount)
  | summary :: rest =>
      let '(mail, lastCount) :=
        executeJob notifyEnabled emails summary lastCount in
      let '(mails, lastCount) := runs notifyEnabled emails rest lastCount in
      (mail :: mails, lastCount)
  end.

(** The highest of [lastCount] and the totals of the summaries. *)
Definition high_water (lastCount : Z) (summaries : list UpdateSummary) : Z :=
  foldl (λ hw summary, Z.max hw (c_total (s_counts summary))) lastCount summaries.

End RefreshJob.

(** ** Available Updates remote table script: [executeQuery]

    The rows that the script adds to the remote table. [compareVersions] is
    [AvailableUpdates.compareVersions]; a [null] version makes it throw
    ([null.split]), and with it the script: the result is [None] then.
    A sys_id is not an array index, so the keys of [res] are enumerated in
    the order in which they were added. *)
Module RemoteTable.
Import UpdateAnalyzer AvailableUpdates.

(** A [sys_app_version] record as [getAvailableVersions] returns it. *)
Record Version := {
  ver_sys_id : string;
  ver_name : string;
  ver_version : option string;
  ver_publish_date : option string }.

(** A row of the remote table. *)
Record Row := {
  r_sys_id : option string;
  r_application : option string;
  r_scope : option string;
  r_name : option string;
  r_update_level : option UpdateLevel;
  r_available_version : option string;
  r_version_number : option string;
  r_installed_version : option string;
  r_latest_major_version : option string;
  r_latest_minor_version : option string;
  r_latest_patch_version : option string;
  r_major_count : Z;
  r_minor_count : Z;
  r_patch_count : Z;
  r_risk_level : RiskLevel;
  r_has_dependencies : bool;
  r_dependency_count : Z;
  r_last_updated : option string;
  r_vendor : option string;
  r_release_notes_url : option string;
  r_latest_version_level : option UpdateLevel;
  r_batch_level : option UpdateLevel }.

Definition createTemplate : Row :=
  {| r_sys_id := None; r_application := None; r_scope := None; r_name := None;
     r_update_level := None; r_available_version := None;
     r_version_number := None; r_installed_version := None;
     r_latest_major_version := None; r_latest_minor_version := None;
     r_latest_patch_version := None;
     r_major_count := 0; r_minor_count := 0; r_patch_count := 0;
     r_risk_level := low; r_has_dependencies := false; r_dependency_count := 0;
     r_last_updated := None; r_vendor := None; r_release_notes_url := None;
     r_latest_version_level := None; r_batch_level := None |}.

(** [assessRisk(updateLevel, majorCount, minorCount)] *)
Definition assessRisk (updateLevel : UpdateLevel) (majorCount minorCount : Z)
    : RiskLevel :=
  if bool_decide (updateLevel = major) || (0 <? majorCount)%Z then high
  else if (2 <? minorCount)%Z then medium
  else if bool_decide (updateLevel = minor) then medium
  else low.

(** [getDependencyInfo(appSysId)] *)
Definition getDependencyInfo (tbl : DependencyTable) (appSysId : string)
    : bool * Z :=
  let count := _getDependencyCount tbl appSysId in
  ((0 <? count)%Z, count).

(** [gs.nil(x)]: [null], [undefined] or the empty string. *)
Definition nil (x : option string) : bool :=
  match x with
  | None => true
  | Some s => negb (JS.truthy s)
  end.

(** The object that [res[appId]] holds: one row per level. *)
Record Levels := {
  l_major : Row; l_minor : Row; l_patch : Row; l_none : Row }.

Definition templates : Levels :=
  {| l_major := createTemplate; l_minor := createTemplate;
     l_patch := createTemplate; l_none := createTemplate |}.

Definition get_level (lvl : UpdateLevel) (ls : Levels) : Row :=
  match lvl with
  | major => l_major ls | minor => l_minor ls | patch => l_patch ls
  | none => l_none ls
  end.

Definition set_level (lvl : UpdateLevel) (row : Row) (ls : Levels) : Levels :=
  match lvl with
  | major => {| l_major := row; l_minor := l_minor ls; l_patch := l_patch ls;
                l_none := l_none ls |}
  | minor => {| l_major := l_major ls; l_minor := row; l_patch := l_patch ls;
                l_none := l_none ls |}
  | patch => {| l_major := l_major ls; l_minor := l_minor ls; l_patch := row;
                l_none := l_none ls |}
  | none => {| l_major := l_major ls; l_minor := l_minor ls;
               l_patch := l_patch ls; l_none := row |}
  end.

(** The object [res]: its own keys in insertion order. *)
Definition Res := list (string * Levels).

Fixpoint res_get (appId : string) (res : Res) : option Levels :=
  match res with
  | [] => None
  | (k, ls) :: rest => if bool_decide (k = appId) then Some ls else res_get appId rest
  end.

(** [res[appId] = ls]: a new key comes last. *)
Fixpoint res_set (appId : string) (ls : Levels) (res : Res) : Res :=
  match res with
  | [] => [(appId, ls)]
  | (k, old) :: rest =>
      if bool_decide (k = appId) then (k, ls) :: rest
      else (k, old) :: res_set appId ls rest
  end.

(** The assignments to [entry] in the version loop. *)
Definition fill (app : InstalledApp) (installedVer : string)
    (depInfo : bool * Z) (ver : Version) (version : string)
    (diff : UpdateLevel) (entry : Row) : Row :=
  {| r_sys_id := Some (ver_sys_id ver);
     r_application := Some (ia_sys_id app);
     r_scope := ia_scope app;
     r_name := Some (ia_name app +:+ " - " +:+ version);
     r_update_level := Some diff;
     r_available_version := Some (ver_sys_id ver);
     r_version_number := Some version;
     r_installed_version := Some installedVer;
     r_latest_major_version :=
       if bool_decide (diff = patch) || bool_decide (diff = minor)
          || bool_decide (diff = major)
       then Some (ver_sys_id ver) else r_latest_major_version entry;
     r_latest_minor_version :=
       if bool_decide (diff = patch) || bool_decide (diff = minor)
       then Some (ver_sys_id ver) else r_latest_minor_version entry;
     r_latest_patch_version :=
       if bool_decide (diff = patch)
       then Some (ver_sys_id ver) else r_latest_patch_version entry;
     r_major_count := r_major_count entry;
     r_minor_count := r_minor_count entry;
     r_patch_count := r_patch_count entry;
     r_risk_level := r_risk_level entry;
     r_has_dependencies := depInfo.1;
     r_dependency_count := depInfo.2;
     r_last_updated := ver_publish_date ver;
     r_vendor := Some (JS.or_else (default EmptyString (ia_vendor app))
                         "ServiceNow");
     r_release_notes_url := r_release_notes_url entry;
     r_latest_version_level := r_latest_version_level entry;
     r_batch_level := r_batch_level entry |}.

(** [row.latest_version_level = diff; row[diff + '_count']++] *)
Definition bump (diff : UpdateLevel) (row : Row) : Row :=
  {| r_sys_id := r_sys_id row; r_application := r_application row;
     r_scope := r_scope row; r_name := r_name row;
     r_update_level := r_update_level row;
     r_available_version := r_available_version row;
     r_version_number := r_version_number row;
     r_installed_version := r_installed_version row;
     r_latest_major_version := r_latest_major_version row;
     r_latest_minor_version := r_latest_minor_version row;
     r_latest_patch_version := r_latest_patch_version row;
     r_major_count :=
       if bool_decide (diff = major) then r_major_count row + 1
       else r_major_count row;
     r_minor_count :=
       if bool_decide (diff = minor) then r_minor_count row + 1
       else r_minor_count row;
     r_patch_count :=
       if bool_decide (diff = patch) then r_patch_count row + 1
       else r_patch_count row;
     r_risk_level := r_risk_level row;
     r_has_dependencies := r_has_dependencies row;
     r_dependency_count := r_dependency_count row;
     r_last_updated := r_last_updated row; r_vendor := r_vendor row;
     r_release_notes_url := r_release_notes_url row;
     r_latest_version_level := Some diff;
     r_batch_level := r_batch_level row |}.

(** What the body of the version loop does to [res[appId]] for a version
    at the level [diff]. *)
Definition update_levels (app : InstalledApp) (installedVer : string)
    (depInfo : bool * Z) (ver : Version) (version : string)
    (diff : UpdateLevel) (ls : Levels) : Levels :=
  let ls := set_level diff
              (fill app installedVer depInfo ver version diff
                 (get_level diff ls)) ls in
  foldl (λ ls lvl, set_level lvl (bump diff (get_level lvl ls)) ls)
    ls [patch; minor; major].

(** The body of the loop over the versions of [app]. *)
Definition version_step (app : InstalledApp) (depInfo : bool * Z)
    (res : Res) (ver : Version) : option Res :=
  match ia_version app, ver_version ver with
  | Some installedVer, Some version =>
      let diff := compareVersions installedVer version in
      if bool_decide (diff = none) then Some res
      else
        let ls := default templates (res_get (ia_sys_id app) res) in
        Some (res_set (ia_sys_id app)
                (update_levels app installedVer depInfo ver version diff ls)
                res)
  | _, _ => None
  end.

Fixpoint version_loop (app : InstalledApp) (depInfo : bool * Z)
    (versions : list Version) (res : Res) : option Res :=
  match versions with
  | [] => Some res
  | ver :: rest =>
      version_step app depInfo res ver ≫= version_loop app depInfo rest
  end.

(** The loop over [sys_store_app]; [getAvailableVersions] is the query on
    [sys_app_version], ordered by version by the database. *)
Fixpoint app_loop (getAvailableVersions : string → list Version)
    (tbl : DependencyTable) (apps : list InstalledApp) (res : Res)
    : option Res :=
  match apps with
  | [] => Some res
  | app :: rest =>
      version_loop app (getDependencyInfo tbl (ia_sys_id app))
        (getAvailableVersions (ia_sys_id app)) res
      ≫= app_loop getAvailableVersions tbl rest
  end.

(** The first loop of the post-processing: a level without an entry takes
    a copy of the last level below it that has one (of the patch level when
    none has). *)
Definition fill_gaps (ls : Levels) : Levels :=
  fst (foldl (λ '(ls, lastLevel) levelCheck,
                if nil (r_application (get_level levelCheck ls))
                then (set_level levelCheck lastLevel ls, lastLevel)
                else (ls, get_level levelCheck ls))
         (ls, l_patch ls) [patch; minor; major]).

(** [row.batch_level = lev; row.risk_level = assessRisk(lev, ...)] *)
Definition with_risk (lev : UpdateLevel) (row : Row) : Row :=
  {| r_sys_id := r_sys_id row; r_application := r_application row;
     r_scope := r_scope row; r_name := r_name row;
     r_update_level := r_update_level row;
     r_available_version := r_available_version row;
     r_version_number := r_version_number row;
     r_installed_version := r_installed_version row;
     r_latest_major_version := r_latest_major_version row;
     r_latest_minor_version := r_latest_minor_version row;
     r_latest_patch_version := r_latest_patch_version row;
     r_major_count := r_major_count row;
     r_minor_count := r_minor_count row;
     r_patch_count := r_patch_count row;
     r_risk_level := assessRisk lev (r_major_count row) (r_minor_count row);
     r_has_dependencies := r_has_dependencies row;
     r_dependency_count := r_dependency_count row;
     r_last_updated := r_last_updated row; r_vendor := r_vendor row;
     r_release_notes_url := r_release_notes_url row;
     r_latest_version_level := r_latest_version_level row;
     r_batch_level := Some lev |}.

(** The second loop: the rows of one app that are added to the table. *)
Definition add_rows (ls : Levels) : list Row :=
  flat_map (λ lev,
    let row := with_risk lev (get_level lev ls) in
    if nil (r_available_version row) then [] else [row])
    [major; minor; patch].

(** [executeQuery]: the rows added to [v_table], in order. *)
Definition executeQuery (store_apps : list InstalledApp)
    (getAvailableVersions : string → list Version) (tbl : DependencyTable)
    : option (list Row) :=
  app_loop getAvailableVersions tbl (updatable store_apps) []
  ≫= λ res, Some (flat_map (λ entry, add_rows (fill_gaps entry.2)) res).

End RemoteTable.

(* ===================================================================== *)
(** * Part II: vocabulary of the design document                          *)
(* ===================================================================== *)

(** ** Update-level classification as the design document words it *)
Module VersionSpec.





End VersionSpec.

(** ** The dependency graph of a candidate set, and the invariant of the sort *)
Module TopoSpec.
Import UpdateAnalyzer.
Section graph.
Variable appIds : list string.
Variable depMap : gmap string (list string).

(** [x] depends on [d] and both are candidates: an edge of the graph that
    [visit] walks. *)
Definition depends_on (x d : string) : Prop :=
  x ∈ appIds ∧ d ∈ default [] (depMap !! x) ∧ d ∈ appIds.

(** No candidate reaches itself along one or more edges. *)
Definition acyclic : Prop := ∀ x, ¬ tc depends_on x x.

(** [d] occurs at an earlier position than [x] in [l]. *)
Definition before (d x : string) (l : list string) : Prop :=
  ∃ i j, l !! i = Some d ∧ l !! j = Some x ∧ i < j.

(** Neither flag of [x] reads truthy. *)
Definition unmarked (st : SortState) (x : string) : Prop :=
  flag (visited st) x = false ∧ flag (visiting st) x = false.

(** The candidates that [visit] has not entered yet; their number bounds the
    depth that the recursion can still reach. *)
Definition unmarked_set (st : SortState) : gset string :=
  filter (unmarked st) (list_to_set appIds).

(** Why a call of [visit] on [d] stops at its first test: [d] is on the
    stack and the walk came back to it, or [d] is a name that the flag
    tables inherit. *)
Definition stops (d x : string) : Prop :=
  tc depends_on d x ∨ inherited d = true.

(** The invariant of the sort: [order] lists once each the nodes whose
    [visited] flag was set; an inherited name keeps reading truthy in
    [visiting]; an edge out of a listed node leads to an earlier node,
    unless the call on its target stopped, in which case the conflict was
    recorded; and every recorded conflict names a candidate on which a call
    stopped. *)
Record sort_inv (st : SortState) : Prop := {
  inv_nodup : NoDup (order st);
  inv_order : ∀ x, x ∈ order st ↔
     flag (visited st) x = true ∧ inherited x = false;
  inv_disj : ∀ x, x ∈ order st → flag (visiting st) x = false;
  inv_inh : ∀ x, inherited x = true → flag (visiting st) x = true;
  inv_cand : ∀ x, x ∈ order st → x ∈ appIds;
  inv_edge : ∀ x d, x ∈ order st → depends_on x d →
     before d x (order st) ∨
     (stops d x ∧ conflict_message d ∈ conflicts st);
  inv_confl : ∀ c, c ∈ conflicts st →
     ∃ d, c = conflict_message d ∧ d ∈ appIds ∧ stops d d }.

(** What a call of [visit], or a loop of calls, does to the state. *)
Record sort_step (st st' : SortState) : Prop := {
  step_inv : sort_inv st';
  step_visiting : ∀ x, flag (visiting st') x = flag (visiting st) x;
  step_visited : ∀ x, flag (visited st) x = true → flag (visited st') x = true;
  step_order : ∃ new, order st' = order st ++ new;
  step_confl : ∃ c, conflicts st' = conflicts st ++ c }.

(** After the call on [d]: it is listed, or the call stopped at its first
    test and the conflict is recorded. *)
Definition settled (st st' : SortState) (d : string) : Prop :=
  d ∈ order st' ∨
  (flag (visiting st) d = true ∧ conflict_message d ∈ conflicts st').
End graph.
End TopoSpec.

Module TopoExamples.
(** A chain: a needs b and an app outside the batch, b needs c. *)
Definition chain_ids : list string := ["a"; "b"; "c"].
Definition chain_deps : gmap string (list string) :=
  <["a" := ["b"; "x"]]> (<["b" := ["c"]]> (<["c" := []]> ∅)).
(** Two apps that require each other. *)
Definition loop_ids : list string := ["a"; "b"].
Definition loop_deps : gmap string (list string) :=
  <["a" := ["b"]]> (<["b" := ["a"]]> ∅).
(** Two apps without dependencies; the id of the first is a name that every
    object inherits. *)
Definition named_ids : list string := ["constructor"; "a"].
Definition named_deps : gmap string (list string) :=
  <["constructor" := []]> (<["a" := []]> ∅).
(** The two apps that require each other, and a third app whose id is an
    inherited name. *)
Definition loop_named_ids : list string := ["a"; "b"; "toString"].
Definition loop_named_deps : gmap string (list string) :=
  <["a" := ["b"]]> (<["b" := ["a"]]> (<["toString" := []]> ∅)).
End TopoExamples.

(** ** Batch creation *)
Module CreateSpec.
Import BatchUpdateManager.

(** A submitted identifier resolves when, once trimmed, it is not blank and
    names a [sys_app_version] record. *)
Definition resolves (pf : Platform) (sysId : string) : Prop :=
  JS.truthy sysId = true ∧ is_Some (sys_app_version pf !! sysId).

#[global] Instance resolves_dec pf sysId : Decision (resolves pf sysId).
Proof. unfold resolves. apply _. Defined.

(** A platform with two published versions, used in examples. *)
Definition demo_platform : Platform :=
  {| user_id := "u1"; user_display_name := "Admin"; now := 1000;
     sys_app_version :=
       <["v1" := {| source_app_id := Some "app1"; av_version := Some "1.2.4" |}]>
       (<["v2" := {| source_app_id := Some "app2"; av_version := Some "2.0.0" |}]> ∅);
     sys_store_app :=
       <["app1" := {| display_value := "App One"; sa_version := Some "1.2.3" |}]>
       (<["app2" := {| display_value := "App Two"; sa_version := Some "1.9.0" |}]> ∅) |}.

(** A submission as a client can send it: the first identifier is followed
    by a no-break space (U+00A0, the bytes 194 and 160), the second stands
    between a tab and a line feed, [zz] names no version and the last entry
    is blank. *)
Definition spaced_input : string :=
  "v1" +:+ String (ascii_of_nat 194) (String (ascii_of_nat 160) ",") +:+
  String (ascii_of_nat 9) "v2" +:+ String (ascii_of_nat 10) ",zz,".

Definition no_create_options : CreateOptions :=
  {| scheduledStart := None; notes := None |}.

(** A flow runner that always hands back the progress worker [pw1]. *)
Definition demo_runner (apps : string) : FlowOutcome :=
  flow_outputs "pw1" "Installation started".

End CreateSpec.

(** ** Activity log numbering and what a script step may change *)
Module LogSpec.

(** The entries appended between [s] and [s'] carry the sequence numbers
    [lg + 1], ..., [lg'], in this order, and all belong to [batchId]. *)
Definition numbered (batchId : string) (lg : Z) (s : Store.t) (lg' : Z)
    (s' : Store.t) : Prop :=
  (lg ≤ lg')%Z ∧
  ∃ es, Store.activity_log s' = Store.activity_log s ++ es ∧
        ActivityLog.sequence <$> es = seqZ (lg + 1) (lg' - lg) ∧
        Forall (λ e, ActivityLog.batch_request e = batchId) es.

(** The sequence numbers of the log entries of a batch, oldest first. *)
Definition sequences_of (batchId : string) (s : Store.t) : list Z :=
  ActivityLog.sequence <$>
    filter (λ e, ActivityLog.batch_request e = batchId) (Store.activity_log s).

End LogSpec.

Module MonitorSpec.
Import MonitorProgress.

(** A step of the script that writes to the item table only. *)
Record items_only (m m' : MonitorProgress.t) : Prop := {
  io_batch_requests :
    Store.batch_requests (store m') = Store.batch_requests (store m);
  io_activity_log : Store.activity_log (store m') = Store.activity_log (store m);
  io_length :
    length (Store.batch_items (store m')) = length (Store.batch_items (store m));
  io_logger : logger m' = logger m;
  io_batchRequestId : batchRequestId m' = batchRequestId m;
  io_startTime : startTime m' = startTime m;
  io_lastMessage : lastMessage m' = lastMessage m;
  io_lastPercent : lastPercent m' = lastPercent m;
  io_pollCount : pollCount m' = pollCount m;
  io_outputs : outputs m' = outputs m }.

(** What every step of the script preserves: the identity of the batch, the
    start time, the set of batch requests, the rows of the item table (their
    number), and the numbering of the log. *)
Record script_step (m m' : MonitorProgress.t) : Prop := {
  ss_batchRequestId : batchRequestId m' = batchRequestId m;
  ss_startTime : startTime m' = startTime m;
  ss_batches : ∀ id, is_Some (Store.batch_requests (store m') !! id) ↔
                     is_Some (Store.batch_requests (store m) !! id);
  ss_length :
    length (Store.batch_items (store m')) = length (Store.batch_items (store m));
  ss_numbered :
    LogSpec.numbered (batchRequestId m) (logger m) (store m)
      (logger m') (store m') }.

(** [overall_progress] of the monitored batch request. *)
Definition progress_of (m : MonitorProgress.t) : option Z :=
  BatchRequest.overall_progress <$>
    Store.batch_requests (store m) !! batchRequestId m.

(** [state] of the monitored batch request. *)
Definition state_of (m : MonitorProgress.t) : option BatchState :=
  BatchRequest.state <$> Store.batch_requests (store m) !! batchRequestId m.

(** The entry [e] was appended to the activity log between [m] and [m']. *)
Definition logged_since (m m' : MonitorProgress.t) (e : ActivityLog.t) : Prop :=
  ∃ pre post,
    Store.activity_log (store m')
    = Store.activity_log (store m) ++ pre ++ e :: post.

(** The type of the log entry that the ground-truth sync owes to an item: a
    success entry when the inventory holds the item's application at the
    item's target version and the item is not completed yet, an error entry
    when it holds it at another version and the item is still installing,
    and no entry in every other case. *)
Definition sync_entry (inv : gmap string StoreApp) (it : BatchItem.t)
    : option ActivityType :=
  match BatchItem.application it ≫= (λ a, inv !! a) with
  | None => None
  | Some app =>
      if bool_decide (sa_version app = BatchItem.to_version it) then
        if bool_decide (BatchItem.state it = item_completed) then None
        else Some success
      else
        if bool_decide (BatchItem.state it = installing) then Some error
        else None
  end.

(** The entries owed to the rows of a query result, in the order of the
    rows, each by its type and the item it is about. *)
Definition sync_entries (inv : gmap string StoreApp)
    (rows : list (nat * BatchItem.t)) : list (ActivityType * option string) :=
  omap (λ row,
          (λ ty, (ty, ActivityLogger.if_truthy (Some (BatchItem.sys_id row.2))))
            <$> sync_entry inv row.2) rows.

(** The type of an entry and the item it is about. *)
Definition entry_key (e : ActivityLog.t) : ActivityType * option string :=
  (ActivityLog.activity_type e, ActivityLog.batch_item e).

(** The script states after each iteration that does not end in [break]. *)
Fixpoint polling_states (obs : list Observation) (m : MonitorProgress.t)
    : list MonitorProgress.t :=
  match obs with
  | [] => []
  | o :: rest =>
      let '(m', stop) := poll o m in
      if stop then [] else m' :: polling_states rest m'
  end.

(** The percentages that the successive observations report. *)
Definition readings (obs : list Observation) : list Z :=
  omap (λ o, pw_percent_complete <$> obs_worker o) obs.

End MonitorSpec.

(** ** A worked installation, used in examples *)
Module Scenario.
Import BatchUpdateManager CreateSpec MonitorProgress.

(** The store after [POST /batch-install] for the two demo versions:
    batch request [0], items [2] and [3], started. *)
Definition started : Store.t :=
  (UpdateCenterAPI.postBatchInstall demo_platform demo_runner Store.empty
     {| UpdateCenterAPI.appVersionSysIds := "v1,v2";
        UpdateCenterAPI.execute := true;
        UpdateCenterAPI.body_options := no_create_options |}).2.

(** The monitor script once it has logged its first entry, at time 2000. *)
Definition monitor0 : MonitorProgress.t := init started "0" "pw1" 2000.

Definition worker (state message : string) (percent : Z) : Worker :=
  {| pw_state := state; pw_message := message;
     pw_percent_complete := percent;
     pw_error_message := EmptyString; pw_output_summary := EmptyString |}.

(** [sys_store_app] once both apps are at their target versions. *)
Definition updated_inventory : gmap string StoreApp :=
  <["app1" := {| display_value := "App One"; sa_version := Some "1.2.4" |}]>
  (<["app2" := {| display_value := "App Two"; sa_version := Some "2.0.0" |}]> ∅).

Definition observe (time : Z) (w : Worker) : Observation :=
  {| obs_now := time; obs_worker := Some w;
     obs_store_app := updated_inventory |}.

(** A store holding one finished batch request and nothing else. *)
Definition finished : Store.t :=
  {| Store.batch_requests :=
       {[ "0" := BatchRequest.set_overall_progress 100
                   (BatchRequest.set_state completed
                      (new_batch demo_platform 1 no_create_options)) ]};
     Store.batch_items := []; Store.activity_log := [];
     Store.next_sys_id := 1 |}.

End Scenario.

(** ** Vocabulary for the summary and risk functions *)
Module AnalyzerSpec.
Import UpdateAnalyzer.

(** The position of a risk level on the scale low, medium, high, critical. *)
Definition risk_rank (r : RiskLevel) : nat :=
  match r with low => 0 | medium => 1 | high => 2 | critical => 3 end.

(** The position of an update level on the scale none, patch, minor, major. *)
Definition level_rank (l : UpdateLevel) : nat :=
  match l with none => 0 | patch => 1 | minor => 2 | major => 3 end.




(** The dashboard counter of a level, and of a risk. *)
Definition level_count (l : UpdateLevel) (c : Counts) : Z :=
  match l with
  | major => c_major c | minor => c_minor c | patch => c_patch c | none => 0
  end.

Definition risk_count (r : RiskLevel) (rb : RiskBreakdown) : Z :=
  match r with
  | low => rb_low rb | medium => rb_medium rb | high => rb_high rb
  | critical => rb_critical rb
  end.

End AnalyzerSpec.

(** ** Vocabulary for the item table *)
Module ItemSpec.

(** The row [r1] may come before the row [r2] when ordering by
    [install_order]. *)
Definition order_le (r1 r2 : nat * BatchItem.t) : Prop :=
  (BatchItem.install_order r1.2 ≤ BatchItem.install_order r2.2)%Z.

(** No item of the store refers to the batch request [batchId]. *)
Definition no_items_of (batchId : string) (s : Store.t) : Prop :=
  Forall (λ it, BatchItem.batch_request it ≠ batchId) (Store.batch_items s).

(** What [_markAllItemsInstalling] does to one item. *)
Definition mark_installing (batchId : string) (now : Z) (it : BatchItem.t)
    : BatchItem.t :=
  if BatchUpdateManager.of_batch batchId it &&
     bool_decide (BatchItem.state it = queued)
  then BatchItem.set_start_time (Some now) (BatchItem.set_state installing it)
  else it.

(** What [_updateQueuedItemsState(batchId, 'skipped')] does to one item. *)
Definition mark_skipped (batchId : string) (it : BatchItem.t) : BatchItem.t :=
  if BatchUpdateManager.of_batch batchId it &&
     (bool_decide (BatchItem.state it = queued) ||
      bool_decide (BatchItem.state it = installing))
  then BatchItem.set_state skipped it
  else it.

End ItemSpec.

(** ** Vocabulary for the progress reconciler *)
Module ReconcilerSpec.
Import MonitorProgress.

(** What the reconciler of the batch [id] leaves alone in the tables: the
    batch requests other than [id] and, at every position of the item
    table, the batch that the item belongs to; an item of another batch is
    not changed at all. *)
Record others_kept (id : string) (s s' : Store.t) : Prop := {
  ok_batches : ∀ id', id' ≠ id →
    Store.batch_requests s' !! id' = Store.batch_requests s !! id';
  ok_items : ∀ i it, Store.batch_items s !! i = Some it →
    ∃ it', Store.batch_items s' !! i = Some it' ∧
      BatchItem.batch_request it' = BatchItem.batch_request it ∧
      (BatchItem.batch_request it ≠ id → it' = it) }.

(** What [_parseAndUpdateItems] writes on an item that it takes to be
    installed. *)
Definition estimated_complete (now : Z) (it : BatchItem.t) : BatchItem.t :=
  BatchItem.set_duration_seconds
    (JS.round_div (now - default now (BatchItem.start_time it)) 1000)
    (BatchItem.set_status_message (Some "Installed successfully")
    (BatchItem.set_end_time (Some now)
    (BatchItem.set_progress_percent 100
    (BatchItem.set_state item_completed it)))).

(** The worker states on which the loop ends. *)
Definition terminal_worker (pw : Worker) : Prop :=
  pw_state pw = "complete" ∨ pw_state pw = "cancelled" ∨ pw_state pw = "error".

End ReconcilerSpec.

(** ** Vocabulary for the remote table *)
Module RemoteTableSpec.
Import UpdateAnalyzer AvailableUpdates RemoteTable.

(** The level of the version [ver] for an app installed at [installedVer]. *)
Definition diff_of (installedVer : string) (ver : Version) : UpdateLevel :=
  compareVersions installedVer (default EmptyString (ver_version ver)).

(** The versions of [versions] that are at the level [d], in query order. *)
Definition at_level (installedVer : string) (d : UpdateLevel)
    (versions : list Version) : list Version :=
  filter (λ ver, diff_of installedVer ver = d) versions.

(** The number of versions at the level [d]. *)
Definition count_at (installedVer : string) (d : UpdateLevel)
    (versions : list Version) : Z :=
  Z.of_nat (length (at_level installedVer d versions)).

(** The levels of an app once all its versions have been read. *)
Definition app_levels (app : InstalledApp) (installedVer : string)
    (depInfo : bool * Z) (versions : list Version) : Levels :=
  foldl (λ ls ver,
           let d := diff_of installedVer ver in
           if bool_decide (d = none) then ls
           else update_levels app installedVer depInfo ver
                  (default EmptyString (ver_version ver)) d ls)
    templates versions.

(** Neither the installed version nor a listed version is [null], unless
    no version is listed. *)
Definition readable (app : InstalledApp) (versions : list Version) : Prop :=
  match versions with
  | [] => True
  | _ => is_Some (ia_version app) ∧
         Forall (λ ver, is_Some (ver_version ver)) versions
  end.

#[global] Instance readable_dec app versions : Decision (readable app versions).
Proof. destruct versions; apply _. Defined.

(** An app at 1.2.3 with a patch and two minor versions, and one that is
    up to date. *)
Definition demo_apps : list InstalledApp :=
  [ {| ia_sys_id := "app1"; ia_name := "App One"; ia_version := Some "1.2.3";
       ia_vendor := None; ia_scope := Some "x_one"; ia_active := true;
       ia_update_available := true |};
    {| ia_sys_id := "app2"; ia_name := "App Two"; ia_version := Some "2.0.0";
       ia_vendor := Some "Acme"; ia_scope := Some "x_two"; ia_active := true;
       ia_update_available := true |} ].

Definition demo_versions (appSysId : string) : list Version :=
  if bool_decide (appSysId = "app1") then
    [ {| ver_sys_id := "v124"; ver_name := "1.2.4"; ver_version := Some "1.2.4";
         ver_publish_date := None |};
      {| ver_sys_id := "v130"; ver_name := "1.3.0"; ver_version := Some "1.3.0";
         ver_publish_date := None |};
      {| ver_sys_id := "v131"; ver_name := "1.3.1"; ver_version := Some "1.3.1";
         ver_publish_date := None |} ]
  else if bool_decide (appSysId = "app2") then
    [ {| ver_sys_id := "v200"; ver_name := "2.0.0"; ver_version := Some "2.0.0";
         ver_publish_date := None |} ]
  else [].

(** The entry [row] of the level [d] holds the last version at that level,
    if there is one, and the numbers of versions at each level. *)
Definition entry_tracks (app : InstalledApp) (installedVer : string)
    (d : UpdateLevel) (versions : list Version) (row : Row) : Prop :=
  let lastd := last (at_level installedVer d versions) in
  r_application row = (λ _, ia_sys_id app) <$> lastd ∧
  r_available_version row = ver_sys_id <$> lastd ∧
  r_update_level row = (λ _, d) <$> lastd ∧
  r_version_number row = (λ ver, default EmptyString (ver_version ver)) <$> lastd ∧
  r_installed_version row = (λ _, installedVer) <$> lastd ∧
  r_major_count row = count_at installedVer major versions ∧
  r_minor_count row = count_at installedVer minor versions ∧
  r_patch_count row = count_at installedVer patch versions.

End RemoteTableSpec.

(** ** Vocabulary for a finished installation *)
Module OutcomeSpec.
Import MonitorProgress.

(** The item at each position of [s] is still there in [s'], for the same
    batch, application and target version. *)
Definition same_targets (s s' : Store.t) : Prop :=
  ∀ j it, Store.batch_items s !! j = Some it →
    ∃ it', Store.batch_items s' !! j = Some it' ∧
      BatchItem.batch_request it' = BatchItem.batch_request it ∧
      BatchItem.application it' = BatchItem.application it ∧
      BatchItem.to_version it' = BatchItem.to_version it.

(** The inventory [inv] shows the application of [it] at its target
    version. *)
Definition at_target (inv : gmap string StoreApp) (it : BatchItem.t) : Prop :=
  ∃ app, BatchItem.application it ≫= (λ a, inv !! a) = Some app ∧
         sa_version app = BatchItem.to_version it.

End OutcomeSpec.

(* ===================================================================== *)
(** * Part III: properties                                                *)
(* ===================================================================== *)

(** A few evaluations of the embedding. *)
Example split_empty : JS.split "," EmptyString = [EmptyString].
Proof. reflexivity. Qed.

Example split_versions : JS.split "." "1.2.3" = ["1"; "2"; "3"].
Proof. reflexivity. Qed.

Example trim_blank : JS.trim " v2 " = "v2".
Proof. reflexivity. Qed.

Example trim_no_break_space :
  JS.trim <$> JS.split "," CreateSpec.spaced_input = ["v1"; "v2"; "zz"; EmptyString].
Proof. by vm_compute. Qed.

Example trim_unicode :
  let str (bytes : list nat) :=
    Strings.String.string_of_list_ascii (ascii_of_nat <$> bytes) in
  (* U+FEFF v 1 U+2028 U+3000 *)
  JS.trim (str [239; 187; 191; 118; 49; 226; 128; 168; 227; 128; 128]) = "v1" ∧
  (* U+0120 and U+1000 end with the last bytes of U+00A0 and U+2000 *)
  JS.trim (str [118; 196; 160]) = str [118; 196; 160] ∧
  JS.trim (str [225; 128; 128; 118]) = str [225; 128; 128; 118] ∧
  JS.trim (str [32; 9; 194; 160]) = EmptyString.
Proof. by vm_compute. Qed.

Example flag_of_empty_object :
  UpdateAnalyzer.flag ∅ "constructor" = true ∧
  UpdateAnalyzer.flag ∅ "toString" = true ∧
  UpdateAnalyzer.flag ∅ "0123456789abcdef0123456789abcdef" = false ∧
  UpdateAnalyzer.flag (<["a" := false]> ∅) "a" = false.
Proof. by vm_compute. Qed.

Example topo_chain :
  UpdateAnalyzer._topologicalSort TopoExamples.chain_ids TopoExamples.chain_deps
  = Some (["c"; "b"; "a"], []).
Proof. by vm_compute. Qed.

Example topo_loop :
  UpdateAnalyzer._topologicalSort TopoExamples.loop_ids TopoExamples.loop_deps
  = Some (["b"; "a"], ["Circular dependency detected involving a"]).
Proof. by vm_compute. Qed.

Example classify_messages :
  MonitorProgress.classify "Installing App One" = info ∧
  MonitorProgress.classify "Install FAILED" = error ∧
  MonitorProgress.classify "Done, success" = success ∧
  MonitorProgress.classify "Downloading" = progress.
Proof. by vm_compute. Qed.

(* ===================================================================== *)
(** * Update-level classification                                         *)
(* ===================================================================== *)
Section update_level.
Import VersionSpec.











End update_level.

(* ===================================================================== *)
(** * Dependency Analyzer: the topological sort                           *)
(* ===================================================================== *)
Section topological_sort_invariant.
Import UpdateAnalyzer TopoSpec.
Variable appIds : list string.
Variable depMap : gmap string (list string).
Local Abbreviation edge := (depends_on appIds depMap).
Local Abbreviation Inv := (sort_inv appIds depMap).
Local Abbreviation Step := (sort_step appIds depMap).
Local Abbreviation U := (unmarked_set appIds).
Local Abbreviation stop := (stops appIds depMap).

Lemma flag_insert m id b x :
  flag (<[id := b]> m) x = if decide (id = x) then b else flag m x.
Proof. unfold flag. rewrite lookup_insert. by case_decide. Qed.

Lemma flag_empty x : flag ∅ x = inherited x.
Proof. unfold flag. by rewrite lookup_empty. Qed.

Lemma before_app d x l l' : before d x l → before d x (l ++ l').
Proof.
  intros (i & j & Hi & Hj & Hlt). exists i, j.
  split_and!; [by apply lookup_app_l_Some..|done].
Qed.

Lemma before_snoc d x l : d ∈ l → before d x (l ++ [x]).
Proof.
  intros [i Hi]%list_elem_of_lookup. exists i, (length l).
  split_and!.
  - by apply lookup_app_l_Some.
  - by rewrite list_lookup_middle.
  - by eapply lookup_lt_Some.
Qed.

Lemma before_trans a b c l :
  NoDup l → before a b l → before b c l → before a c l.
Proof.
  intros Hnd (i & j & Hi & Hj & Hij) (j' & k & Hj' & Hk & Hjk).
  assert (j = j') as <- by (eapply NoDup_lookup; eauto).
  exists i, k. split_and!; [done..|lia].
Qed.

Lemma before_irrefl a l : NoDup l → ¬ before a a l.
Proof.
  intros Hnd (i & j & Hi & Hj & Hij).
  assert (i = j) by (eapply NoDup_lookup; eauto). lia.
Qed.

Lemma size_list_to_set_le (l : list string) :
  size (list_to_set l : gset string) ≤ length l.
Proof.
  induction l as [|x l IH].
  - by rewrite list_to_set_nil, size_empty.
  - rewrite list_to_set_cons, size_union_alt, size_singleton. simpl.
    pose proof (subseteq_size (list_to_set l ∖ {[x]}) (list_to_set l : gset string)) as Hs.
    assert (list_to_set l ∖ {[x]} ⊆ (list_to_set l : gset string)) by set_solver.
    specialize (Hs H). lia.
Qed.

Lemma unmarked_set_bound st : size (U st) ≤ length appIds.
Proof.
  etrans; [|apply size_list_to_set_le].
  apply subseteq_size. unfold unmarked_set. intros x. rewrite elem_of_filter. tauto.
Qed.

Lemma unmarked_set_mono st st' :
  (∀ x, flag (visiting st') x = flag (visiting st) x) →
  (∀ x, flag (visited st) x = true → flag (visited st') x = true) →
  U st' ⊆ U st.
Proof.
  intros Hv Hd x. unfold unmarked_set, unmarked. rewrite !elem_of_filter.
  intros [[H1 H2] H3]. split; [|done]. split.
  - destruct (flag (visited st) x) eqn:E; [|done].
    apply Hd in E. congruence.
  - by rewrite <- Hv.
Qed.

Lemma unmarked_set_mark st id :
  id ∈ appIds → unmarked st id →
  U {| visited := visited st; order := order st; conflicts := conflicts st;
       visiting := <[id := true]> (visiting st) |} ⊂ U st.
Proof.
  intros Hid Hun. unfold unmarked_set. split.
  - intros x. rewrite !elem_of_filter. unfold unmarked; simpl.
    rewrite flag_insert. case_decide; naive_solver.
  - intros Hsub. specialize (Hsub id). rewrite !elem_of_filter in Hsub.
    destruct Hsub as [[_ Hf] _].
    + split; [done|]. by apply elem_of_list_to_set.
    + simpl in Hf. rewrite flag_insert in Hf. by case_decide.
Qed.

Lemma sort_step_refl st : Inv st → Step st st.
Proof.
  intros. split; [done|done|done|exists []; by rewrite app_nil_r..].
Qed.

Lemma sort_inv_not_inherited st id :
  Inv st → flag (visiting st) id = false → inherited id = false.
Proof.
  intros Hinv Hid. destruct (inherited id) eqn:E; [|done].
  apply (inv_inh _ _ _ Hinv) in E. congruence.
Qed.

Lemma sort_step_trans st1 st2 st3 : Step st1 st2 → Step st2 st3 → Step st1 st3.
Proof.
  intros [_ Hv1 Hd1 [n1 Ho1] [c1 Hc1]] [Hi Hv2 Hd2 [n2 Ho2] [c2 Hc2]].
  split; [done| | | |].
  - intros x. by rewrite Hv2.
  - eauto.
  - exists (n1 ++ n2). by rewrite Ho2, Ho1, app_assoc.
  - exists (c1 ++ c2). by rewrite Hc2, Hc1, app_assoc.
Qed.

Lemma settled_mono st0 st1 st2 d :
  Step st1 st2 → settled st0 st1 d → settled st0 st2 d.
Proof.
  intros [_ _ _ [new Hnew] [c Hc]] [H|[H1 H2]]; [left|right].
  - rewrite Hnew. set_solver.
  - split; [done|]. rewrite Hc. set_solver.
Qed.

(** The loop around [visit]: every element that passes the guard is settled
    when the loop ends. *)
Lemma visit_loop_spec (guard : string → bool) fuel :
  (∀ id st, id ∈ appIds → Inv st →
     (∀ v, flag (visiting st) v = true → stop v id) →
     size (U st) < fuel →
     ∃ st', visit appIds depMap fuel id st = Some st' ∧ Step st st' ∧ settled st st' id) →
  ∀ ids st, Inv st →
    (∀ d, d ∈ ids → guard d = true →
       d ∈ appIds ∧ ∀ v, flag (visiting st) v = true → stop v d) →
    size (U st) < fuel →
    ∃ st', visit_loop guard (visit appIds depMap fuel) ids st = Some st' ∧
           Step st st' ∧
           ∀ d, d ∈ ids → guard d = true → settled st st' d.
Proof.
  intros IH ids. induction ids as [|d rest IHl]; intros st Hinv Hpre Hfuel; simpl.
  - exists st. split_and!; [done|by apply sort_step_refl|set_solver].
  - destruct (guard d) eqn:Hg.
    + destruct (Hpre d) as [Hd Htc]; [set_solver|done|].
      destruct (IH d st Hd Hinv Htc Hfuel) as (st1 & -> & Hstep1 & Hset1).
      destruct (IHl st1) as (st2 & -> & Hstep2 & Hset2).
      * apply Hstep1.
      * intros d' Hd' Hg'. destruct (Hpre d') as [? Htc']; [set_solver|done|].
        split; [done|]. intros v. rewrite (step_visiting _ _ _ _ Hstep1). auto.
      * pose proof (subseteq_size _ _ (unmarked_set_mono st st1
          (step_visiting _ _ _ _ Hstep1) (step_visited _ _ _ _ Hstep1))). lia.
      * exists st2. split_and!; [done|by eapply sort_step_trans|].
        intros d' [->|Hd']%elem_of_cons Hg'.
        -- by eapply settled_mono.
        -- destruct (Hset2 d' Hd' Hg') as [H|[H1 H2]]; [by left|right].
           split; [|done]. by rewrite <- (step_visiting _ _ _ _ Hstep1).
    + destruct (IHl st Hinv) as (st2 & -> & Hstep2 & Hset2); [|done|].
      * intros d' Hd' Hg'. apply Hpre; [set_solver|done].
      * exists st2. split_and!; [done..|].
        intros d' [->|Hd']%elem_of_cons Hg'; [congruence|auto].
Qed.

Lemma sort_inv_conflict st id :
  Inv st → id ∈ appIds → stop id id →
  Inv {| visited := visited st; order := order st;
         conflicts := conflicts st ++ [conflict_message id];
         visiting := visiting st |}.
Proof.
  intros [H1 H2 H3 Hi H4 H5 H6] Hid Hcyc. split; simpl; try done.
  - intros x d Hx He. destruct (H5 x d Hx He) as [?|[? ?]]; [by left|right].
    split; [done|]. set_solver.
  - intros c [Hc|Hc]%elem_of_app; [auto|].
    apply list_elem_of_singleton in Hc as ->. eauto.
Qed.

Lemma sort_inv_mark st id :
  Inv st → flag (visited st) id = false →
  Inv {| visited := visited st; order := order st; conflicts := conflicts st;
         visiting := <[id := true]> (visiting st) |}.
Proof.
  intros [H1 H2 H3 Hi H4 H5 H6] Hid. split; simpl; try done.
  - intros x Hx. rewrite flag_insert. case_decide as Heq; [|auto].
    subst x. apply H2 in Hx as [Hx _]. congruence.
  - intros x Hx. rewrite flag_insert. case_decide; auto.
Qed.

Lemma sort_inv_finish st st2 id :
  id ∈ appIds →
  (∀ v, flag (visiting st) v = true → stop v id) →
  inherited id = false →
  Step {| visited := visited st; order := order st; conflicts := conflicts st;
          visiting := <[id := true]> (visiting st) |} st2 →
  (∀ d, d ∈ default [] (depMap !! id) → in_batch appIds d = true →
     settled {| visited := visited st; order := order st;
                conflicts := conflicts st;
                visiting := <[id := true]> (visiting st) |} st2 d) →
  Inv {| visited := <[id := true]> (visited st2); order := order st2 ++ [id];
         conflicts := conflicts st2;
         visiting := <[id := false]> (visiting st2) |}.
Proof.
  intros Hid Hpre Hnv [[H1 H2 H3 Hi H4 H5 H6] Hv _ _ _] Hset. simpl in *.
  assert (id ∉ order st2) as Hfresh.
  { intros Hin%H3. rewrite Hv, flag_insert in Hin. by case_decide. }
  split; simpl.
  - apply NoDup_app. split_and!; [done|set_solver|apply NoDup_singleton].
  - intros x. rewrite elem_of_app, list_elem_of_singleton, flag_insert, H2.
    case_decide; naive_solver.
  - intros x Hx. rewrite flag_insert. case_decide; [done|].
    apply H3. set_solver.
  - intros x Hx. rewrite flag_insert. case_decide; [congruence|auto].
  - intros x [Hx| ->%list_elem_of_singleton]%elem_of_app; auto.
  - intros x d [Hx| ->%list_elem_of_singleton]%elem_of_app He.
    + destruct (H5 x d Hx He) as [?|?]; [left; by apply before_app|by right].
    + pose proof He as (_ & Hd & Hdin).
      destruct (Hset d Hd) as [Hvis|[Hving Hmsg]].
      * unfold in_batch. by apply bool_decide_eq_true.
      * left. by apply before_snoc.
      * right. split; [|done]. simpl in Hving. rewrite flag_insert in Hving.
        case_decide as Heq.
        -- subst d. left. by apply tc_once.
        -- by apply Hpre.
  - done.
Qed.

(** [visit] returns whenever its fuel exceeds the number of candidates that
    are not yet marked, and it settles the node it was called on. *)
Lemma visit_spec fuel :
  ∀ id st, id ∈ appIds → Inv st →
    (∀ v, flag (visiting st) v = true → stop v id) →
    size (U st) < fuel →
    ∃ st', visit appIds depMap fuel id st = Some st' ∧ Step st st' ∧ settled st st' id.
Proof.
  induction fuel as [|fuel IH]; intros id st Hid Hinv Hpre Hfuel; [lia|].
  simpl. destruct (flag (visiting st) id) eqn:Hving.
  { eexists. split; [done|]. split.
    - split; simpl; [by apply sort_inv_conflict; [| |apply Hpre]|done|done|
        exists []; by rewrite app_nil_r|by eexists].
    - right. split; [done|]. simpl. set_solver. }
  pose proof (sort_inv_not_inherited st id Hinv Hving) as Hown.
  destruct (flag (visited st) id) eqn:Hvis.
  { exists st. split_and!; [done|by apply sort_step_refl|left].
    by apply (inv_order _ _ _ Hinv). }
  set (st1 := {| visited := visited st; order := order st;
                 conflicts := conflicts st;
                 visiting := <[id := true]> (visiting st) |}).
  assert (size (U st1) < size (U st)) as Hlt
    by (apply subset_size, unmarked_set_mark; done).
  destruct (visit_loop_spec (in_batch appIds) fuel IH
              (default [] (depMap !! id)) st1) as (st2 & -> & Hstep & Hset).
  - by apply sort_inv_mark.
  - intros d Hd Hg. apply bool_decide_eq_true in Hg. split; [done|].
    intros v. simpl. rewrite flag_insert. case_decide as Heq.
    + intros _. subst v. left. by apply tc_once.
    + intros Hv. destruct (Hpre v Hv) as [Htc|Hinh]; [left|by right].
      by eapply tc_r.
  - lia.
  - eexists. split; [done|]. split.
    + split; simpl.
      * by eapply sort_inv_finish.
      * intros x. rewrite flag_insert, (step_visiting _ _ _ _ Hstep). simpl.
        rewrite flag_insert. by case_decide; subst.
      * intros x Hx. rewrite flag_insert. case_decide; [done|].
        by apply (step_visited _ _ _ _ Hstep).
      * destruct (step_order _ _ _ _ Hstep) as [new Hnew]. simpl in Hnew.
        exists (new ++ [id]). by rewrite Hnew, app_assoc.
      * apply (step_confl _ _ _ _ Hstep).
    + left. simpl. set_solver.
Qed.

(** More fuel never changes an answer that was reached. *)
Lemma visit_loop_mono guard (v v' : string → SortState → option SortState) ids :
  (∀ d st st', v d st = Some st' → v' d st = Some st') →
  ∀ st st', visit_loop guard v ids st = Some st' →
            visit_loop guard v' ids st = Some st'.
Proof.
  intros Hv. induction ids as [|d ids IH]; intros st st'; simpl; [done|].
  destruct (guard d); [|apply IH].
  destruct (v d st) as [st1|] eqn:Hd; [|done].
  rewrite (Hv _ _ _ Hd). apply IH.
Qed.

Lemma visit_fuel_mono fuel :
  ∀ fuel' id st st', fuel ≤ fuel' →
    visit appIds depMap fuel id st = Some st' →
    visit appIds depMap fuel' id st = Some st'.
Proof.
  induction fuel as [|fuel IH]; intros fuel' id st st' Hle; [done|].
  destruct fuel' as [|fuel']; [lia|]. simpl.
  destruct (flag (visiting st) id); [done|].
  destruct (flag (visited st) id); [done|].
  destruct (visit_loop _ (visit appIds depMap fuel) _ _) as [st2|] eqn:Hloop; [|done].
  erewrite visit_loop_mono; [done| |exact Hloop].
  intros d s1 s2. apply IH. lia.
Qed.

Lemma sort_inv_init : Inv sort_init.
Proof.
  split; simpl; [apply NoDup_nil_2|..]; try set_solver.
  intros x. rewrite flag_empty. split; [by intros ?%elem_of_nil|].
  intros [? ?]; congruence.
Qed.

(** The sort returns, and its final state satisfies the invariant; every
    candidate is listed, or is an inherited name and has its conflict
    recorded. *)
Lemma topological_sort_final :
  ∃ st, visit_loop (λ _, true) (visit appIds depMap (S (length appIds)))
          appIds sort_init = Some st ∧
        Inv st ∧
        (∀ x, x ∈ appIds → inherited x = false → x ∈ order st) ∧
        (∀ x, x ∈ appIds → inherited x = true →
              conflict_message x ∈ conflicts st).
Proof.
  destruct (visit_loop_spec (λ _, true) (S (length appIds))
              (visit_spec _) appIds sort_init) as (st & Hrun & Hstep & Hset).
  - apply sort_inv_init.
  - intros d Hd _. split; [done|]. intros v. simpl. rewrite flag_empty.
    by right.
  - pose proof (unmarked_set_bound sort_init). lia.
  - exists st. split_and!; [done|apply Hstep|..].
    + intros x Hx Hown. destruct (Hset x Hx eq_refl) as [?|[Hv _]]; [done|].
      simpl in Hv. rewrite flag_empty in Hv. congruence.
    + intros x Hx Hinh. destruct (Hset x Hx eq_refl) as [Hin|[_ ?]]; [|done].
      apply (inv_order _ _ _ (step_inv _ _ _ _ Hstep)) in Hin as [_ ?].
      congruence.
Qed.

Lemma edges_ordered_acyclic l :
  NoDup l → (∀ x d, edge x d → before d x l) → acyclic appIds depMap.
Proof.
  intros Hnd Hb.
  assert (∀ x y, tc edge x y → before y x l) as Htc.
  { induction 1 as [x y He|x y z He _ IH]; [auto|].
    eapply before_trans; [done|apply IH|auto]. }
  intros x Hx%Htc. by eapply before_irrefl.
Qed.
End topological_sort_invariant.

Section sort_soundness.
Import UpdateAnalyzer TopoSpec.

(** Everything the sort guarantees on an arbitrary candidate list and an
    arbitrary dependency map. *)
Lemma topological_sort_sound (appIds : list string)
    (depMap : gmap string (list string)) :
  ∃ ord confl,
    _topologicalSort appIds depMap = Some (ord, confl) ∧
    NoDup ord ∧
    (∀ x, x ∈ ord ↔ x ∈ appIds ∧ inherited x = false) ∧
    (∀ x d, x ∈ ord → depends_on appIds depMap x d →
       before d x ord ∨
       (stops appIds depMap d x ∧ conflict_message d ∈ confl)) ∧
    (∀ c, c ∈ confl →
       ∃ d, c = conflict_message d ∧ d ∈ appIds ∧ stops appIds depMap d d) ∧
    (∀ x, x ∈ appIds → inherited x = true → conflict_message x ∈ confl).
Proof.
  destruct (topological_sort_final appIds depMap)
    as (st & Hrun & Hinv & Hall & Hinh).
  exists (order st), (conflicts st). unfold _topologicalSort. rewrite Hrun.
  destruct Hinv as [H1 H2 H3 Hi H4 H5 H6].
  split_and!; [done|done| |done|done|done].
  intros x. split.
  - intros Hx. split; [auto|]. by apply H2 in Hx as [_ ?].
  - intros [? ?]. auto.
Qed.

(** The same on candidates none of which is an inherited name: the flag
    tables then behave like sets of candidates. *)
Lemma topological_sort_sound_own (appIds : list string)
    (depMap : gmap string (list string)) :
  Forall (λ x, inherited x = false) appIds →
  ∃ ord confl,
    _topologicalSort appIds depMap = Some (ord, confl) ∧
    NoDup ord ∧
    (∀ x, x ∈ ord ↔ x ∈ appIds) ∧
    (∀ x d, depends_on appIds depMap x d →
       before d x ord ∨
       (tc (depends_on appIds depMap) d x ∧ conflict_message d ∈ confl)) ∧
    (∀ c, c ∈ confl →
       ∃ d, c = conflict_message d ∧ tc (depends_on appIds depMap) d d).
Proof.
  intros Hown. rewrite Forall_forall in Hown.
  destruct (topological_sort_sound appIds depMap)
    as (ord & confl & Hrun & Hnd & Hmem & Hedge & Hconfl & _).
  exists ord, confl. split_and!; [done|done|..].
  - intros x. rewrite Hmem. naive_solver.
  - intros x d He. destruct (Hedge x d) as [?|[[?|Hinh] ?]]; [|done|by left|by right|].
    + apply Hmem. split; [apply He|apply Hown, He].
    + rewrite Hown in Hinh by apply He. done.
  - intros c Hc. destruct (Hconfl c Hc) as (d & -> & Hd & [?|Hinh]); [by exists d|].
    rewrite Hown in Hinh by done. done.
Qed.

Lemma build_depMap_lookup (tbl : DependencyTable) (ids : list string) (id : string) :
  id ∈ ids → build_depMap tbl ids !! id = Some (_getAppDependencies tbl id).
Proof.
  unfold build_depMap.
  assert (∀ m : gmap string (list string),
    foldl (λ m appId, <[appId := _getAppDependencies tbl appId]> m) m ids !! id
    = if decide (id ∈ ids) then Some (_getAppDependencies tbl id) else m !! id) as H.
  { induction ids as [|a ids IH]; intros m.
    - by rewrite decide_False by set_solver.
    - cbn [foldl]. rewrite IH. destruct (decide (id = a)) as [->|Hne].
      + rewrite lookup_insert_eq.
        repeat case_decide; by try set_solver.
      + rewrite lookup_insert_ne by done.
        repeat case_decide; by try set_solver. }
  intros Hin. rewrite H. case_decide; done.
Qed.

Lemma getAppDependencies_spec (tbl : DependencyTable) (x d : string) :
  d ∈ _getAppDependencies tbl x ↔ (x, d) ∈ tbl.
Proof.
  unfold _getAppDependencies. rewrite list_elem_of_fmap. split.
  - intros ([a b] & -> & [Ha Hin]%list_elem_of_filter). simpl in *. by subst.
  - intros Hin. exists (x, d). split; [done|]. by apply list_elem_of_filter.
Qed.
End sort_soundness.

Section dependency_order.
Import UpdateAnalyzer TopoSpec TopoExamples.

Lemma chain_acyclic : acyclic chain_ids chain_deps.
Proof.
  apply (edges_ordered_acyclic _ _ ["c"; "b"; "a"]); [compute_done|].
  intros x d (Hx & Hd & Hdin). unfold chain_ids in Hx, Hdin.
  repeat (apply elem_of_cons in Hx as [->|Hx]); [| | |by apply elem_of_nil in Hx].
  - change (d ∈ ["b"; "x"]) in Hd.
    repeat (apply elem_of_cons in Hd as [->|Hd]);
      [exists 1, 2; split_and!; [done|done|lia]|set_solver|by apply elem_of_nil in Hd].
  - change (d ∈ ["c"]) in Hd.
    repeat (apply elem_of_cons in Hd as [->|Hd]);
      [exists 0, 1; split_and!; [done|done|lia]|by apply elem_of_nil in Hd].
  - change (d ∈ @nil string) in Hd. by apply elem_of_nil in Hd.
Qed.

Lemma loop_cyclic : tc (depends_on loop_ids loop_deps) "a" "a".
Proof.
  apply tc_l with "b"; [|apply tc_once]; unfold depends_on, loop_ids.
  - split_and!; [set_solver|change ("b" ∈ ["b"]); set_solver|set_solver].
  - split_and!; [set_solver|change ("a" ∈ ["a"]); set_solver|set_solver].
Qed.

Lemma named_acyclic : acyclic named_ids named_deps.
Proof.
  intros x Hx.
  assert (∀ y d, ¬ depends_on named_ids named_deps y d) as Hfree.
  { intros y d (Hy & Hd & _). unfold named_ids in Hy.
    repeat (apply elem_of_cons in Hy as [->|Hy]);
      [by apply elem_of_nil in Hd..|by apply elem_of_nil in Hy]. }
  inversion Hx as [? ? He|? ? ? He _]; by apply Hfree in He.
Qed.

Lemma loop_named_cyclic :
  tc (depends_on loop_named_ids loop_named_deps) "a" "a".
Proof.
  apply tc_l with "b"; [|apply tc_once]; unfold depends_on, loop_named_ids.
  - split_and!; [set_solver|change ("b" ∈ ["b"]); set_solver|set_solver].
  - split_and!; [set_solver|change ("a" ∈ ["a"]); set_solver|set_solver].
Qed.

(** C7. [_topologicalSort] does not list a candidate whose id is a
    property name that its flag tables inherit, even without any cycle.
    The two candidates ['constructor', 'a'] depend on nothing, so the
    dependency graph restricted to them has no cycle; the sort returns the
    order ['a'], which lacks the candidate 'constructor', and records a
    circular dependency on it. [analyzeDependencies] hands the same order
    and conflict to its caller. *)
Theorem topological_sort_drops_inherited_name :
  acyclic named_ids named_deps ∧
  build_depMap [] named_ids = named_deps ∧
  _topologicalSort named_ids named_deps
    = Some (["a"], ["Circular dependency detected involving constructor"]) ∧
  "constructor" ∈ named_ids ∧ ("constructor" ∉ ["a"]) ∧
  analyzeDependencies [] id named_ids
    = Some {| orderedApps := ["a"];
              a_conflicts :=
                ["Circular dependency detected involving constructor"];
              warnings := [];
              dependencyMap := named_deps |}.
Proof.
  split_and!; [exact named_acyclic|done|by vm_compute|set_solver|set_solver|].
  by vm_compute.
Qed.

(** C8. With a cycle among the candidates, the order that
    [_topologicalSort] returns does not hold a candidate whose id is a
    property name that its flag tables inherit. Among the candidates
    ['a', 'b', 'toString'], 'a' and 'b' require each other, so the
    dependency graph restricted to the candidates has a cycle; the sort
    returns, with a conflict list that is not empty, but the order it
    returns is ['b', 'a']: the candidate 'toString' is missing from it. *)
Theorem topological_sort_cycle_drops_inherited_name :
  tc (depends_on loop_named_ids loop_named_deps) "a" "a" ∧
  _topologicalSort loop_named_ids loop_named_deps
    = Some (["b"; "a"],
            ["Circular dependency detected involving a";
             "Circular dependency detected involving toString"]) ∧
  "toString" ∈ loop_named_ids ∧ ("toString" ∉ ["b"; "a"]).
Proof.
  split_and!; [exact loop_named_cyclic|by vm_compute|set_solver|set_solver].
Qed.

(** X27. When no candidate id is a property name that objects inherit
    (a sys_id never is) and the dependency graph restricted to the
    candidates has no cycle, [_topologicalSort] returns an order in which
    every candidate occurs exactly once, nothing else occurs, and every
    candidate comes after each of its dependencies that is itself a
    candidate; no conflict is recorded. *)
Theorem topological_sort_acyclic_order
    (appIds : list string) (depMap : gmap string (list string)) :
  Forall (λ x, inherited x = false) appIds →
  acyclic appIds depMap →
  ∃ ord confl,
    _topologicalSort appIds depMap = Some (ord, confl) ∧
    NoDup ord ∧
    (∀ x, x ∈ ord ↔ x ∈ appIds) ∧
    (∀ x d, depends_on appIds depMap x d → before d x ord) ∧
    confl = [].
Proof.
  intros Hown Hacyc.
  destruct (topological_sort_sound_own appIds depMap Hown)
    as (ord & confl & Hrun & Hnd & Hmem & Hedge & Hconfl).
  exists ord, confl. split_and!; [done..| |].
  - intros x d He. destruct (Hedge x d He) as [?|[Htc _]]; [done|].
    destruct (Hacyc x). by eapply tc_l.
  - destruct confl as [|c confl]; [done|].
    destruct (Hconfl c) as (d & _ & Hcyc); [set_solver|]. by destruct (Hacyc d).
Qed.

Lemma topological_sort_acyclic_order_witness :
  Forall (λ x, inherited x = false) chain_ids ∧
  acyclic chain_ids chain_deps ∧
  ∃ ord confl,
    _topologicalSort chain_ids chain_deps = Some (ord, confl) ∧
    NoDup ord ∧
    (∀ x, x ∈ ord ↔ x ∈ chain_ids) ∧
    (∀ x d, depends_on chain_ids chain_deps x d → before d x ord) ∧
    confl = [].
Proof.
  assert (Forall (λ x, inherited x = false) chain_ids) as Hown
    by (repeat constructor).
  split; [exact Hown|]. split; [exact chain_acyclic|].
  exact (topological_sort_acyclic_order chain_ids chain_deps Hown chain_acyclic).
Defined.

(** X28. On every candidate list and every dependency map, cyclic or not,
    [_topologicalSort] returns (the recursion bound is never reached); the
    order it returns has no duplicates, holds candidates only, and holds
    every candidate whose id is not a property name that objects inherit;
    and when the dependency graph restricted to the candidates has a
    cycle, the conflict list it returns is not empty. *)
Theorem topological_sort_terminates
    (appIds : list string) (depMap : gmap string (list string)) :
  ∃ ord confl,
    _topologicalSort appIds depMap = Some (ord, confl) ∧
    NoDup ord ∧
    (∀ x, x ∈ ord → x ∈ appIds) ∧
    (∀ x, x ∈ appIds → inherited x = false → x ∈ ord) ∧
    ((∃ x, tc (depends_on appIds depMap) x x) → confl ≠ []).
Proof.
  destruct (topological_sort_sound appIds depMap)
    as (ord & confl & Hrun & Hnd & Hmem & Hedge & Hconfl & Hinh).
  exists ord, confl. split_and!; [done|done|..].
  - intros x Hx. by apply Hmem in Hx as [? _].
  - intros x Hx Hown. by apply Hmem.
  - intros [x Hcyc] ->.
    assert (∀ y, y ∈ appIds → y ∈ ord) as Hall.
    { intros y Hy. apply Hmem. split; [done|].
      destruct (inherited y) eqn:E; [|done].
      by apply Hinh, elem_of_nil in E. }
    apply (edges_ordered_acyclic appIds depMap ord Hnd) in Hcyc; [done|].
    intros y d He. destruct (Hedge y d) as [?|[_ Hin]]; [by apply Hall, He|done|done|].
    by apply elem_of_nil in Hin.
Qed.

(** X5. For requested ids none of which is a property name that objects
    inherit (a sys_id never is), the order computed by
    [analyzeDependencies] from the dependency table exists, holds each
    requested app once, and respects every row of the table between two
    requested apps unless a conflict was recorded. *)
Lemma analyzeDependencies_order (tbl : DependencyTable)
    (appName : string → string) (appSysIds : list string) :
  Forall (λ x, inherited x = false) appSysIds →
  ∃ a, analyzeDependencies tbl appName appSysIds = Some a ∧
    NoDup (orderedApps a) ∧
    (∀ x, x ∈ orderedApps a ↔ x ∈ appSysIds) ∧
    (a_conflicts a = [] →
     ∀ x d, (x, d) ∈ tbl → x ∈ appSysIds → d ∈ appSysIds →
            before d x (orderedApps a)).
Proof.
  intros Hown.
  destruct (topological_sort_sound_own appSysIds (build_depMap tbl appSysIds) Hown)
    as (ord & confl & Hrun & Hnd & Hmem & Hedge & _).
  unfold analyzeDependencies. rewrite Hrun. eexists. split; [done|]. simpl.
  split_and!; [done..|].
  intros -> x d Hrow Hx Hd. destruct (Hedge x d) as [?|[_ Hin]]; [|done|].
  - split_and!; [done| |done].
    rewrite build_depMap_lookup by done. simpl.
    by apply getAppDependencies_spec.
  - by apply elem_of_nil in Hin.
Qed.
End dependency_order.

(* ===================================================================== *)
(** * JavaScript strings                                                  *)
(* ===================================================================== *)
Section javascript_strings.
Lemma drop_prefix_length p s r :
  JS.drop_prefix p s = Some r →
  String.length s = String.length p + String.length r.
Proof.
  revert s. induction p as [|a p IH]; intros [|b s]; simpl; try done.
  - by intros [= <-].
  - by intros [= <-].
  - destruct (Ascii.eqb a b); [|done]. intros H%IH. lia.
Qed.

Lemma skip_one_shorter ws s r :
  Forall (λ w, w ≠ EmptyString) ws →
  JS.skip_one ws s = Some r → String.length r < String.length s.
Proof.
  induction 1 as [|w ws Hw _ IH]; simpl; [done|].
  destruct (JS.drop_prefix w s) as [r'|] eqn:Hd; [|done].
  intros [= <-]. apply drop_prefix_length in Hd.
  destruct w; [done|]. simpl in Hd. lia.
Qed.

(** The bound on the number of characters to skip is never reached. *)
Lemma skip_all_done ws n s :
  Forall (λ w, w ≠ EmptyString) ws → String.length s ≤ n →
  JS.skip_one ws (JS.skip_all ws n s) = None.
Proof.
  intros Hws. revert s. induction n as [|n IH]; intros s Hn; simpl.
  - destruct s; [|simpl in Hn; lia].
    induction Hws as [|[|a w] ws Hw _ IH]; simpl; done.
  - destruct (JS.skip_one ws s) as [r|] eqn:Hs; [|done].
    apply IH. apply (skip_one_shorter _ _ _ Hws) in Hs. lia.
Qed.

Lemma rev_app_length s1 s2 :
  String.length (String.rev_app s1 s2) = String.length s1 + String.length s2.
Proof.
  revert s2. induction s1 as [|a s1 IH]; intros s2; simpl; [done|].
  rewrite IH. simpl. lia.
Qed.

Lemma rev_app_rev_app s1 s2 s3 :
  String.rev_app (String.rev_app s1 s2) s3
  = String.rev_app s2 (s1 +:+ s3).
Proof.
  revert s2 s3. induction s1 as [|a s1 IH]; intros s2 s3; simpl; [done|].
  by rewrite IH.
Qed.

Lemma rev_involutive s : String.rev (String.rev s) = s.
Proof.
  unfold String.rev. rewrite rev_app_rev_app. cbn [String.rev_app].
  induction s as [|a s IH]; [done|].
  change (String a (s +:+ EmptyString) = String a s). by f_equal.
Qed.

Lemma white_space_nonempty :
  Forall (λ w, w ≠ EmptyString) JS.white_space ∧
  Forall (λ w, w ≠ EmptyString) (String.rev <$> JS.white_space).
Proof. split; vm_compute; repeat constructor; discriminate. Qed.

(** What [trim] returns starts with no white space, and read backwards
    from its end it starts with none either. *)
Lemma trim_start_done s : JS.skip_one JS.white_space (JS.trim_start s) = None.
Proof. apply skip_all_done; [apply white_space_nonempty|done]. Qed.

Lemma trim_end_done s :
  JS.skip_one (String.rev <$> JS.white_space) (String.rev (JS.trim_end s)) = None.
Proof.
  unfold JS.trim_end. rewrite rev_involutive.
  apply skip_all_done; [apply white_space_nonempty|].
  unfold String.rev. rewrite rev_app_length. simpl. lia.
Qed.
End javascript_strings.

(* ===================================================================== *)
(** * Activity log numbering                                              *)
(* ===================================================================== *)
Section numbering.
Import LogSpec.

Lemma numbered_refl batchId lg s : numbered batchId lg s lg s.
Proof.
  split; [lia|]. exists []. rewrite app_nil_r, Z.sub_diag. by split_and!.
Qed.

Lemma numbered_trans batchId lg1 s1 lg2 s2 lg3 s3 :
  numbered batchId lg1 s1 lg2 s2 → numbered batchId lg2 s2 lg3 s3 →
  numbered batchId lg1 s1 lg3 s3.
Proof.
  intros [Hle1 (es1 & Hl1 & Hs1 & Hb1)] [Hle2 (es2 & Hl2 & Hs2 & Hb2)].
  split; [lia|]. exists (es1 ++ es2). split_and!.
  - by rewrite Hl2, Hl1, app_assoc.
  - rewrite fmap_app, Hs1, Hs2.
    replace (lg3 - lg1)%Z with ((lg2 - lg1) + (lg3 - lg2))%Z by lia.
    rewrite seqZ_app by lia. do 2 f_equal. lia.
  - by apply Forall_app.
Qed.

Lemma numbered_log lg s batchId item ty ph msg opts :
  numbered batchId lg s (ActivityLogger.log lg s batchId item ty ph msg opts).1
    (ActivityLogger.log lg s batchId item ty ph msg opts).2.
Proof.
  split; simpl; [lia|]. eexists [_]. split_and!; [done| |by repeat constructor].
  replace (lg + 1 - lg)%Z with 1%Z by lia. reflexivity.
Qed.

Lemma numbered_insert_log batchId lg s0 s mk :
  Store.activity_log s = Store.activity_log s0 →
  (∀ id, ActivityLog.sequence (mk id) = (lg + 1)%Z) →
  (∀ id, ActivityLog.batch_request (mk id) = batchId) →
  numbered batchId lg s0 (lg + 1)%Z (Store.insert_log mk s).
Proof.
  intros Hl Hs Hb. split; [lia|]. eexists [_]. simpl. rewrite Hl.
  split_and!; [done| |by repeat constructor].
  replace (lg + 1 - lg)%Z with 1%Z by lia. by rewrite Hs.
Qed.

Lemma numbered_same_log batchId lg s s' :
  Store.activity_log s' = Store.activity_log s → numbered batchId lg s lg s'.
Proof.
  intros H. split; [lia|]. exists [].
  rewrite app_nil_r, Z.sub_diag. by split_and!.
Qed.

Lemma numbered_one batchId lg s s' e :
  Store.activity_log s' = Store.activity_log s ++ [e] →
  ActivityLog.sequence e = (lg + 1)%Z →
  ActivityLog.batch_request e = batchId →
  numbered batchId lg s (lg + 1)%Z s'.
Proof.
  intros Hl Hs Hb. split; [lia|]. exists [e].
  split_and!; [done| |by repeat constructor].
  replace (lg + 1 - lg)%Z with 1%Z by lia. by rewrite fmap_cons, Hs.
Qed.

Lemma numbered_two batchId lg s s' e1 e2 :
  Store.activity_log s' = (Store.activity_log s ++ [e1]) ++ [e2] →
  ActivityLog.sequence e1 = (lg + 1)%Z →
  ActivityLog.sequence e2 = (lg + 1 + 1)%Z →
  ActivityLog.batch_request e1 = batchId →
  ActivityLog.batch_request e2 = batchId →
  numbered batchId lg s (lg + 1 + 1)%Z s'.
Proof.
  intros Hl Hs1 Hs2 Hb1 Hb2. split; [lia|]. exists [e1; e2].
  split_and!; [by rewrite Hl, <- app_assoc| |by repeat constructor].
  replace (lg + 1 + 1 - lg)%Z with 2%Z by lia.
  rewrite !fmap_cons, Hs1, Hs2.
  rewrite seqZ_cons by lia. rewrite seqZ_cons by lia. cbn.
  by rewrite seqZ_nil by lia.
Qed.
End numbering.

(* ===================================================================== *)
(** * Batch Orchestrator                                                  *)
(* ===================================================================== *)
Section orchestrator.
Import BatchUpdateManager CreateSpec.

Lemma split_nonempty (c : ascii) (s : string) : JS.split c s ≠ [].
Proof.
  destruct s as [|a s]; simpl; [done|].
  destruct (Ascii.eqb a c); [done|]. by destruct (JS.split c s).
Qed.

Lemma update_rows_batch_requests rows f s :
  Store.batch_requests (update_rows rows f s) = Store.batch_requests s.
Proof.
  unfold update_rows. revert s.
  induction rows as [|r rows IH]; intros s; simpl; [done|]. by rewrite IH.
Qed.

Lemma update_rows_activity_log rows f s :
  Store.activity_log (update_rows rows f s) = Store.activity_log s.
Proof.
  unfold update_rows. revert s.
  induction rows as [|r rows IH]; intros s; simpl; [done|]. by rewrite IH.
Qed.

Lemma update_rows_next_sys_id rows f s :
  Store.next_sys_id (update_rows rows f s) = Store.next_sys_id s.
Proof.
  unfold update_rows. revert s.
  induction rows as [|r rows IH]; intros s; simpl; [done|]. by rewrite IH.
Qed.

(** What the loop of [_createBatchItems] adds to the store. *)
Lemma create_items_loop_spec pf batchId ids :
  ∀ order s,
    let s' := create_items_loop pf batchId ids order s in
    Store.batch_requests s' = Store.batch_requests s ∧
    Store.activity_log s' = Store.activity_log s ∧
    ∃ new,
      Store.batch_items s' = Store.batch_items s ++ new ∧
      BatchItem.app_version <$> new = filter (resolves pf) (JS.trim <$> ids) ∧
      Forall (λ it, BatchItem.batch_request it = batchId ∧
                    BatchItem.state it = queued) new.
Proof.
  induction ids as [|raw ids IH]; intros order s; simpl.
  - split_and!; [done..|]. exists []. by rewrite app_nil_r.
  - destruct (JS.truthy (JS.trim raw)) eqn:Ht; simpl.
    + destruct (sys_app_version pf !! JS.trim raw) as [ver|] eqn:Hv.
      * destruct (IH (order + 100)%Z
          (Store.insert_item (new_item pf batchId (JS.trim raw) ver order) s))
          as (Hb & Hl & new & Hnew & Hids & Hall).
        split_and!; [done..|].
        eexists (_ :: new). split_and!.
        -- rewrite Hnew. simpl. by rewrite <- app_assoc.
        -- rewrite filter_cons_True by (split; [done|by rewrite Hv]).
           by rewrite fmap_cons, Hids.
        -- by constructor.
      * destruct (IH order s) as (Hb & Hl & new & Hnew & Hids & Hall).
        split_and!; [done..|]. exists new. split_and!; [done| |done].
        rewrite filter_cons_False; [done|].
        intros [_ [? ?]]. congruence.
    + destruct (IH order s) as (Hb & Hl & new & Hnew & Hids & Hall).
      split_and!; [done..|]. exists new. split_and!; [done| |done].
      rewrite filter_cons_False; [done|]. intros [? _]. congruence.
Qed.

Lemma filter_length_lt {A} (P : A → Prop) `{!∀ x, Decision (P x)}
    (l : list A) (x : A) :
  x ∈ l → ¬ P x → length (filter P l) < length l.
Proof.
  induction l as [|y l IH]; intros Hin Hx; [by apply elem_of_nil in Hin|].
  apply elem_of_cons in Hin as [->|Hin].
  - rewrite filter_cons_False by done. simpl.
    pose proof (length_filter P l). lia.
  - specialize (IH Hin Hx). destruct (decide (P y)).
    + rewrite filter_cons_True by done. simpl. lia.
    + rewrite filter_cons_False by done. simpl. lia.
Qed.

(** [createBatchRequest] on any input: it never refuses, and this is what
    it writes. *)
Lemma createBatchRequest_spec pf lg s input options :
  let total := Z.of_nat (length (JS.split "," input)) in
  ∃ s' new e1 e2 b,
    createBatchRequest pf lg s input options
    = ({| success := true; message := "Batch request created successfully";
          batchRequestId := Some (Store.fresh s); totalApps := Some total;
          progressWorkerId := None |}, (lg + 1 + 1)%Z, s') ∧
    Store.batch_items s' = Store.batch_items s ++ new ∧
    BatchItem.app_version <$> new
      = filter (resolves pf) (JS.trim <$> JS.split "," input) ∧
    Forall (λ it, BatchItem.batch_request it = Store.fresh s ∧
                  BatchItem.state it = queued) new ∧
    Store.activity_log s' = Store.activity_log s ++ [e1; e2] ∧
    (ActivityLog.activity_type e1 = start ∧
     ActivityLog.sequence e1 = (lg + 1)%Z ∧
     ActivityLog.batch_request e1 = Store.fresh s) ∧
    (ActivityLog.activity_type e2 = info ∧
     ActivityLog.sequence e2 = (lg + 1 + 1)%Z ∧
     ActivityLog.batch_request e2 = Store.fresh s) ∧
    Store.batch_requests s' !! Store.fresh s = Some b ∧
    BatchRequest.total_apps b = total ∧
    BatchRequest.state b
      = match ActivityLogger.if_truthy (scheduledStart options) with
        | Some _ => scheduled
        | None => draft
        end ∧
    BatchRequest.overall_progress b = 0%Z ∧
    (∀ id, id ≠ Store.fresh s →
       Store.batch_requests s' !! id = Store.batch_requests s !! id).
Proof.
  intros total. unfold createBatchRequest.
  rewrite bool_decide_eq_false_2
    by (pose proof (split_nonempty "," input); by destruct (JS.split "," input)).
  fold total. unfold Store.insert_batch, ActivityLogger.log, _createBatchItems.
  cbv zeta beta iota.
  match goal with |- context [create_items_loop pf ?b ?ids ?o ?st] =>
    destruct (create_items_loop_spec pf b ids o st) as (Hb & Hl & new & Hnew & Hids & Hall);
    set (s1 := create_items_loop pf b ids o st) in *
  end.
  cbn [negb]. cbv iota.
  eexists _, new, _, _, _. split; [reflexivity|].
  unfold Store.update_batch, Store.insert_log. cbn [Store.batch_items Store.activity_log Store.batch_requests].
  split_and!;
    [by rewrite Hnew|done|done|rewrite Hl; cbn; by rewrite <- app_assoc|..];
    try reflexivity.
  - rewrite Hb. cbn. rewrite lookup_alter_eq, lookup_insert_eq. reflexivity.
  - reflexivity.
  - reflexivity.
  - reflexivity.
  - intros id Hne. rewrite Hb. cbn.
    by rewrite lookup_alter_ne, lookup_insert_ne.
Qed.

(** The REST resource refuses an empty [appVersionSysIds] before any
    manager is created. *)
Lemma postBatchInstall_empty pf run s req :
  UpdateCenterAPI.appVersionSysIds req = EmptyString →
  UpdateCenterAPI.postBatchInstall pf run s req
  = ({| UpdateCenterAPI.status := 400; UpdateCenterAPI.body := None;
        UpdateCenterAPI.execution := None |}, s).
Proof. intros H. unfold UpdateCenterAPI.postBatchInstall. by rewrite H. Qed.

(** C9. [createBatchRequest] does not refuse an empty candidate set: the
    array that [split] returns is never empty, so the test
    [sysIds.length === 0] never holds. Called with the empty string it
    answers success, inserts a batch request whose [total_apps] is 1,
    creates no item and writes two log entries. Through the REST resource
    the same happens for an input made of separators only: the answer is
    201 and a batch without items is created and started. *)
Theorem createBatchRequest_accepts_empty_candidates :
  (∀ pf lg s options,
     ∃ s' e1 e2 b,
       createBatchRequest pf lg s EmptyString options
       = ({| success := true; message := "Batch request created successfully";
             batchRequestId := Some (Store.fresh s); totalApps := Some 1%Z;
             progressWorkerId := None |}, (lg + 1 + 1)%Z, s') ∧
       Store.batch_requests s' !! Store.fresh s = Some b ∧
       BatchRequest.total_apps b = 1%Z ∧
       Store.batch_items s' = Store.batch_items s ∧
       Store.activity_log s' = Store.activity_log s ++ [e1; e2]) ∧
  (∀ pf lg s input options,
     message (createBatchRequest pf lg s input options).1.1
     ≠ "No applications selected") ∧
  (let '(resp, s') :=
     UpdateCenterAPI.postBatchInstall demo_platform demo_runner Store.empty
       {| UpdateCenterAPI.appVersionSysIds := ",";
          UpdateCenterAPI.execute := true;
          UpdateCenterAPI.body_options := no_create_options |} in
   UpdateCenterAPI.status resp = 201%Z ∧
   Store.batch_items s' = [] ∧
   (BatchRequest.state <$> Store.batch_requests s' !! "0") = Some in_progress ∧
   (BatchRequest.total_apps <$> Store.batch_requests s' !! "0") = Some 2%Z).
Proof.
  split_and!.
  - intros pf lg s options.
    destruct (createBatchRequest_spec pf lg s EmptyString options)
      as (s' & new & e1 & e2 & b & Hrun & Hitems & Hids & _ & Hlog & _ & _ &
          Hb & Htot & _).
    exists s', e1, e2, b. split_and!; [done..| |done].
    destruct new; [by rewrite Hitems, app_nil_r|done].
  - intros pf lg s input options.
    destruct (createBatchRequest_spec pf lg s input options)
      as (s' & new & e1 & e2 & b & -> & _). done.
  - by vm_compute.
Qed.

(** C10. When one of the submitted identifiers does not resolve, be it
    blank or unknown, [createBatchRequest] still answers success;
    [total_apps] and [totalApps] count every submitted identifier; the items
    created are those of the identifiers that resolve, in order, so there
    are strictly fewer items than [total_apps]; and the two log entries
    written are neither errors nor warnings. *)
Theorem createBatchRequest_skips_unresolvable pf lg s input options x :
  x ∈ JS.split "," input → ¬ resolves pf (JS.trim x) →
  ∃ r lg' s' new b,
    createBatchRequest pf lg s input options = (r, lg', s') ∧
    success r = true ∧
    totalApps r = Some (Z.of_nat (length (JS.split "," input))) ∧
    Store.batch_requests s' !! Store.fresh s = Some b ∧
    BatchRequest.total_apps b = Z.of_nat (length (JS.split "," input)) ∧
    Store.batch_items s' = Store.batch_items s ++ new ∧
    BatchItem.app_version <$> new
      = filter (resolves pf) (JS.trim <$> JS.split "," input) ∧
    Forall (λ it, resolves pf (BatchItem.app_version it)) new ∧
    (Z.of_nat (length new) < BatchRequest.total_apps b)%Z ∧
    ∃ e1 e2,
      Store.activity_log s' = Store.activity_log s ++ [e1; e2] ∧
      ActivityLog.activity_type e1 = start ∧
      ActivityLog.activity_type e2 = info.
Proof.
  intros Hx Hbad.
  destruct (createBatchRequest_spec pf lg s input options)
    as (s' & new & e1 & e2 & b & Hrun & Hitems & Hids & _ & Hlog &
        (Ht1 & _) & (Ht2 & _) & Hb & Htot & _).
  eexists _, _, s', new, b. split; [exact Hrun|].
  split_and!; [done..| | |by exists e1, e2].
  - apply Forall_forall. intros it Hit.
    apply (list_elem_of_fmap_2 BatchItem.app_version) in Hit.
    rewrite Hids in Hit. by apply list_elem_of_filter in Hit as [? _].
  - rewrite Htot. apply inj_lt.
    rewrite <- (length_fmap BatchItem.app_version), Hids.
    rewrite <- (length_fmap JS.trim (JS.split "," input)).
    apply (filter_length_lt _ _ (JS.trim x)); [|done].
    by apply list_elem_of_fmap_2.
Qed.

Lemma createBatchRequest_skips_unresolvable_witness :
  ∃ r lg' s' new b,
    createBatchRequest demo_platform ActivityLogger.initialize Store.empty
      spaced_input no_create_options = (r, lg', s') ∧
    success r = true ∧
    totalApps r = Some 4%Z ∧
    Store.batch_requests s' !! "0" = Some b ∧
    BatchRequest.total_apps b = 4%Z ∧
    Store.batch_items s' = new ∧
    BatchItem.app_version <$> new = ["v1"; "v2"] ∧
    (Z.of_nat (length new) < BatchRequest.total_apps b)%Z.
Proof.
  destruct (createBatchRequest_skips_unresolvable demo_platform
              ActivityLogger.initialize Store.empty spaced_input
              no_create_options "zz")
    as (r & lg' & s' & new & b & Hrun & Hok & Htot & Hb & Hbt & Hitems &
        Hids & _ & Hlt & _).
  - vm_compute. set_solver.
  - intros [_ [ver Hver]]. vm_compute in Hver. discriminate.
  - exists r, lg', s', new, b.
    split_and!; [exact Hrun|exact Hok|exact Htot|exact Hb|exact Hbt|
                 exact Hitems| |exact Hlt].
    rewrite Hids. vm_compute. reflexivity.
Defined.

(** [executeBatchInstall] on an existing batch request. *)
Lemma executeBatchInstall_spec pf run lg s id b :
  Store.batch_requests s !! id = Some b →
  (BatchRequest.state b = in_progress →
     executeBatchInstall pf run lg s id
     = (failure "Batch is already running" None, lg, s)) ∧
  (BatchRequest.state b ≠ in_progress →
     ∃ r lg' s' b' apps,
       executeBatchInstall pf run lg s id = (r, lg', s') ∧
       Store.batch_requests s' !! id = Some b' ∧
       BatchRequest.state b'
         = match run apps with
           | flow_outputs _ _ => in_progress
           | flow_throws _ => failed
           end ∧
       success r = match run apps with
                   | flow_outputs _ _ => true
                   | flow_throws _ => false
                   end ∧
       BatchRequest.overall_progress b' = BatchRequest.overall_progress b ∧
       LogSpec.numbered id lg s lg' s').
Proof.
  intros Hb. unfold executeBatchInstall. rewrite Hb. split; intros Hst.
  - by rewrite bool_decide_eq_true_2.
  - rewrite bool_decide_eq_false_2 by done.
    unfold ActivityLogger.log. cbv zeta beta iota.
    match goal with |- context [run ?a] => set (apps := a) end.
    destruct (run apps) as [progressId statusMessage|errorMsg] eqn:Hrun.
    + eexists _, _, _, _, apps. split; [reflexivity|]. rewrite Hrun.
      unfold Store.update_batch, Store.insert_log, _markAllItemsInstalling.
      cbn [Store.batch_requests Store.activity_log].
      rewrite update_rows_batch_requests. cbn [Store.batch_requests].
      split_and!.
      * rewrite !lookup_alter_eq, Hb. reflexivity.
      * reflexivity.
      * reflexivity.
      * reflexivity.
      * eapply numbered_two;
          [cbn -[update_rows]; rewrite update_rows_activity_log; reflexivity|..];
          reflexivity.
    + eexists _, _, _, _, apps. split; [reflexivity|]. rewrite Hrun.
      unfold Store.update_batch, Store.insert_log, _markAllItemsInstalling.
      cbn [Store.batch_requests Store.activity_log].
      rewrite update_rows_batch_requests. cbn [Store.batch_requests].
      split_and!.
      * rewrite !lookup_alter_eq, Hb. reflexivity.
      * reflexivity.
      * reflexivity.
      * reflexivity.
      * eapply numbered_two;
          [cbn -[update_rows]; rewrite update_rows_activity_log; reflexivity|..];
          reflexivity.
Qed.

Lemma executeBatchInstall_numbered pf run lg s id :
  LogSpec.numbered id lg s (executeBatchInstall pf run lg s id).1.2
    (executeBatchInstall pf run lg s id).2.
Proof.
  destruct (Store.batch_requests s !! id) as [b|] eqn:Hb.
  - destruct (executeBatchInstall_spec pf run lg s id b Hb) as [H1 H2].
    destruct (decide (BatchRequest.state b = in_progress)) as [Hst|Hst].
    + rewrite (H1 Hst). apply numbered_refl.
    + destruct (H2 Hst) as (r & lg' & s' & b' & apps & -> & _ & _ & _ & _ & Hn).
      exact Hn.
  - unfold executeBatchInstall. rewrite Hb. apply numbered_refl.
Qed.

(** [cancelBatchInstall] on an existing batch request. *)
Lemma cancelBatchInstall_spec pf lg s id b :
  Store.batch_requests s !! id = Some b →
  ∃ r lg' s' b',
    cancelBatchInstall pf lg s id = (r, lg', s') ∧
    success r = true ∧
    Store.batch_requests s' !! id = Some b' ∧
    BatchRequest.state b' = cancelled ∧
    LogSpec.numbered id lg s lg' s'.
Proof.
  intros Hb. unfold cancelBatchInstall. rewrite Hb.
  unfold ActivityLogger.log. cbv zeta beta iota.
  eexists _, _, _, _. split; [reflexivity|].
  unfold Store.update_batch, Store.insert_log, _updateQueuedItemsState.
  cbn [Store.batch_requests Store.activity_log].
  rewrite update_rows_batch_requests. cbn [Store.batch_requests].
  split_and!.
  - reflexivity.
  - rewrite lookup_alter_eq, Hb. reflexivity.
  - reflexivity.
  - eapply numbered_one;
      [cbn -[update_rows]; rewrite update_rows_activity_log; reflexivity|..];
      reflexivity.
Qed.

Lemma cancelBatchInstall_numbered pf lg s id :
  LogSpec.numbered id lg s (cancelBatchInstall pf lg s id).1.2
    (cancelBatchInstall pf lg s id).2.
Proof.
  destruct (Store.batch_requests s !! id) as [b|] eqn:Hb.
  - destruct (cancelBatchInstall_spec pf lg s id b Hb)
      as (r & lg' & s' & b' & -> & _ & _ & _ & Hn). exact Hn.
  - unfold cancelBatchInstall. rewrite Hb. apply numbered_refl.
Qed.

Lemma createBatchRequest_numbered pf lg s input options :
  LogSpec.numbered (Store.fresh s) lg s
    (createBatchRequest pf lg s input options).1.2
    (createBatchRequest pf lg s input options).2.
Proof.
  destruct (createBatchRequest_spec pf lg s input options)
    as (s' & new & e1 & e2 & b & -> & _ & _ & _ & Hlog & (_ & Hs1 & Hb1) &
        (_ & Hs2 & Hb2) & _).
  simpl. eapply numbered_two; [|done..]. by rewrite Hlog, <- app_assoc.
Qed.
End orchestrator.

(* ===================================================================== *)
(** * Progress Reconciler: what each step of the script preserves         *)
(* ===================================================================== *)
Section monitor_steps.
Import MonitorProgress MonitorSpec LogSpec.

Lemma items_only_refl m : items_only m m.
Proof. by split. Qed.

Lemma items_only_trans m1 m2 m3 :
  items_only m1 m2 → items_only m2 m3 → items_only m1 m3.
Proof. intros [] []. split; congruence. Qed.

Lemma script_step_refl m : script_step m m.
Proof. split; [done..|apply numbered_refl]. Qed.

Lemma script_step_trans m1 m2 m3 :
  script_step m1 m2 → script_step m2 m3 → script_step m1 m3.
Proof.
  intros [Hi1 Ht1 Hb1 Hl1 Hn1] [Hi2 Ht2 Hb2 Hl2 Hn2].
  split; [congruence|congruence| |congruence|].
  - intros id. by rewrite Hb2.
  - rewrite Hi1 in Hn2. by eapply numbered_trans.
Qed.

Lemma items_only_script_step m m' : items_only m m' → script_step m m'.
Proof.
  intros []. split; [done|done| |done|].
  - intros id. by rewrite io_batch_requests0.
  - rewrite io_logger0. by apply numbered_same_log.
Qed.

Lemma log_script_step ty ph msg opts m : script_step m (log ty ph msg opts m).
Proof.
  split; [done|done|done|done|].
  apply (numbered_log (logger m) (store m) (batchRequestId m) None ty ph msg opts).
Qed.

Lemma update_item_items_only m i f :
  items_only m (with_store (logger m) (Store.update_item i f (store m)) m).
Proof. split; try done. simpl. apply length_alter. Qed.

Lemma with_counters_items_only m c f : items_only m (with_counters c f m).
Proof. by split. Qed.

Lemma estimate_row_items_only now msg p total index idx row m :
  items_only m (estimate_row now msg p total index idx row m).
Proof.
  unfold estimate_row. destruct (idx <? index)%Z.
  - eapply items_only_trans; [apply update_item_items_only|].
    apply with_counters_items_only.
  - destruct (idx =? index)%Z; [apply update_item_items_only|].
    apply items_only_refl.
Qed.

Lemma estimate_rows_items_only now msg p total index rows :
  ∀ idx m, items_only m (estimate_rows now msg p total index idx rows m).
Proof.
  induction rows as [|row rows IH]; intros idx m; simpl.
  - apply items_only_refl.
  - eapply items_only_trans; [apply estimate_row_items_only|apply IH].
Qed.

Lemma parseAndUpdateItems_items_only now msg p m :
  items_only m (_parseAndUpdateItems now msg p m).
Proof.
  unfold _parseAndUpdateItems.
  destruct (0 <? _)%Z; [apply estimate_rows_items_only|apply items_only_refl].
Qed.

Lemma updateBatchProgress_script_step p m :
  script_step m (_updateBatchProgress p m).
Proof.
  split; [done|done| |done|by apply numbered_same_log].
  intros id. simpl. by rewrite lookup_alter_is_Some.
Qed.

Lemma with_last_script_step msg p m : script_step m (with_last msg p m).
Proof. split; [done..|apply numbered_refl]. Qed.

Lemma with_pollCount_script_step n m : script_step m (with_pollCount n m).
Proof. split; [done..|apply numbered_refl]. Qed.

Lemma sync_row_script_step now inv row m :
  script_step m (sync_row now inv row m).
Proof.
  unfold sync_row. destruct (_ ≫= _) as [app|]; [|apply script_step_refl].
  case_bool_decide.
  - case_bool_decide; simpl; [apply script_step_refl|].
    split; simpl; [done|done|done|apply length_alter|].
    by apply numbered_insert_log.
  - case_bool_decide; [|apply script_step_refl].
    split; simpl; [done|done|done|apply length_alter|].
    by apply numbered_insert_log.
Qed.

Lemma sync_rows_script_step now inv rows :
  ∀ m, script_step m (foldl (λ m row, sync_row now inv row m) m rows).
Proof.
  induction rows as [|row rows IH]; intros m; simpl.
  - apply script_step_refl.
  - eapply script_step_trans; [apply sync_row_script_step|apply IH].
Qed.

Lemma syncFinalItemStates_script_step now inv m :
  script_step m (_syncFinalItemStates now inv m).
Proof. apply sync_rows_script_step. Qed.

Lemma finalizeBatch_script_step now st msg m :
  script_step m (_finalizeBatch now st msg m).
Proof.
  unfold _finalizeBatch. split; simpl; [done|done| |done|].
  - intros id. by rewrite lookup_alter_is_Some.
  - by apply numbered_insert_log.
Qed.

Lemma poll_script_step o m : script_step m (poll o m).1.
Proof.
  unfold poll.
  assert (Hpc := with_pollCount_script_step (pollCount m + 1) m).
  set (m1 := with_pollCount (pollCount m + 1) m) in *.
  destruct (MAX_POLL_TIME_MS <? _)%Z; cbn [fst].
  { eapply script_step_trans; [exact Hpc|].
    eapply script_step_trans; [apply log_script_step|].
    apply finalizeBatch_script_step. }
  destruct (obs_worker o) as [pw|].
  2: { destruct (20 <? pollCount m1)%Z; cbn [fst]; [|exact Hpc].
       eapply script_step_trans; [exact Hpc|].
       eapply script_step_trans; [apply log_script_step|].
       apply finalizeBatch_script_step. }
  cbv zeta.
  set (m2 := if negb (bool_decide (pw_message pw = lastMessage m1)) then _ else m1).
  assert (script_step m m2) as H2.
  { eapply script_step_trans; [exact Hpc|]. subst m2.
    destruct (negb _); [|apply script_step_refl].
    eapply script_step_trans; [apply log_script_step|].
    eapply script_step_trans; [apply with_last_script_step|].
    apply items_only_script_step, parseAndUpdateItems_items_only. }
  set (m3 := if _ && _ && _ then _ else m2).
  assert (script_step m m3) as H3.
  { eapply script_step_trans; [exact H2|]. subst m3.
    destruct (_ && _ && _); [|apply script_step_refl].
    eapply script_step_trans; [apply updateBatchProgress_script_step|].
    apply with_last_script_step. }
  destruct (_ || _ || _); cbn [fst]; [|exact H3].
  eapply script_step_trans; [exact H3|].
  eapply script_step_trans; [|apply finalizeBatch_script_step].
  eapply script_step_trans; [|apply syncFinalItemStates_script_step].
  destruct (JS.truthy _); [apply log_script_step|apply script_step_refl].
Qed.

Lemma poll_trace_script_step obs :
  ∀ m m', m' ∈ poll_trace obs m → script_step m m'.
Proof.
  induction obs as [|o obs IH]; intros m m' Hin; simpl in Hin.
  - by apply elem_of_nil in Hin.
  - pose proof (poll_script_step o m) as Hs.
    destruct (poll o m) as [m1 stop]. simpl in Hs. destruct stop.
    + by apply list_elem_of_singleton in Hin as ->.
    + apply elem_of_cons in Hin as [->|Hin]; [done|].
      eapply script_step_trans; [exact Hs|by apply IH].
Qed.

Lemma last_elem_of {A} (l : list A) (d : A) : l ≠ [] → List.last l d ∈ l.
Proof.
  induction l as [|x [|y l] IH]; intros Hne; [done|simpl; set_solver|].
  apply elem_of_cons. right. apply IH. done.
Qed.

Lemma execute_script_step s id pw start obs :
  script_step (init s id pw start) (execute s id pw start obs).
Proof.
  unfold execute. set (m0 := init s id pw start).
  destruct (poll_trace obs m0) as [|m1 tr] eqn:Htr; [apply script_step_refl|].
  apply (poll_trace_script_step obs). rewrite Htr. by apply last_elem_of.
Qed.
End monitor_steps.

(* ===================================================================== *)
(** * Progress Reconciler: finalization, timeout and progress milestones  *)
(* ===================================================================== *)
Section reconciler.
Import MonitorProgress MonitorSpec LogSpec.

(** What [_finalizeBatch] writes on the batch request. *)
Lemma finalizeBatch_batch now st msg m b :
  Store.batch_requests (store m) !! batchRequestId m = Some b →
  let rows := Store.query_items
                (BatchUpdateManager.of_batch (batchRequestId m)) (store m) in
  let nfailed := count_state item_failed rows in
  let ncompleted := count_state item_completed rows in
  let final := if (0 <? nfailed)%Z && (0 <? ncompleted)%Z then partial else st in
  ∃ b' e,
    Store.batch_requests (store (_finalizeBatch now st msg m)) !! batchRequestId m
      = Some b' ∧
    BatchRequest.state b' = final ∧
    BatchRequest.overall_progress b' = 100%Z ∧
    BatchRequest.completed_apps b' = ncompleted ∧
    BatchRequest.failed_apps b' = nfailed ∧
    BatchRequest.error_summary b'
      = (if (0 <? nfailed)%Z
         then Some (pretty nfailed +:+ " app(s) failed to install")
         else BatchRequest.error_summary b) ∧
    outputs (_finalizeBatch now st msg m) = Some (final, msg) ∧
    Store.activity_log (store (_finalizeBatch now st msg m))
      = Store.activity_log (store m) ++ [e] ∧
    ActivityLog.phase e = cleanup.
Proof.
  intros Hb rows nfailed ncompleted final.
  unfold _finalizeBatch. fold rows. fold nfailed. fold ncompleted. fold final.
  cbn -[pretty]. rewrite lookup_alter_eq, Hb. cbn -[pretty].
  eexists _, _. split; [reflexivity|].
  split_and!; try reflexivity; destruct (0 <? nfailed)%Z; reflexivity.
Qed.

(** C3 (as the design document states it) fails on the error summary: a
    batch that is being installed, whose monitor times out, ends [failed]
    with an empty [error_summary]; the cause is in the flow output and in
    the log only. *)
Lemma timeout_cause_not_in_error_summary :
  let o := {| obs_now := 2000 + MAX_POLL_TIME_MS + 1;
              obs_worker := Some (Scenario.worker "running" "Installing" 40);
              obs_store_app := ∅ |} in
  let m' := (poll o Scenario.monitor0).1 in
  state_of Scenario.monitor0 = Some in_progress ∧
  state_of m' = Some failed ∧
  outputs m' = Some (failed, "Monitor timeout") ∧
  (BatchRequest.error_summary <$>
     Store.batch_requests (store m') !! "0") = Some None.
Proof. by vm_compute. Qed.

(** C3, amended. When the elapsed time exceeds the two-hour maximum, the
    iteration ends the loop whatever the progress worker shows. The batch
    request is not left [in_progress]: it ends [failed], or [partial] when
    its items include both a completed and a failed one. The timeout is
    recorded by a warning entry of the activity log and by the [summary]
    output of the flow. The [error_summary] of the batch request does not
    receive it: it is set to the number of failed items when there is one
    and is left as it was otherwise. *)
Theorem poll_timeout o m b :
  (MAX_POLL_TIME_MS < obs_now o - startTime m)%Z →
  Store.batch_requests (store m) !! batchRequestId m = Some b →
  let rows := Store.query_items
                (BatchUpdateManager.of_batch (batchRequestId m)) (store m) in
  let nfailed := count_state item_failed rows in
  let ncompleted := count_state item_completed rows in
  ∃ m' b' e1 e2,
    poll o m = (m', true) ∧
    Store.batch_requests (store m') !! batchRequestId m = Some b' ∧
    BatchRequest.state b'
      = (if (0 <? nfailed)%Z && (0 <? ncompleted)%Z then partial else failed) ∧
    BatchRequest.state b' ≠ in_progress ∧
    outputs m' = Some (BatchRequest.state b', "Monitor timeout") ∧
    BatchRequest.error_summary b'
      = (if (0 <? nfailed)%Z
         then Some (pretty nfailed +:+ " app(s) failed to install")
         else BatchRequest.error_summary b) ∧
    Store.activity_log (store m') = Store.activity_log (store m) ++ [e1; e2] ∧
    ActivityLog.activity_type e1 = warning ∧
    ActivityLog.message e1 = "Progress monitor timed out after 2 hours" ∧
    ActivityLog.batch_request e1 = batchRequestId m.
Proof.
  intros Hlate Hb rows nfailed ncompleted. unfold poll. cbv zeta.
  change (startTime (with_pollCount (pollCount m + 1) m)) with (startTime m).
  apply Z.ltb_lt in Hlate. rewrite Hlate.
  set (mx := log warning installation _ _ _).
  destruct (finalizeBatch_batch (obs_now o) failed "Monitor timeout" mx b Hb)
    as (b' & e2 & Hb' & Hst & _ & _ & _ & Hsum & Hout & Hlog & _).
  change (Store.query_items _ (store mx)) with rows in Hst, Hsum, Hout.
  fold nfailed ncompleted in Hst, Hsum, Hout.
  eexists _, b', _, e2. split; [reflexivity|].
  split_and!; [exact Hb'|exact Hst| |by rewrite Hst|exact Hsum| |..].
  - rewrite Hst. by destruct (_ && _).
  - rewrite Hlog. cbn. by rewrite <- app_assoc.
  - reflexivity.
  - reflexivity.
  - reflexivity.
Qed.

Lemma poll_timeout_witness :
  ∃ m' b',
    poll {| obs_now := 2000 + MAX_POLL_TIME_MS + 1; obs_worker := None;
            obs_store_app := ∅ |} Scenario.monitor0 = (m', true) ∧
    Store.batch_requests (store m') !! "0" = Some b' ∧
    BatchRequest.state b' = failed ∧
    outputs m' = Some (failed, "Monitor timeout") ∧
    BatchRequest.error_summary b' = None.
Proof.
  destruct (Store.batch_requests (store Scenario.monitor0) !! "0")
    as [b|] eqn:Hb; [|vm_compute in Hb; discriminate].
  destruct (poll_timeout
              {| obs_now := 2000 + MAX_POLL_TIME_MS + 1; obs_worker := None;
                 obs_store_app := ∅ |} Scenario.monitor0 b)
    as (m' & b' & e1 & e2 & Hrun & Hb' & Hst & _ & Hout & Hsum & _).
  - vm_compute. reflexivity.
  - exact Hb.
  - exists m', b'. split_and!; [exact Hrun|exact Hb'| | |].
    + rewrite Hst. vm_compute. reflexivity.
    + rewrite Hout, Hst. vm_compute. reflexivity.
    + rewrite Hsum. vm_compute in Hb. injection Hb as <-. vm_compute. reflexivity.
Defined.

(** An iteration that does not end the loop leaves the batch request table
    as it was, or writes a new milestone on the monitored request. *)
Lemma poll_continue o m m' :
  poll o m = (m', false) →
  batchRequestId m' = batchRequestId m ∧
  ((Store.batch_requests (store m') = Store.batch_requests (store m) ∧
    lastPercent m' = lastPercent m) ∨
   (∃ pw, obs_worker o = Some pw ∧
      pw_percent_complete pw ≠ lastPercent m ∧
      Z.rem (pw_percent_complete pw) 10 = 0%Z ∧
      (0 < pw_percent_complete pw)%Z ∧
      lastPercent m' = pw_percent_complete pw ∧
      Store.batch_requests (store m')
      = alter (BatchRequest.set_overall_progress (pw_percent_complete pw))
          (batchRequestId m) (Store.batch_requests (store m)))).
Proof.
  unfold poll. cbv zeta.
  set (m1 := with_pollCount (pollCount m + 1) m).
  destruct (MAX_POLL_TIME_MS <? _)%Z; [discriminate|].
  destruct (obs_worker o) as [pw|].
  2: { destruct (20 <? pollCount m1)%Z; [discriminate|].
       intros [= <-]. split; [done|]. by left. }
  set (m2 := if negb (bool_decide (pw_message pw = lastMessage m1)) then _ else m1).
  assert (batchRequestId m2 = batchRequestId m ∧
          Store.batch_requests (store m2) = Store.batch_requests (store m) ∧
          lastPercent m2 = lastPercent m) as (Hid & Hbr & Hlp).
  { subst m2. destruct (negb _); [|done].
    match goal with |- context [_parseAndUpdateItems ?n ?msg ?p ?mm] =>
      destruct (parseAndUpdateItems_items_only n msg p mm) end.
    by rewrite io_batchRequestId0, io_batch_requests0, io_lastPercent0. }
  destruct (negb (bool_decide (pw_percent_complete pw = lastPercent m2)) &&
            bool_decide (Z.rem (pw_percent_complete pw) 10 = 0)%Z &&
            (0 <? pw_percent_complete pw)%Z) eqn:Hwrite.
  - destruct (_ || _ || _); [discriminate|]. intros [= <-].
    split; [done|]. right. exists pw.
    apply andb_true_iff in Hwrite as [[Hne Hrem]%andb_true_iff Hpos].
    apply negb_true_iff, bool_decide_eq_false in Hne.
    apply bool_decide_eq_true in Hrem. apply Z.ltb_lt in Hpos.
    rewrite Hlp in Hne. split_and!; [done..|].
    cbn. by rewrite Hbr, Hid.
  - destruct (_ || _ || _); [discriminate|]. intros [= <-].
    split; [done|]. by left.
Qed.

Lemma readings_cons o obs :
  readings (o :: obs)
  = match obs_worker o with
    | Some pw => pw_percent_complete pw :: readings obs
    | None => readings obs
    end.
Proof. unfold readings. simpl. by destruct (obs_worker o). Qed.

(** C4 (as the design document states it) fails: the progress worker may
    report 50 and then 20, and the script persists 50 and then 20 on a
    batch request that is [in_progress] throughout. *)
Lemma overall_progress_decreases :
  let trace :=
    polling_states
      [Scenario.observe 3000 (Scenario.worker "running" "Installing" 50);
       Scenario.observe 4000 (Scenario.worker "running" "Installing" 20)]
      Scenario.monitor0 in
  state_of <$> trace = [Some in_progress; Some in_progress] ∧
  progress_of <$> trace = [Some 50%Z; Some 20%Z].
Proof. by vm_compute. Qed.

(** C4, amended. An iteration that keeps polling either leaves
    [overall_progress] as it is or persists the percentage just read, and
    it does so only when that percentage is a positive multiple of ten
    different from the last one persisted. So, when the percentages read
    from the progress worker never decrease (and are not below the progress
    already recorded), the recorded [overall_progress] never decreases from
    one iteration to the next. *)
Theorem overall_progress_nondecreasing :
  (∀ o m m',
     poll o m = (m', false) →
     (progress_of m' = progress_of m ∧ lastPercent m' = lastPercent m) ∨
     (∃ p, pw_percent_complete <$> obs_worker o = Some p ∧
           p ≠ lastPercent m ∧ (0 < p)%Z ∧ Z.rem p 10 = 0%Z ∧
           lastPercent m' = p ∧
           progress_of m' = (λ _, p) <$> progress_of m)) ∧
  (∀ obs m p0,
     progress_of m = Some p0 →
     StronglySorted Z.le (p0 :: readings obs) →
     ∃ ps, progress_of <$> polling_states obs m = Some <$> ps ∧
           StronglySorted Z.le (p0 :: ps) ∧
           Forall (λ p, p = p0 ∨ (0 < p)%Z ∧ Z.rem p 10 = 0%Z) ps).
Proof.
  split.
  { intros o m m' [Hid Hcases]%poll_continue. unfold progress_of.
    rewrite Hid.
    destruct Hcases as [[Hsame Hlast]|(pw & Hpw & Hne & Hrem & Hpos & Hlast & Hw)].
    - left. by rewrite Hsame.
    - right. exists (pw_percent_complete pw). rewrite Hpw, Hw, lookup_alter_eq.
      split_and!; [done..|].
      by destruct (Store.batch_requests (store m) !! batchRequestId m). }
  intros obs.
  induction obs as [|o obs IH]; intros m p0 Hp0 Hsorted.
  { exists []. split_and!; [done| |done]. by repeat constructor. }
  simpl. destruct (poll o m) as [m1 stop] eqn:Hpoll. destruct stop.
  { exists []. split_and!; [done| |done]. by repeat constructor. }
  apply poll_continue in Hpoll as [Hid Hcases].
  rewrite readings_cons in Hsorted.
  apply StronglySorted_inv in Hsorted as [Htail Hhead].
  destruct Hcases as [[Hsame _]|(pw & Hpw & _ & Hrem & Hpos & _ & Hwrite)].
  - assert (progress_of m1 = Some p0) as Hp1
      by (unfold progress_of; by rewrite Hid, Hsame).
    destruct (IH m1 p0 Hp1) as (ps & Hps & Hs & Hall).
    { destruct (obs_worker o).
      - apply StronglySorted_inv in Htail as [Htail' _].
        constructor; [done|]. by apply Forall_inv_tail in Hhead.
      - by constructor. }
    exists (p0 :: ps). split_and!.
    + by rewrite !fmap_cons, Hp1, Hps.
    + constructor; [done|]. constructor; [lia|].
      by apply StronglySorted_inv in Hs as [_ ?].
    + constructor; [by left|done].
  - rewrite Hpw in Htail, Hhead. set (p := pw_percent_complete pw) in *.
    assert (progress_of m1 = Some p) as Hp1.
    { unfold progress_of in *. rewrite Hid, Hwrite, lookup_alter_eq.
      destruct (Store.batch_requests (store m) !! batchRequestId m); [done|].
      discriminate. }
    destruct (IH m1 p Hp1 Htail) as (ps & Hps & Hs & Hall).
    assert (p0 ≤ p)%Z as Hle by (by apply Forall_inv in Hhead).
    exists (p :: ps). split_and!.
    + by rewrite !fmap_cons, Hp1, Hps.
    + constructor; [done|]. constructor; [done|].
      apply StronglySorted_inv in Hs as [_ Hs].
      eapply Forall_impl; [exact Hs|]. intros; simpl in *; lia.
    + constructor; [by right|].
      eapply Forall_impl; [exact Hall|]. intros q [->|?]; by right.
Qed.

Lemma overall_progress_nondecreasing_witness :
  ∃ ps,
    progress_of <$>
      polling_states
        [Scenario.observe 3000 (Scenario.worker "running" "Installing" 10);
         Scenario.observe 4000 (Scenario.worker "running" "Installing" 15);
         Scenario.observe 5000 (Scenario.worker "running" "Installing" 20)]
        Scenario.monitor0 = Some <$> ps ∧
    StronglySorted Z.le (0%Z :: ps).
Proof.
  destruct (proj2 overall_progress_nondecreasing
    [Scenario.observe 3000 (Scenario.worker "running" "Installing" 10);
     Scenario.observe 4000 (Scenario.worker "running" "Installing" 15);
     Scenario.observe 5000 (Scenario.worker "running" "Installing" 20)]
    Scenario.monitor0 0%Z) as (ps & Hps & Hsorted & _).
  - vm_compute. reflexivity.
  - change (StronglySorted Z.le [0; 10; 15; 20]%Z).
    repeat (constructor; [|repeat constructor; lia]). constructor.
  - exists ps. split; [exact Hps|exact Hsorted].
Defined.
End reconciler.

(* ===================================================================== *)
(** * Progress Reconciler: the ground-truth sync                          *)
(* ===================================================================== *)
Section ground_truth_sync.
Import MonitorProgress MonitorSpec LogSpec.

Lemma query_items_elem p s i it :
  (i, it) ∈ Store.query_items p s ↔
  Store.batch_items s !! i = Some it ∧ p it = true.
Proof.
  unfold Store.query_items.
  rewrite list_elem_of_filter, elem_of_lookup_imap. simpl. split.
  - intros [Hp (i' & it' & [= -> ->] & Hl)]. done.
  - intros [Hl Hp]. split; [done|]. by exists i, it.
Qed.

Lemma query_items_NoDup p s : NoDup (Store.query_items p s).*1.
Proof.
  unfold Store.query_items.
  eapply sublist_NoDup; [|apply fmap_sublist, sublist_filter].
  rewrite fmap_imap.
  rewrite (imap_ext _ (λ j _, j)) by done.
  rewrite (imap_seq_0 (Store.batch_items s) (λ j, j)), list_fmap_id.
  apply NoDup_seq.
Qed.

Lemma sync_row_other now inv row m j :
  j ≠ row.1 →
  Store.batch_items (store (sync_row now inv row m)) !! j
  = Store.batch_items (store m) !! j.
Proof.
  intros Hne. unfold sync_row.
  destruct (_ ≫= _) as [app|]; [|done].
  repeat case_bool_decide; simpl; try done; by rewrite list_lookup_alter_ne.
Qed.

Lemma sync_rows_other now inv rows j :
  ∀ m, j ∉ rows.*1 →
    Store.batch_items (store (foldl (λ m row, sync_row now inv row m) m rows)) !! j
    = Store.batch_items (store m) !! j.
Proof.
  induction rows as [|row rows IH]; intros m Hj; simpl; [done|].
  rewrite fmap_cons, not_elem_of_cons in Hj. destruct Hj as [Hne Hj].
  rewrite IH by done. by apply sync_row_other.
Qed.

Lemma script_step_logged m1 m2 m3 m4 e :
  script_step m1 m2 → logged_since m2 m3 e → script_step m3 m4 →
  logged_since m1 m4 e.
Proof.
  intros [_ _ _ _ [_ (es1 & Hl1 & _)]] (pre & post & Hl)
         [_ _ _ _ [_ (es2 & Hl2 & _)]].
  exists (es1 ++ pre), (post ++ es2).
  rewrite Hl2, Hl, Hl1. by rewrite <- !app_assoc.
Qed.

(** The body of the sync loop on the row of an item whose application is
    in the inventory. *)
Lemma sync_row_at now inv j it app m :
  Store.batch_items (store m) !! j = Some it →
  BatchItem.application it ≫= (λ a, inv !! a) = Some app →
  let m' := sync_row now inv (j, it) m in
  ∃ it', Store.batch_items (store m') !! j = Some it' ∧
    (sa_version app = BatchItem.to_version it →
       BatchItem.state it' = item_completed ∧
       (BatchItem.state it = item_completed → it' = it ∧ m' = m) ∧
       (BatchItem.state it ≠ item_completed →
          BatchItem.progress_percent it' = 100%Z ∧
          ∃ e, logged_since m m' e ∧
               ActivityLog.activity_type e = success ∧
               ActivityLog.batch_request e = batchRequestId m ∧
               ActivityLog.batch_item e
                 = ActivityLogger.if_truthy (Some (BatchItem.sys_id it)) ∧
               ActivityLog.progress_percent e = Some 100%Z)) ∧
    (sa_version app ≠ BatchItem.to_version it →
       (BatchItem.state it ≠ installing → it' = it ∧ m' = m) ∧
       (BatchItem.state it = installing →
          BatchItem.state it' = item_failed ∧
          BatchItem.error_message it'
            = Some (mismatch_message (BatchItem.to_version it) (sa_version app)) ∧
          ∃ e, logged_since m m' e ∧
               ActivityLog.activity_type e = error ∧
               ActivityLog.batch_request e = batchRequestId m ∧
               ActivityLog.batch_item e
                 = ActivityLogger.if_truthy (Some (BatchItem.sys_id it)))).
Proof.
  intros Hj Happ. unfold sync_row. cbn [fst snd]. rewrite Happ.
  case_bool_decide as Hver.
  - case_bool_decide as Hst; cbn [negb].
    + exists it. split; [done|]. split; [|done]. intros _.
      split_and!; [done|done|done].
    + eexists. split.
      { cbn. rewrite list_lookup_alter_eq, Hj. reflexivity. }
      split; [|done]. intros _. split_and!.
      * by destruct (BatchItem.end_time _).
      * done.
      * intros _. split; [by destruct (BatchItem.end_time _)|].
        eexists. split; [exists [], []; cbn; reflexivity|]. by split_and!.
  - case_bool_decide as Hst.
    + eexists. split.
      { cbn. rewrite list_lookup_alter_eq, Hj. reflexivity. }
      split; [done|]. intros _. split; [done|]. intros _.
      split_and!; [done|done|].
      eexists. split; [exists [], []; cbn; reflexivity|]. by split_and!.
    + exists it. split; [done|]. split; [done|]. intros _.
      split; [done|]. done.
Qed.

(** The entries that one iteration of the sync loop appends to the log:
    the one owed to the item of the row, if any. *)
Lemma sync_row_log now inv row m :
  batchRequestId (sync_row now inv row m) = batchRequestId m ∧
  ∃ es,
    Store.activity_log (store (sync_row now inv row m))
    = Store.activity_log (store m) ++ es ∧
    entry_key <$> es = sync_entries inv [row] ∧
    Forall (λ e, ActivityLog.batch_request e = batchRequestId m) es.
Proof.
  unfold sync_row, sync_entries, sync_entry. cbn [omap list_omap snd].
  destruct (_ ≫= _) as [app|]; cbn [fmap option_fmap option_map];
    [|split; [done|]; exists []; by rewrite app_nil_r].
  repeat case_bool_decide; cbn [negb fmap option_fmap option_map];
    (split; [done|]);
    first [ by exists []; rewrite app_nil_r
          | eexists [_]; split; [cbn; reflexivity|];
            split; [reflexivity|]; by repeat constructor ].
Qed.

Lemma sync_rows_log now inv rows :
  ∀ m,
    let m' := foldl (λ m row, sync_row now inv row m) m rows in
    batchRequestId m' = batchRequestId m ∧
    ∃ es,
      Store.activity_log (store m') = Store.activity_log (store m) ++ es ∧
      entry_key <$> es = sync_entries inv rows ∧
      Forall (λ e, ActivityLog.batch_request e = batchRequestId m) es.
Proof.
  induction rows as [|row rows IH]; intros m; cbv zeta; cbn [foldl].
  - split; [done|]. exists []. by rewrite app_nil_r.
  - destruct (sync_row_log now inv row m) as (Hid1 & es1 & Hl1 & Hk1 & Hb1).
    destruct (IH (sync_row now inv row m)) as (Hid2 & es2 & Hl2 & Hk2 & Hb2).
    cbv zeta in Hid2, Hl2.
    split; [by rewrite Hid2|]. exists (es1 ++ es2). split_and!.
    + by rewrite Hl2, Hl1, app_assoc.
    + rewrite fmap_app, Hk1, Hk2. unfold sync_entries. cbn [omap list_omap].
      by destruct (sync_entry inv row.2).
    + apply Forall_app. split; [done|]. by rewrite <- Hid1.
Qed.

(** C1 (as the design document states it) fails on the log entry: the two
    items of the worked installation are marked completed by the progress
    estimate at 100 percent; their installed versions then match, they end
    completed with progress 100, and the run has written no success entry
    for either of them. *)
Lemma sync_writes_no_success_entry_for_completed_item :
  let m := execute Scenario.started "0" "pw1" 2000
             [Scenario.observe 3000 (Scenario.worker "running" "Installing" 100);
              Scenario.observe 4000 (Scenario.worker "complete" "Done" 100)] in
  (λ it, (BatchItem.sys_id it, BatchItem.state it,
          BatchItem.progress_percent it,
          bool_decide ((BatchItem.application it
                          ≫= (λ a, Scenario.updated_inventory !! a))
                         ≫= sa_version
                       = BatchItem.to_version it)))
    <$> Store.batch_items (store m)
  = [("2", item_completed, 100%Z, true); ("3", item_completed, 100%Z, true)] ∧
  filter (λ e, is_Some (ActivityLog.batch_item e)) (Store.activity_log (store m))
  = [].
Proof. by vm_compute. Qed.

(** C1, amended. At the ground-truth sync, an item of the batch whose
    application is in the inventory with the item's target version ends
    completed: if it was not completed yet it is given progress 100 and a
    success entry is logged for it; if the estimate had already completed
    it, it is left as it is and nothing is logged for it. When the
    versions differ, an item that was still installing ends failed with
    the version-mismatch message and an error entry is logged for it; an
    item in any other state is left as it is and nothing is logged for
    it. The entries that the sync appends to the log are exactly the ones
    owed to the rows of the batch, one after the other: a row to which
    none is owed adds none. *)
Theorem sync_final_item_states now inv m j it app :
  Store.batch_items (store m) !! j = Some it →
  BatchItem.batch_request it = batchRequestId m →
  BatchItem.application it ≫= (λ a, inv !! a) = Some app →
  let m' := _syncFinalItemStates now inv m in
  let rows := Store.query_items
                (BatchUpdateManager.of_batch (batchRequestId m)) (store m) in
  (j, it) ∈ rows ∧
  (∃ es,
     Store.activity_log (store m') = Store.activity_log (store m) ++ es ∧
     entry_key <$> es = sync_entries inv rows ∧
     Forall (λ e, ActivityLog.batch_request e = batchRequestId m) es) ∧
  ∃ it', Store.batch_items (store m') !! j = Some it' ∧
    (sa_version app = BatchItem.to_version it →
       BatchItem.state it' = item_completed ∧
       (BatchItem.state it = item_completed →
          it' = it ∧ sync_entries inv [(j, it)] = []) ∧
       (BatchItem.state it ≠ item_completed →
          BatchItem.progress_percent it' = 100%Z ∧
          sync_entries inv [(j, it)]
          = [(success, ActivityLogger.if_truthy (Some (BatchItem.sys_id it)))] ∧
          ∃ e, logged_since m m' e ∧
               ActivityLog.activity_type e = success ∧
               ActivityLog.batch_request e = batchRequestId m ∧
               ActivityLog.batch_item e
                 = ActivityLogger.if_truthy (Some (BatchItem.sys_id it)) ∧
               ActivityLog.progress_percent e = Some 100%Z)) ∧
    (sa_version app ≠ BatchItem.to_version it →
       (BatchItem.state it ≠ installing →
          it' = it ∧ sync_entries inv [(j, it)] = []) ∧
       (BatchItem.state it = installing →
          BatchItem.state it' = item_failed ∧
          BatchItem.error_message it'
            = Some (mismatch_message (BatchItem.to_version it) (sa_version app)) ∧
          sync_entries inv [(j, it)]
          = [(error, ActivityLogger.if_truthy (Some (BatchItem.sys_id it)))] ∧
          ∃ e, logged_since m m' e ∧
               ActivityLog.activity_type e = error ∧
               ActivityLog.batch_request e = batchRequestId m ∧
               ActivityLog.batch_item e
                 = ActivityLogger.if_truthy (Some (BatchItem.sys_id it)))).
Proof.
  intros Hj Hbatch Happ m' rows.
  assert ((j, it) ∈ rows) as Hin.
  { apply query_items_elem. split; [done|].
    unfold BatchUpdateManager.of_batch. by apply bool_decide_eq_true. }
  split; [exact Hin|]. split.
  { apply (sync_rows_log now inv rows m). }
  assert (sa_version app = BatchItem.to_version it →
          BatchItem.state it = item_completed →
          sync_entries inv [(j, it)] = []) as Hk1.
  { intros Hv Hst. unfold sync_entries, sync_entry.
    cbn [omap list_omap snd]. rewrite Happ.
    by rewrite !bool_decide_eq_true_2. }
  assert (sa_version app = BatchItem.to_version it →
          BatchItem.state it ≠ item_completed →
          sync_entries inv [(j, it)]
          = [(success, ActivityLogger.if_truthy (Some (BatchItem.sys_id it)))])
    as Hk2.
  { intros Hv Hst. unfold sync_entries, sync_entry.
    cbn [omap list_omap snd]. rewrite Happ.
    by rewrite bool_decide_eq_true_2, bool_decide_eq_false_2. }
  assert (sa_version app ≠ BatchItem.to_version it →
          BatchItem.state it ≠ installing →
          sync_entries inv [(j, it)] = []) as Hk3.
  { intros Hv Hst. unfold sync_entries, sync_entry.
    cbn [omap list_omap snd]. rewrite Happ.
    by rewrite !bool_decide_eq_false_2. }
  assert (sa_version app ≠ BatchItem.to_version it →
          BatchItem.state it = installing →
          sync_entries inv [(j, it)]
          = [(error, ActivityLogger.if_truthy (Some (BatchItem.sys_id it)))])
    as Hk4.
  { intros Hv Hst. unfold sync_entries, sync_entry.
    cbn [omap list_omap snd]. rewrite Happ.
    by rewrite bool_decide_eq_false_2, bool_decide_eq_true_2. }
  subst m'. unfold _syncFinalItemStates. fold rows.
  pose proof (query_items_NoDup
                (BatchUpdateManager.of_batch (batchRequestId m)) (store m)) as Hnd.
  fold rows in Hnd.
  apply list_elem_of_split in Hin as (r1 & r2 & Hrows). rewrite Hrows in *.
  rewrite fmap_app, fmap_cons in Hnd.
  apply NoDup_app in Hnd as (_ & Hr1 & [Hr2 _]%NoDup_cons). simpl in Hr1, Hr2.
  rewrite foldl_app. simpl.
  set (m1 := foldl _ m r1).
  assert (script_step m m1) as Hs1 by apply sync_rows_script_step.
  assert (Store.batch_items (store m1) !! j = Some it) as Hj1.
  { unfold m1. rewrite sync_rows_other; [done|].
    intros Hin. apply (Hr1 j Hin). set_solver. }
  destruct (sync_row_at now inv j it app m1 Hj1 Happ) as (it' & Hj2 & Hsame & Hdiff).
  set (m2 := sync_row now inv (j, it) m1) in *.
  set (m3 := foldl _ m2 r2).
  assert (script_step m2 m3) as Hs3 by apply sync_rows_script_step.
  assert (batchRequestId m1 = batchRequestId m) as Hid
    by apply (ss_batchRequestId _ _ Hs1).
  exists it'. split.
  { unfold m3. by rewrite sync_rows_other. }
  split.
  - intros Hv. destruct (Hsame Hv) as (Hst & Hkeep & Hnew).
    split_and!; [done| |].
    { intros H. split; [by apply Hkeep|]. exact (Hk1 Hv H). }
    intros Hne. destruct (Hnew Hne) as (Hp & e & Hlog & He).
    split; [done|]. split; [exact (Hk2 Hv Hne)|].
    exists e. rewrite <- Hid.
    split; [by eapply script_step_logged|done].
  - intros Hv. destruct (Hdiff Hv) as (Hkeep & Hnew).
    split.
    { intros H. split; [by apply Hkeep|]. exact (Hk3 Hv H). }
    intros Hst. destruct (Hnew Hst) as (Hst' & Hmsg & e & Hlog & He).
    split_and!; [done|done|exact (Hk4 Hv Hst)|].
    exists e. rewrite <- Hid.
    split; [by eapply script_step_logged|done].
Qed.

Lemma sync_final_item_states_witness :
  ∃ it' es,
    Store.batch_items
      (store (_syncFinalItemStates 4000 Scenario.updated_inventory
                Scenario.monitor0)) !! 0 = Some it' ∧
    BatchItem.state it' = item_completed ∧
    BatchItem.progress_percent it' = 100%Z ∧
    Store.activity_log
      (store (_syncFinalItemStates 4000 Scenario.updated_inventory
                Scenario.monitor0))
    = Store.activity_log (store Scenario.monitor0) ++ es ∧
    entry_key <$> es = [(success, Some "2"); (success, Some "3")].
Proof.
  destruct (Store.batch_items (store Scenario.monitor0) !! 0) as [it|] eqn:Hit;
    [|vm_compute in Hit; discriminate].
  destruct (sync_final_item_states 4000 Scenario.updated_inventory
              Scenario.monitor0 0 it
              {| display_value := "App One"; sa_version := Some "1.2.4" |})
    as (_ & (es & Hlog & Hkeys & _) & it' & Hit' & Hsame & _).
  - exact Hit.
  - vm_compute in Hit. injection Hit as <-. vm_compute. reflexivity.
  - vm_compute in Hit. injection Hit as <-. vm_compute. reflexivity.
  - exists it', es. split; [exact Hit'|].
    destruct Hsame as (Hst & _ & Hnew).
    + vm_compute in Hit. injection Hit as <-. vm_compute. reflexivity.
    + split; [exact Hst|]. split.
      * apply Hnew.
        vm_compute in Hit. injection Hit as <-. vm_compute. discriminate.
      * split; [exact Hlog|]. rewrite Hkeys. vm_compute. reflexivity.
Defined.
End ground_truth_sync.

(* ===================================================================== *)
(** * The batch request state machine and the log sequence numbers        *)
(* ===================================================================== *)
Section lifecycle.
Import BatchUpdateManager MonitorProgress MonitorSpec LogSpec.

(** An iteration that ends the loop ends with [_finalizeBatch], called
    with [failed] or [completed]. *)
Lemma poll_break o m m' :
  poll o m = (m', true) →
  ∃ mx st msg,
    script_step m mx ∧ m' = _finalizeBatch (obs_now o) st msg mx ∧
    (st = failed ∨ st = completed).
Proof.
  unfold poll. cbv zeta.
  assert (Hpc := with_pollCount_script_step (pollCount m + 1) m).
  set (m1 := with_pollCount (pollCount m + 1) m) in *.
  destruct (MAX_POLL_TIME_MS <? _)%Z.
  { intros [= <-]. eexists _, failed, _. split_and!; [|reflexivity|by left].
    eapply script_step_trans; [exact Hpc|apply log_script_step]. }
  destruct (obs_worker o) as [pw|].
  2: { destruct (20 <? pollCount m1)%Z; [|discriminate].
       intros [= <-]. eexists _, failed, _. split_and!; [|reflexivity|by left].
       eapply script_step_trans; [exact Hpc|apply log_script_step]. }
  set (m2 := if negb (bool_decide (pw_message pw = lastMessage m1)) then _ else m1).
  assert (script_step m m2) as H2.
  { eapply script_step_trans; [exact Hpc|]. subst m2.
    destruct (negb _); [|apply script_step_refl].
    eapply script_step_trans; [apply log_script_step|].
    eapply script_step_trans; [apply with_last_script_step|].
    apply items_only_script_step, parseAndUpdateItems_items_only. }
  set (m3 := if _ && _ && _ then _ else m2).
  assert (script_step m m3) as H3.
  { eapply script_step_trans; [exact H2|]. subst m3.
    destruct (_ && _ && _); [|apply script_step_refl].
    eapply script_step_trans; [apply updateBatchProgress_script_step|].
    apply with_last_script_step. }
  destruct (_ || _ || _); [|discriminate].
  intros [= <-]. eexists _, _, _. split_and!; [|reflexivity|].
  - eapply script_step_trans; [exact H3|].
    eapply script_step_trans; [|apply syncFinalItemStates_script_step].
    destruct (JS.truthy _); [apply log_script_step|apply script_step_refl].
  - destruct (bool_decide (pw_state pw = "complete")); [by right|by left].
Qed.

Lemma poll_break_state o m m' b :
  poll o m = (m', true) →
  Store.batch_requests (store m) !! batchRequestId m = Some b →
  ∃ b', Store.batch_requests (store m') !! batchRequestId m = Some b' ∧
        (BatchRequest.state b' = completed ∨ BatchRequest.state b' = failed ∨
         BatchRequest.state b' = partial).
Proof.
  intros (mx & st & msg & Hstep & -> & Hst)%poll_break Hb.
  pose proof (ss_batchRequestId _ _ Hstep) as Hid.
  destruct (proj2 (ss_batches _ _ Hstep (batchRequestId m))) as [bx Hbx]; [by eexists|].
  rewrite <- Hid in Hbx.
  destruct (finalizeBatch_batch (obs_now o) st msg mx bx Hbx)
    as (b' & e & Hb' & Hfinal & _).
  rewrite Hid in Hb'. exists b'. split; [done|]. rewrite Hfinal.
  destruct (_ && _); [by right; right|]. destruct Hst as [-> | ->]; auto.
Qed.

Lemma poll_continue_state o m m' :
  poll o m = (m', false) → state_of m' = state_of m.
Proof.
  intros [Hid [[Hsame _]|(pw & _ & _ & _ & _ & _ & Hw)]]%poll_continue;
    unfold state_of; rewrite Hid.
  - by rewrite Hsame.
  - rewrite Hw, lookup_alter_eq.
    by destruct (Store.batch_requests (store m) !! batchRequestId m).
Qed.

(** C2 (as the design document states it) fails: a completed batch
    request is moved back to [in_progress] by [executeBatchInstall], and
    [cancelBatchInstall] overwrites its state with [cancelled]. *)
Lemma terminal_batch_restarted :
  (BatchRequest.state <$> Store.batch_requests Scenario.finished !! "0")
    = Some completed ∧
  (let '(r, _, s') :=
     executeBatchInstall CreateSpec.demo_platform CreateSpec.demo_runner
       ActivityLogger.initialize Scenario.finished "0" in
   success r = true ∧
   (BatchRequest.state <$> Store.batch_requests s' !! "0") = Some in_progress) ∧
  (let '(r, _, s') :=
     cancelBatchInstall CreateSpec.demo_platform ActivityLogger.initialize
       Scenario.finished "0" in
   success r = true ∧
   (BatchRequest.state <$> Store.batch_requests s' !! "0") = Some cancelled).
Proof. by vm_compute. Qed.

(** C2, amended. A batch request is created [draft] or [scheduled].
    [executeBatchInstall] refuses a request that is [in_progress] and
    changes nothing; from every other state, terminal ones included, it
    moves the request to [in_progress], and from there to [failed] when the
    submission throws. [cancelBatchInstall] moves an [in_progress] request
    to [cancelled]. The monitor leaves the state alone while it polls and
    ends the request in [completed], [failed] or [partial]. *)
Theorem batch_state_transitions :
  (∀ pf lg s input options,
     ∃ r lg' s' b,
       createBatchRequest pf lg s input options = (r, lg', s') ∧
       Store.batch_requests s' !! Store.fresh s = Some b ∧
       (BatchRequest.state b = draft ∨ BatchRequest.state b = scheduled)) ∧
  (∀ pf run lg s id b,
     Store.batch_requests s !! id = Some b →
     BatchRequest.state b = in_progress →
     executeBatchInstall pf run lg s id
     = (failure "Batch is already running" None, lg, s)) ∧
  (∀ pf run lg s id b,
     Store.batch_requests s !! id = Some b →
     BatchRequest.state b ≠ in_progress →
     ∃ r lg' s' b',
       executeBatchInstall pf run lg s id = (r, lg', s') ∧
       Store.batch_requests s' !! id = Some b' ∧
       (success r = true ∧ BatchRequest.state b' = in_progress ∨
        success r = false ∧ BatchRequest.state b' = failed)) ∧
  (∀ pf lg s id b,
     Store.batch_requests s !! id = Some b →
     BatchRequest.state b = in_progress →
     ∃ r lg' s' b',
       cancelBatchInstall pf lg s id = (r, lg', s') ∧
       Store.batch_requests s' !! id = Some b' ∧
       BatchRequest.state b' = cancelled) ∧
  (∀ o m m', poll o m = (m', false) → state_of m' = state_of m) ∧
  (∀ o m m' b,
     poll o m = (m', true) →
     Store.batch_requests (store m) !! batchRequestId m = Some b →
     ∃ b', Store.batch_requests (store m') !! batchRequestId m = Some b' ∧
           (BatchRequest.state b' = completed ∨
            BatchRequest.state b' = failed ∨
            BatchRequest.state b' = partial)).
Proof.
  split_and!.
  - intros pf lg s input options.
    destruct (createBatchRequest_spec pf lg s input options)
      as (s' & new & e1 & e2 & b & Hrun & _ & _ & _ & _ & _ & _ & Hb & _ & Hst & _).
    eexists _, _, s', b. split; [exact Hrun|]. split; [done|].
    rewrite Hst. destruct (ActivityLogger.if_truthy _); auto.
  - intros pf run lg s id b Hb Hst.
    by apply (executeBatchInstall_spec pf run lg s id b Hb).
  - intros pf run lg s id b Hb Hst.
    destruct (proj2 (executeBatchInstall_spec pf run lg s id b Hb) Hst)
      as (r & lg' & s' & b' & apps & Hrun & Hb' & Hst' & Hok & _).
    exists r, lg', s', b'. split; [done|]. split; [done|].
    rewrite Hst', Hok. destruct (run apps); auto.
  - intros pf lg s id b Hb _.
    destruct (cancelBatchInstall_spec pf lg s id b Hb)
      as (r & lg' & s' & b' & Hrun & _ & Hb' & Hst & _).
    by exists r, lg', s', b'.
  - apply poll_continue_state.
  - apply poll_break_state.
Qed.

Lemma batch_state_transitions_witness :
  executeBatchInstall CreateSpec.demo_platform CreateSpec.demo_runner
    ActivityLogger.initialize Scenario.started "0"
  = (failure "Batch is already running" None, ActivityLogger.initialize,
     Scenario.started).
Proof.
  destruct batch_state_transitions as (_ & Hrunning & _).
  destruct (Store.batch_requests Scenario.started !! "0") as [b|] eqn:Hb;
    [|vm_compute in Hb; discriminate].
  apply (Hrunning _ _ _ _ _ b Hb).
  vm_compute in Hb. injection Hb as <-. reflexivity.
Defined.

(** C5 (as the design document states it) fails: the manager that created
    and started the batch numbered its entries 1 to 4, and the monitor,
    which has a logger of its own, numbers its first entry 1 again. *)
Lemma sequence_restarts_in_monitor :
  sequences_of "0" Scenario.started = [1; 2; 3; 4]%Z ∧
  sequences_of "0" (store Scenario.monitor0) = [1; 2; 3; 4; 1]%Z ∧
  ¬ NoDup (sequences_of "0" (store Scenario.monitor0)).
Proof.
  assert (sequences_of "0" (store Scenario.monitor0) = [1; 2; 3; 4; 1]%Z) as H
    by (by vm_compute).
  split_and!; [by vm_compute|done|]. rewrite H.
  intros Hnd. apply NoDup_cons in Hnd as [Hnot _]. apply Hnot. set_solver.
Qed.

(** C5, amended. Sequence numbers are consecutive per logger instance,
    not per batch. The entries that one run of the monitor appends all
    belong to its batch and are numbered 1, 2, ... in order; the entries
    that a call to [createBatchRequest], [executeBatchInstall] or
    [cancelBatchInstall] appends belong to its batch and continue the
    counter of the manager that makes the call. *)
Theorem activity_sequence_per_writer :
  (∀ s id pw start obs,
     numbered id 0 s (logger (execute s id pw start obs))
       (store (execute s id pw start obs))) ∧
  (∀ pf lg s input options,
     numbered (Store.fresh s) lg s
       (createBatchRequest pf lg s input options).1.2
       (createBatchRequest pf lg s input options).2) ∧
  (∀ pf run lg s id,
     numbered id lg s (executeBatchInstall pf run lg s id).1.2
       (executeBatchInstall pf run lg s id).2) ∧
  (∀ pf lg s id,
     numbered id lg s (cancelBatchInstall pf lg s id).1.2
       (cancelBatchInstall pf lg s id).2).
Proof.
  split_and!.
  - intros s id pw start obs.
    pose proof (execute_script_step s id pw start obs) as Hrun.
    pose proof (script_step_trans _ _ _
      (log_script_step info installation
         ("Progress monitor started. Tracking worker: " +:+ pw)
         ActivityLogger.no_options
         {| store := s; logger := ActivityLogger.initialize;
            batchRequestId := id; progressWorkerId := pw;
            startTime := start; lastMessage := EmptyString;
            lastPercent := (-1); completedApps := 0; failedApps := 0;
            pollCount := 0; outputs := None |}) Hrun) as Hall.
    exact (ss_numbered _ _ Hall).
  - apply createBatchRequest_numbered.
  - apply executeBatchInstall_numbered.
  - apply cancelBatchInstall_numbered.
Qed.
End lifecycle.

(* ===================================================================== *)
(** * Update Analyzer: levels, risk and the summary                       *)
(* ===================================================================== *)
Section analyzer_summary.
Import UpdateAnalyzer AnalyzerSpec.

Lemma getUpdateLevel_not_none (a b : option string) : getUpdateLevel a b ≠ none.
Proof. unfold getUpdateLevel. by repeat case_bool_decide. Qed.





(** X2. [assessAppRisk] is monotone: a higher update level, more
    dependencies or detected customizations never lower the risk level; and
    a major update with a non-negative dependency count is never [low]. *)
Theorem assessAppRisk_monotone (l l' : UpdateLevel) (d d' : Z) (c c' : bool) :
  level_rank l ≤ level_rank l' → (d ≤ d')%Z → (c = true → c' = true) →
  risk_rank (assessAppRisk l d c) ≤ risk_rank (assessAppRisk l' d' c') ∧
  ((0 ≤ d)%Z → assessAppRisk major d c ≠ low).
Proof.
  intros Hl Hd Hc. unfold assessAppRisk, RISK_WEIGHTS. cbn [w_major w_minor
    w_patch w_dependency_per w_customization_detected]. split.
  - assert (c = false ∨ c' = true) as Hcc by (destruct c, c'; auto).
    destruct l, l'; simpl in Hl; try lia;
      destruct c, c'; try (destruct Hcc; discriminate);
      repeat (match goal with
              | |- context [(?a <=? ?b)%Z] => destruct (Z.leb_spec a b)
              end); simpl; lia.
  - intros H0. destruct c;
      repeat (match goal with
              | |- context [(?a <=? ?b)%Z] => destruct (Z.leb_spec a b)
              end); try done; lia.
Qed.

Lemma assessAppRisk_monotone_witness :
  risk_rank (assessAppRisk minor 1 false) ≤ risk_rank (assessAppRisk major 3 true).
Proof.
  refine (proj1 (assessAppRisk_monotone minor major 1 3 false true _ _ _)).
  - simpl. lia.
  - lia.
  - discriminate.
Defined.

(** X3. [getUpdateLevel] does not depend on the direction of the change,
    never answers ['none'], answers ['patch'] for identical versions, and
    reads a missing or empty version as 0.0.0. *)
Theorem getUpdateLevel_properties (a b : option string) :
  getUpdateLevel a b = getUpdateLevel b a ∧
  getUpdateLevel a b ≠ none ∧
  getUpdateLevel a a = patch ∧
  getUpdateLevel None b = getUpdateLevel (Some "0.0.0") b ∧
  getUpdateLevel (Some EmptyString) b = getUpdateLevel (Some "0.0.0") b.
Proof.
  split_and!.
  - unfold getUpdateLevel. cbv zeta.
    set (x := JS.split "." _). set (y := JS.split "." _).
    rewrite (bool_decide_ext (x !! 0 = y !! 0) (y !! 0 = x !! 0)) by done.
    by rewrite (bool_decide_ext (x !! 1 = y !! 1) (y !! 1 = x !! 1)).
  - apply getUpdateLevel_not_none.
  - unfold getUpdateLevel. by rewrite !bool_decide_eq_true_2.
  - done.
  - done.
Qed.
End analyzer_summary.

Section analyzer_dependencies.
Import UpdateAnalyzer TopoSpec.

(** X4. [analyzeDependencies] warns exactly about the dependencies that
    lead out of the batch: a text is among the warnings if and only if it is
    the warning for a requested app and a row of the dependency table from
    that app to an app that was not requested. In particular there is no
    warning when every dependency of a requested app is requested too. *)
Theorem analyzeDependencies_warnings (tbl : DependencyTable)
    (appName : string → string) (appSysIds : list string) :
  ∃ a, analyzeDependencies tbl appName appSysIds = Some a ∧
    (∀ w, w ∈ warnings a ↔
          ∃ x d, x ∈ appSysIds ∧ (x, d) ∈ tbl ∧ (d ∉ appSysIds) ∧
                 w = dependency_warning (appName x) (appName d)) ∧
    (warnings a = [] ↔
     ∀ x d, x ∈ appSysIds → (x, d) ∈ tbl → d ∈ appSysIds).
Proof.
  destruct (topological_sort_sound appSysIds (build_depMap tbl appSysIds))
    as (ord & confl & Hrun & _).
  unfold analyzeDependencies. rewrite Hrun. eexists. split; [done|].
  cbn [warnings].
  assert (∀ w, w ∈ flat_map (λ app,
              flat_map (λ dep,
                if bool_decide (dep ∈ appSysIds) then []
                else [dependency_warning (appName app) (appName dep)])
                (default [] (build_depMap tbl appSysIds !! app))) appSysIds ↔
          ∃ x d, x ∈ appSysIds ∧ (x, d) ∈ tbl ∧ (d ∉ appSysIds) ∧
                 w = dependency_warning (appName x) (appName d)) as Hw.
  { intros w. rewrite list_elem_of_In, in_flat_map. split.
    - intros (x & Hx & Hin). apply list_elem_of_In in Hx.
      apply in_flat_map in Hin as (d & Hd & Hin). apply list_elem_of_In in Hd.
      rewrite build_depMap_lookup in Hd by done. simpl in Hd.
      apply getAppDependencies_spec in Hd.
      case_bool_decide; [by apply in_nil in Hin|].
      apply list_elem_of_In, list_elem_of_singleton in Hin. by exists x, d.
    - intros (x & d & Hx & Hrow & Hd & ->). exists x.
      split; [by apply list_elem_of_In|]. apply in_flat_map. exists d. split.
      + apply list_elem_of_In. rewrite build_depMap_lookup by done. simpl.
        by apply getAppDependencies_spec.
      + rewrite bool_decide_eq_false_2 by done. by left. }
  split; [exact Hw|]. split.
  - intros Hnil x d Hx Hrow. destruct (decide (d ∈ appSysIds)) as [|Hd]; [done|].
    assert (dependency_warning (appName x) (appName d) ∈ @nil string) as Hin.
    { rewrite <- Hnil. apply Hw. by exists x, d. }
    by apply elem_of_nil in Hin.
  - intros Hall. apply elem_of_nil_inv. intros w (x & d & Hx & Hrow & Hd & _)%Hw.
    by apply Hd, (Hall x d).
Qed.

(** X6. Every conflict that the sort records names a candidate, and that
    candidate lies on a dependency cycle among the candidates unless its id
    is a property name that objects inherit; so when no candidate id is
    such a name (a sys_id never is), every recorded conflict names a
    candidate on a cycle. *)
Theorem topological_sort_conflicts_on_cycles (appIds : list string)
    (depMap : gmap string (list string)) (ord confl : list string) (c : string) :
  _topologicalSort appIds depMap = Some (ord, confl) → c ∈ confl →
  ∃ d, c = conflict_message d ∧ d ∈ appIds ∧
       (inherited d = false → tc (depends_on appIds depMap) d d).
Proof.
  intros Hrun Hc.
  destruct (topological_sort_sound appIds depMap)
    as (ord' & confl' & Hrun' & _ & _ & _ & Hconfl & _).
  rewrite Hrun in Hrun'. injection Hrun' as <- <-.
  destruct (Hconfl c Hc) as (d & Heq & Hd & [Hcyc|Hinh]); exists d;
    (split_and!; [done|done|]); [done|congruence].
Qed.

Lemma topological_sort_conflicts_on_cycles_witness :
  ∃ d, "Circular dependency detected involving a" = conflict_message d ∧
       d ∈ TopoExamples.loop_ids ∧
       (inherited d = false →
        tc (depends_on TopoExamples.loop_ids TopoExamples.loop_deps) d d).
Proof.
  apply (topological_sort_conflicts_on_cycles TopoExamples.loop_ids
           TopoExamples.loop_deps ["b"; "a"]
           ["Circular dependency detected involving a"]).
  - vm_compute. reflexivity.
  - apply list_elem_of_singleton. reflexivity.
Defined.

Lemma analyzeDependencies_order_witness :
  ∃ a, analyzeDependencies [("a", "b"); ("b", "c"); ("a", "x")] id
         ["a"; "b"; "c"] = Some a ∧
       before "c" "b" (orderedApps a) ∧ before "b" "a" (orderedApps a).
Proof.
  destruct (analyzeDependencies_order [("a", "b"); ("b", "c"); ("a", "x")] id
              ["a"; "b"; "c"]) as (a & Hrun & _ & _ & Hrows);
    [repeat constructor|].
  exists a. split; [exact Hrun|].
  assert (a_conflicts a = []) as Hnone.
  { vm_compute in Hrun. injection Hrun as <-. reflexivity. }
  split; apply (Hrows Hnone); set_solver.
Defined.

Lemma visit_loop_skip (appIds : list string) (v : string → SortState → option SortState)
    (ids : list string) (st : SortState) :
  (∀ d, d ∈ ids → in_batch appIds d = false) →
  visit_loop (in_batch appIds) v ids st = Some st.
Proof.
  induction ids as [|d ids IH]; intros Hout; simpl; [done|].
  rewrite (Hout d) by set_solver. apply IH. intros; apply Hout; set_solver.
Qed.

(** X7. When no candidate id is a property name that objects inherit (a
    sys_id never is), no candidate depends on another candidate, and the
    candidates are listed once each, the sort returns them in the order in
    which they were given, without conflict. *)
Theorem topological_sort_keeps_input_order (appIds : list string)
    (depMap : gmap string (list string)) :
  Forall (λ x, inherited x = false) appIds →
  NoDup appIds →
  (∀ x d, ¬ depends_on appIds depMap x d) →
  _topologicalSort appIds depMap = Some (appIds, []).
Proof.
  intros Hown Hnd Hfree. unfold _topologicalSort.
  rewrite Forall_forall in Hown.
  assert (∀ l st,
    NoDup l → (∀ x, x ∈ l → x ∈ appIds) →
    (∀ x, x ∈ l → flag (visited st) x = false) →
    (∀ x, x ∈ appIds → flag (visiting st) x = false) →
    ∃ st', visit_loop (λ _, true) (visit appIds depMap (S (length appIds))) l st
             = Some st' ∧
           order st' = order st ++ l ∧ conflicts st' = conflicts st) as Hloop.
  { induction l as [|x l IH]; intros st Hl Hin Hnew Hidle; simpl.
    { exists st. by rewrite app_nil_r. }
    apply NoDup_cons in Hl as [Hx Hl].
    rewrite Hidle, (Hnew x) by set_solver.
    rewrite visit_loop_skip.
    2: { intros d Hd. unfold in_batch. apply bool_decide_eq_false. intros Hd'.
         apply (Hfree x d). split_and!; [apply Hin; set_solver|done|done]. }
    match goal with |- context [visit_loop _ _ l ?s1] => set (st1 := s1) end.
    destruct (IH st1 Hl) as (st' & Hrun & Hord & Hconf).
    - intros y Hy. apply Hin. set_solver.
    - intros y Hy. subst st1. cbn. rewrite flag_insert. case_decide; [set_solver|].
      apply Hnew. set_solver.
    - intros y Hy. subst st1. cbn. rewrite !flag_insert. repeat case_decide; auto.
    - exists st'. split; [exact Hrun|]. subst st1. cbn in Hord, Hconf.
      by rewrite Hord, Hconf, <- app_assoc. }
  destruct (Hloop appIds sort_init Hnd) as (st' & Hrun & Hord & Hconf).
  - done.
  - intros x Hx. simpl. rewrite flag_empty. auto.
  - intros x Hx. simpl. rewrite flag_empty. auto.
  - rewrite Hrun. simpl in Hord, Hconf. by rewrite Hord, Hconf.
Qed.

Lemma topological_sort_keeps_input_order_witness :
  _topologicalSort ["b"; "a"] (<["a" := ["x"]]> ∅) = Some (["b"; "a"], []).
Proof.
  apply topological_sort_keeps_input_order.
  - repeat constructor.
  - compute_done.
  - intros x d (Hx & Hd & Hdin).
    repeat (apply elem_of_cons in Hx as [->|Hx]); [| |by apply elem_of_nil in Hx].
    + by apply elem_of_nil in Hd.
    + change (d ∈ ["x"]) in Hd. set_solver.
Defined.
End analyzer_dependencies.

(* ===================================================================== *)
(** * The item table: ordering and bulk updates                           *)
(* ===================================================================== *)
Section item_table.
Import BatchUpdateManager ItemSpec.

Lemma insert_by_order_perm row rows :
  Store.insert_by_order row rows ≡ₚ row :: rows.
Proof.
  induction rows as [|r rows IH]; simpl; [done|].
  destruct (_ <=? _)%Z; [|done]. rewrite IH. apply Permutation_swap.
Qed.

Lemma insert_by_order_sorted row rows :
  StronglySorted order_le rows →
  StronglySorted order_le (Store.insert_by_order row rows).
Proof.
  induction 1 as [|r rows Hs IH Hr]; simpl; [by repeat constructor|].
  destruct (Z.leb_spec (BatchItem.install_order r.2) (BatchItem.install_order row.2)).
  - constructor; [done|]. rewrite insert_by_order_perm. by constructor.
  - constructor; [by constructor|]. constructor; [unfold order_le; lia|].
    eapply Forall_impl; [exact Hr|]. unfold order_le. intros; simpl in *; lia.
Qed.

Lemma insert_by_order_last row rows :
  Forall (λ r, order_le r row) rows →
  Store.insert_by_order row rows = rows ++ [row].
Proof.
  induction 1 as [|r rows Hr _ IH]; simpl; [done|].
  unfold order_le in Hr. apply Z.leb_le in Hr. by rewrite Hr, IH.
Qed.

(** Rows that already are in install order are returned as they are. *)
Lemma order_by_install_order_id (rows : list (nat * BatchItem.t)) :
  StronglySorted order_le rows → Store.order_by_install_order rows = rows.
Proof.
  unfold Store.order_by_install_order.
  assert (∀ acc,
            StronglySorted order_le (acc ++ rows) →
            foldl (λ acc row, Store.insert_by_order row acc) acc rows = acc ++ rows)
    as Hid.
  { induction rows as [|row rows IH]; intros acc Hsorted; simpl.
    - by rewrite app_nil_r.
    - rewrite insert_by_order_last.
      + rewrite IH; [by rewrite <- app_assoc|]. by rewrite <- app_assoc.
      + clear IH. induction acc as [|a acc IHa]; [done|].
        simpl in Hsorted. apply StronglySorted_inv in Hsorted as [Hs Ha].
        constructor; [|by apply IHa].
        rewrite Forall_app, Forall_cons in Ha. tauto. }
  intros Hsorted. by apply (Hid []).
Qed.

(** [orderBy('install_order')] returns the rows it was given, ordered
    by non-decreasing [install_order]; rows that already are in that order
    are returned as they are, so ties keep the order of the table. *)
Lemma order_by_install_order_sorted (rows : list (nat * BatchItem.t)) :
  Store.order_by_install_order rows ≡ₚ rows ∧
  StronglySorted order_le (Store.order_by_install_order rows) ∧
  (StronglySorted order_le rows → Store.order_by_install_order rows = rows).
Proof.
  unfold Store.order_by_install_order.
  assert (∀ acc, StronglySorted order_le acc →
            foldl (λ acc row, Store.insert_by_order row acc) acc rows ≡ₚ acc ++ rows ∧
            StronglySorted order_le
              (foldl (λ acc row, Store.insert_by_order row acc) acc rows)) as Hgen.
  { induction rows as [|row rows IH]; intros acc Hacc; simpl.
    - by rewrite app_nil_r.
    - destruct (IH (Store.insert_by_order row acc)) as [Hp Hs];
        [by apply insert_by_order_sorted|].
      split; [|done]. rewrite Hp, insert_by_order_perm.
      simpl. apply Permutation_middle. }
  destruct (Hgen []) as [Hp Hs]; [constructor|].
  split_and!; [done|done|]. apply order_by_install_order_id.
Qed.

End item_table.

(* ===================================================================== *)
(** * Bulk updates of the item table                                      *)
(* ===================================================================== *)
Section bulk_update.
Import BatchUpdateManager ItemSpec.

Lemma update_rows_lookup rows f :
  ∀ s i, NoDup rows.*1 →
    Store.batch_items (update_rows rows f s) !! i
    = if decide (i ∈ rows.*1) then f <$> Store.batch_items s !! i
      else Store.batch_items s !! i.
Proof.
  unfold update_rows.
  induction rows as [|r rows IH]; intros s i Hnd; [done|].
  rewrite fmap_cons in Hnd. apply NoDup_cons in Hnd as [Hr Hnd].
  cbn [foldl]. rewrite IH by done. cbn [Store.update_item Store.batch_items].
  rewrite fmap_cons.
  destruct (decide (i = r.1)) as [->|Hne].
  - rewrite decide_False by done. rewrite decide_True by set_solver.
    apply list_lookup_alter_eq.
  - rewrite list_lookup_alter_ne by done.
    destruct (decide (i ∈ rows.*1)).
    + by rewrite decide_True by set_solver.
    + by rewrite decide_False by set_solver.
Qed.

(** A query followed by an update loop over its rows rewrites the rows
    that satisfy the query, and no other row. *)
Lemma update_query_items p f s :
  Store.batch_items (update_rows (Store.query_items p s) f s)
  = (λ it, if p it then f it else it) <$> Store.batch_items s.
Proof.
  apply list_eq; intros i.
  rewrite update_rows_lookup by apply query_items_NoDup.
  rewrite list_lookup_fmap.
  destruct (Store.batch_items s !! i) as [it|] eqn:Hit; simpl.
  - destruct (p it) eqn:Hp.
    + rewrite decide_True; [done|].
      apply list_elem_of_fmap. exists (i, it). split; [done|].
      by apply query_items_elem.
    + rewrite decide_False; [done|].
      intros ([i' it'] & Hi & Hin)%list_elem_of_fmap. simpl in Hi. subst i'.
      apply query_items_elem in Hin as [? ?]. congruence.
  - by case_decide.
Qed.

Lemma markAllItemsInstalling_items pf s id :
  Store.batch_items (_markAllItemsInstalling pf s id)
  = mark_installing id (now pf) <$> Store.batch_items s.
Proof. unfold _markAllItemsInstalling. by rewrite update_query_items. Qed.

Lemma updateQueuedItemsState_items s id :
  Store.batch_items (_updateQueuedItemsState s id skipped)
  = mark_skipped id <$> Store.batch_items s.
Proof. unfold _updateQueuedItemsState. by rewrite update_query_items. Qed.

(** X8. Starting a batch changes its queued items, and nothing else in
    the item table: each becomes [installing] with the time of the call as
    [start_time]; items of other batches and items in any other state are
    left as they are. No item of the batch is queued afterwards. *)
Theorem executeBatchInstall_marks_queued_items pf run lg s id b :
  Store.batch_requests s !! id = Some b →
  BatchRequest.state b ≠ in_progress →
  let s' := (executeBatchInstall pf run lg s id).2 in
  Store.batch_items s' = mark_installing id (now pf) <$> Store.batch_items s ∧
  Forall (λ it, BatchItem.batch_request it = id → BatchItem.state it ≠ queued)
    (Store.batch_items s').
Proof.
  intros Hb Hst.
  assert (Store.batch_items (executeBatchInstall pf run lg s id).2
          = mark_installing id (now pf) <$> Store.batch_items s) as Hitems.
  { unfold executeBatchInstall. rewrite Hb.
    rewrite bool_decide_eq_false_2 by done.
    unfold ActivityLogger.log. cbv zeta beta iota.
    match goal with |- context [run ?a] => destruct (run a) end;
      cbn -[_markAllItemsInstalling];
      by rewrite markAllItemsInstalling_items. }
  cbv zeta. split; [done|]. rewrite Hitems.
  apply Forall_fmap, Forall_forall. intros it _. simpl.
  unfold mark_installing, of_batch.
  destruct (bool_decide (BatchItem.batch_request it = id)) eqn:Hid;
    destruct (bool_decide (BatchItem.state it = queued)) eqn:Hq; simpl.
  - done.
  - intros _. by apply bool_decide_eq_false in Hq.
  - intros ?. by apply bool_decide_eq_false in Hid.
  - intros ?. by apply bool_decide_eq_false in Hid.
Qed.

Lemma executeBatchInstall_marks_queued_items_witness :
  let s := (createBatchRequest CreateSpec.demo_platform ActivityLogger.initialize
              Store.empty "v1,v2" CreateSpec.no_create_options).2 in
  let s' := (executeBatchInstall CreateSpec.demo_platform CreateSpec.demo_runner
               ActivityLogger.initialize s "0").2 in
  Store.batch_items s'
  = mark_installing "0" 1000 <$> Store.batch_items s ∧
  Forall (λ it, BatchItem.batch_request it = "0" → BatchItem.state it ≠ queued)
    (Store.batch_items s').
Proof.
  eapply (executeBatchInstall_marks_queued_items CreateSpec.demo_platform
            CreateSpec.demo_runner); [by vm_compute|by vm_compute].
Defined.

(** X9. Cancelling a batch turns its queued and installing items to
    [skipped] and changes nothing else in the item table; afterwards every
    item of the batch is completed, failed or skipped. *)
Theorem cancelBatchInstall_skips_pending_items pf lg s id b :
  Store.batch_requests s !! id = Some b →
  let s' := (cancelBatchInstall pf lg s id).2 in
  Store.batch_items s' = mark_skipped id <$> Store.batch_items s ∧
  Forall (λ it, BatchItem.batch_request it = id →
                BatchItem.state it ∈ [item_completed; item_failed; skipped])
    (Store.batch_items s').
Proof.
  intros Hb.
  assert (Store.batch_items (cancelBatchInstall pf lg s id).2
          = mark_skipped id <$> Store.batch_items s) as Hitems.
  { unfold cancelBatchInstall. rewrite Hb.
    unfold ActivityLogger.log. cbv zeta beta iota.
    cbn -[_updateQueuedItemsState].
    by rewrite updateQueuedItemsState_items. }
  cbv zeta. split; [done|]. rewrite Hitems.
  apply Forall_fmap, Forall_forall. intros it _. simpl.
  unfold mark_skipped, of_batch.
  destruct (bool_decide (BatchItem.batch_request it = id)) eqn:Hid; simpl.
  - intros _. destruct (BatchItem.state it) eqn:Hs; simpl;
      rewrite ?Hs; set_solver.
  - intros ?. by apply bool_decide_eq_false in Hid.
Qed.

Lemma cancelBatchInstall_skips_pending_items_witness :
  let s' := (cancelBatchInstall CreateSpec.demo_platform ActivityLogger.initialize
               Scenario.started "0").2 in
  Store.batch_items s' = mark_skipped "0" <$> Store.batch_items Scenario.started ∧
  Forall (λ it, BatchItem.batch_request it = "0" →
                BatchItem.state it ∈ [item_completed; item_failed; skipped])
    (Store.batch_items s').
Proof.
  eapply (cancelBatchInstall_skips_pending_items CreateSpec.demo_platform).
  by vm_compute.
Defined.
End bulk_update.

(* ===================================================================== *)
(** * The orchestrator: what is created, and what is handed to the flow   *)
(* ===================================================================== *)
Section orchestrator_flow.
Import BatchUpdateManager ItemSpec CreateSpec.

Local Abbreviation on_item f := (prod_map (@id nat) f).

Lemma filter_imap_fmap (p : BatchItem.t → bool) (f : BatchItem.t → BatchItem.t)
    (l : list BatchItem.t) :
  (∀ it, p (f it) = p it) →
  ∀ g : nat → nat,
    filter (λ row : nat * BatchItem.t, p row.2 = true)
      (imap (λ i it, (g i, it)) (f <$> l))
    = on_item f <$> filter (λ row : nat * BatchItem.t, p row.2 = true)
                      (imap (λ i it, (g i, it)) l).
Proof.
  intros Hp. induction l as [|it l IH]; intros g; [done|].
  rewrite fmap_cons. cbn [imap].
  specialize (IH (g ∘ S)).
  destruct (p it) eqn:Hit.
  - rewrite !filter_cons_True by (simpl; congruence).
    rewrite fmap_cons. f_equal. exact IH.
  - rewrite !filter_cons_False by (simpl; congruence). exact IH.
Qed.

Lemma query_items_fmap p f s s' :
  Store.batch_items s' = f <$> Store.batch_items s →
  (∀ it, p (f it) = p it) →
  Store.query_items p s' = on_item f <$> Store.query_items p s.
Proof.
  intros Hitems Hp. unfold Store.query_items. rewrite Hitems.
  by apply (filter_imap_fmap p f _ Hp (λ i, i)).
Qed.

Lemma insert_by_order_fmap f row rows :
  (∀ it, BatchItem.install_order (f it) = BatchItem.install_order it) →
  Store.insert_by_order (on_item f row) (on_item f <$> rows)
  = on_item f <$> Store.insert_by_order row rows.
Proof.
  intros Hf. destruct row as [i it].
  induction rows as [|[j jt] rows IH]; [done|].
  rewrite fmap_cons. simpl. rewrite !Hf.
  destruct (_ <=? _)%Z; [|done]. simpl in IH. by rewrite IH.
Qed.

Lemma order_by_install_order_fmap f rows :
  (∀ it, BatchItem.install_order (f it) = BatchItem.install_order it) →
  Store.order_by_install_order (on_item f <$> rows)
  = on_item f <$> Store.order_by_install_order rows.
Proof.
  intros Hf. unfold Store.order_by_install_order.
  change (@nil (nat * BatchItem.t)) with (on_item f <$> @nil (nat * BatchItem.t)) at 1.
  generalize (@nil (nat * BatchItem.t)) as acc.
  induction rows as [|r rows IH]; intros acc; [done|].
  rewrite fmap_cons. cbn [foldl]. rewrite insert_by_order_fmap by done.
  apply IH.
Qed.

(** The identifiers handed to the flow only depend on the batch, the
    install order and the version of each item. *)
Lemma getAppVersionSysIds_fmap f s s' id :
  Store.batch_items s' = f <$> Store.batch_items s →
  (∀ it, BatchItem.batch_request (f it) = BatchItem.batch_request it ∧
         BatchItem.install_order (f it) = BatchItem.install_order it ∧
         BatchItem.app_version (f it) = BatchItem.app_version it) →
  _getAppVersionSysIds s' id = _getAppVersionSysIds s id.
Proof.
  intros Hitems Hf. unfold _getAppVersionSysIds. f_equal.
  rewrite (query_items_fmap _ f s s' Hitems)
    by (intros it; unfold of_batch; by rewrite (proj1 (Hf it))).
  rewrite order_by_install_order_fmap by (intros it; apply Hf).
  rewrite <- list_fmap_compose. apply list_fmap_ext.
  intros i [j it] _. simpl. apply Hf.
Qed.

Lemma mark_installing_keeps id now it :
  BatchItem.batch_request (mark_installing id now it) = BatchItem.batch_request it ∧
  BatchItem.install_order (mark_installing id now it) = BatchItem.install_order it ∧
  BatchItem.app_version (mark_installing id now it) = BatchItem.app_version it.
Proof. unfold mark_installing. by destruct (_ && _). Qed.

(** The install flow is run on the identifiers that the batch had before
    the call: marking the items does not change them. *)
Lemma executeBatchInstall_apps pf run lg s id :
  executeBatchInstall pf run lg s id
  = executeBatchInstall pf (λ _, run (_getAppVersionSysIds s id)) lg s id.
Proof.
  unfold executeBatchInstall.
  destruct (Store.batch_requests s !! id) as [b|]; [|done].
  case_bool_decide; [done|].
  unfold ActivityLogger.log. cbv zeta beta iota.
  match goal with |- context [run (_getAppVersionSysIds ?s1 id)] =>
    rewrite (getAppVersionSysIds_fmap (mark_installing id (now pf)) s s1 id)
  end.
  - done.
  - by rewrite markAllItemsInstalling_items.
  - intros it. apply mark_installing_keeps.
Qed.

(** The batch request after a start that was not refused. *)
Lemma executeBatchInstall_batch pf run lg s id b :
  Store.batch_requests s !! id = Some b →
  BatchRequest.state b ≠ in_progress →
  Store.batch_requests (executeBatchInstall pf run lg s id).2 !! id
  = Some match run (_getAppVersionSysIds s id) with
         | flow_outputs pw _ =>
             BatchRequest.set_progress_worker (Some pw)
               (BatchRequest.set_actual_start (Some (now pf))
                  (BatchRequest.set_state in_progress b))
         | flow_throws err =>
             BatchRequest.set_actual_end (Some (now pf))
               (BatchRequest.set_error_summary (Some err)
                  (BatchRequest.set_state failed
                     (BatchRequest.set_actual_start (Some (now pf))
                        (BatchRequest.set_state in_progress b))))
         end.
Proof.
  intros Hb Hst. rewrite executeBatchInstall_apps.
  unfold executeBatchInstall. rewrite Hb.
  rewrite bool_decide_eq_false_2 by done.
  unfold ActivityLogger.log. cbv zeta beta iota.
  destruct (run (_getAppVersionSysIds s id)) as [pw msg|err];
    unfold Store.update_batch, Store.insert_log, _markAllItemsInstalling;
    cbn [snd Store.batch_requests]; rewrite update_rows_batch_requests;
    cbn [Store.batch_requests]; by rewrite !lookup_alter_eq, Hb.
Qed.

(** X10. Starting a batch that is not running stamps [actual_start] and
    runs the install flow on the app version ids of the batch's items, in
    install order. If the flow hands back its outputs the call succeeds,
    the batch is [in_progress] and the progress worker is recorded; if the
    flow throws, the call fails with the exception's message, which becomes
    the [error_summary] of the batch, now [failed] and ended. *)
Theorem executeBatchInstall_outcome pf run lg s id b :
  Store.batch_requests s !! id = Some b →
  BatchRequest.state b ≠ in_progress →
  ∃ r lg' s' b',
    executeBatchInstall pf run lg s id = (r, lg', s') ∧
    Store.batch_requests s' !! id = Some b' ∧
    BatchRequest.actual_start b' = Some (now pf) ∧
    match run (_getAppVersionSysIds s id) with
    | flow_outputs pw msg =>
        r = {| success := true;
               message := JS.or_else msg "Installation started";
               batchRequestId := Some id; totalApps := None;
               progressWorkerId := Some pw |} ∧
        BatchRequest.state b' = in_progress ∧
        BatchRequest.progress_worker b' = Some pw ∧
        BatchRequest.error_summary b' = BatchRequest.error_summary b ∧
        BatchRequest.actual_end b' = BatchRequest.actual_end b
    | flow_throws err =>
        r = failure err None ∧
        BatchRequest.state b' = failed ∧
        BatchRequest.error_summary b' = Some err ∧
        BatchRequest.actual_end b' = Some (now pf)
    end.
Proof.
  intros Hb Hst.
  pose proof (executeBatchInstall_batch pf run lg s id b Hb Hst) as Hb'.
  rewrite executeBatchInstall_apps in Hb' |- *.
  unfold executeBatchInstall in Hb' |- *. rewrite Hb in Hb' |- *.
  rewrite bool_decide_eq_false_2 in Hb' |- * by done.
  unfold ActivityLogger.log in Hb' |- *. cbv zeta beta iota in Hb' |- *.
  destruct (run (_getAppVersionSysIds s id)) as [pw msg|err].
  - eexists _, _, _, _. split; [reflexivity|].
    split; [exact Hb'|]. by destruct b.
  - eexists _, _, _, _. split; [reflexivity|].
    split; [exact Hb'|]. by destruct b.
Qed.

Lemma executeBatchInstall_outcome_witness :
  ∃ r lg' s' b',
    executeBatchInstall demo_platform (λ _, flow_throws "no runner")
      ActivityLogger.initialize Scenario.finished "0" = (r, lg', s') ∧
    Store.batch_requests s' !! "0" = Some b' ∧
    r = failure "no runner" None ∧
    BatchRequest.state b' = failed ∧
    BatchRequest.error_summary b' = Some "no runner".
Proof.
  destruct (executeBatchInstall_outcome demo_platform (λ _, flow_throws "no runner")
              ActivityLogger.initialize Scenario.finished "0"
              (BatchRequest.set_overall_progress 100
                 (BatchRequest.set_state completed
                    (new_batch demo_platform 1 no_create_options))))
    as (r & lg' & s' & b' & Hrun & Hb & _ & Hr & Hst & Herr & _);
    [by vm_compute|by vm_compute|].
  by exists r, lg', s', b'.
Defined.

(** X11. A batch that was started successfully cannot be started again:
    the second call is refused and changes neither the store nor the
    logger, whatever the clock and the flow runner are by then. *)
Theorem executeBatchInstall_refuses_running_batch pf run pf' run' lg s id :
  success (executeBatchInstall pf run lg s id).1.1 = true →
  let '(_, lg', s') := executeBatchInstall pf run lg s id in
  executeBatchInstall pf' run' lg' s' id
  = (failure "Batch is already running" None, lg', s').
Proof.
  intros Hok.
  destruct (Store.batch_requests s !! id) as [b|] eqn:Hb.
  - destruct (executeBatchInstall_spec pf run lg s id b Hb) as [Hrunning Hstart].
    destruct (decide (BatchRequest.state b = in_progress)) as [Hst|Hst].
    + rewrite Hrunning in Hok by done. done.
    + destruct (Hstart Hst) as (r & lg' & s' & b' & apps & Hrun & Hb' & Hst' & Hr & _).
      rewrite Hrun in Hok |- *. simpl in Hok.
      destruct (run apps); [|congruence].
      by apply (executeBatchInstall_spec pf' run' lg' s' id b' Hb').
  - unfold executeBatchInstall in Hok. by rewrite Hb in Hok.
Qed.

Lemma executeBatchInstall_refuses_running_batch_witness :
  let '(_, lg', s') :=
    executeBatchInstall demo_platform demo_runner ActivityLogger.initialize
      Scenario.finished "0" in
  executeBatchInstall demo_platform demo_runner lg' s' "0"
  = (failure "Batch is already running" None, lg', s').
Proof.
  apply (executeBatchInstall_refuses_running_batch demo_platform demo_runner
           demo_platform demo_runner ActivityLogger.initialize Scenario.finished "0").
  by vm_compute.
Defined.

(** X12. A batch id that names no batch request is rejected by the start
    and by the cancellation with the message 'Batch request not found';
    nothing is written, no log entry included. The cancel resource answers
    500, not 404, in this case. *)
Theorem unknown_batch_is_rejected pf run lg s id :
  Store.batch_requests s !! id = None →
  executeBatchInstall pf run lg s id
  = (failure "Batch request not found" None, lg, s) ∧
  cancelBatchInstall pf lg s id
  = (failure "Batch request not found" None, lg, s) ∧
  (JS.truthy id = true →
   UpdateCenterAPI.postCancel pf s id
   = ({| UpdateCenterAPI.status := 500;
         UpdateCenterAPI.body := Some (failure "Batch request not found" None);
         UpdateCenterAPI.execution := None |}, s)).
Proof.
  intros Hb. split_and!.
  - unfold executeBatchInstall. by rewrite Hb.
  - unfold cancelBatchInstall. by rewrite Hb.
  - intros Hid. unfold UpdateCenterAPI.postCancel, cancelBatchInstall.
    by rewrite Hid, Hb.
Qed.

Lemma unknown_batch_is_rejected_witness :
  cancelBatchInstall demo_platform ActivityLogger.initialize Store.empty "42"
  = (failure "Batch request not found" None, ActivityLogger.initialize, Store.empty) ∧
  UpdateCenterAPI.postCancel demo_platform Store.empty "42"
  = ({| UpdateCenterAPI.status := 500;
        UpdateCenterAPI.body := Some (failure "Batch request not found" None);
        UpdateCenterAPI.execution := None |}, Store.empty).
Proof.
  destruct (unknown_batch_is_rejected demo_platform demo_runner
              ActivityLogger.initialize Store.empty "42") as (_ & Hc & Hp);
    [done|].
  split; [exact Hc|]. by apply Hp.
Defined.
End orchestrator_flow.

(* ===================================================================== *)
(** * Creation: the items of a new batch                                  *)
(* ===================================================================== *)
Section created_items.
Import BatchUpdateManager ItemSpec CreateSpec.

Lemma create_items_loop_orders pf batchId ids :
  ∀ order s,
    ∃ new,
      Store.batch_items (create_items_loop pf batchId ids order s)
      = Store.batch_items s ++ new ∧
      BatchItem.install_order <$> new
      = (λ k : nat, (order + 100 * Z.of_nat k)%Z) <$> seq 0 (length new).
Proof.
  induction ids as [|raw ids IH]; intros order s; simpl.
  - exists []. by rewrite app_nil_r.
  - destruct (JS.truthy (JS.trim raw)); simpl; [|apply IH].
    destruct (sys_app_version pf !! JS.trim raw) as [ver|]; [|apply IH].
    destruct (IH (order + 100)%Z
      (Store.insert_item (new_item pf batchId (JS.trim raw) ver order) s))
      as (new & Hnew & Hord).
    eexists (_ :: new). split.
    + rewrite Hnew. simpl. by rewrite <- app_assoc.
    + rewrite fmap_cons. cbn [length seq]. rewrite fmap_cons.
      f_equal; [cbn; lia|].
      rewrite Hord, <- fmap_S_seq, <- list_fmap_compose.
      apply list_fmap_ext. intros i k _. simpl. lia.
Qed.

Lemma steps_sorted (order : Z) (n : nat) :
  StronglySorted Z.le ((λ k : nat, (order + 100 * Z.of_nat k)%Z) <$> seq 0 n).
Proof.
  generalize 0. induction n as [|n IH]; intros a; simpl; constructor.
  - apply IH.
  - apply Forall_fmap, Forall_forall. intros k Hk. apply elem_of_seq in Hk.
    simpl. lia.
Qed.

Lemma filter_imap_none (p : BatchItem.t → bool) (l : list BatchItem.t) :
  Forall (λ it, p it = false) l →
  ∀ g : nat → nat,
    filter (λ row : nat * BatchItem.t, p row.2 = true)
      (imap (λ i it, (g i, it)) l) = [].
Proof.
  induction 1 as [|it l Hit _ IH]; intros g; [done|].
  cbn [imap]. rewrite filter_cons_False by (simpl; congruence).
  apply (IH (g ∘ S)).
Qed.

Lemma filter_imap_all (p : BatchItem.t → bool) (l : list BatchItem.t) :
  Forall (λ it, p it = true) l →
  ∀ g : nat → nat,
    (filter (λ row : nat * BatchItem.t, p row.2 = true)
       (imap (λ i it, (g i, it)) l)).*2 = l.
Proof.
  induction 1 as [|it l Hit _ IH]; intros g; [done|].
  cbn [imap]. rewrite filter_cons_True by done.
  rewrite fmap_cons. simpl. f_equal. apply (IH (g ∘ S)).
Qed.

Lemma rows_sorted (rows : list (nat * BatchItem.t)) :
  StronglySorted Z.le (BatchItem.install_order <$> rows.*2) →
  StronglySorted order_le rows.
Proof.
  induction rows as [|r rows IH]; [constructor|].
  rewrite !fmap_cons. intros [Hs Hr]%StronglySorted_inv.
  constructor; [by apply IH|].
  rewrite !Forall_fmap in Hr.
  eapply Forall_impl; [exact Hr|]. intros x Hx. exact Hx.
Qed.

(** The rows of a batch whose items were appended to the table in
    install order are these items, in this order. *)
Lemma batch_rows_appended p s old new :
  Store.batch_items s = old ++ new →
  Forall (λ it, p it = false) old →
  Forall (λ it, p it = true) new →
  StronglySorted Z.le (BatchItem.install_order <$> new) →
  (Store.order_by_install_order (Store.query_items p s)).*2 = new.
Proof.
  intros Hitems Hold Hnew Hsorted.
  assert ((Store.query_items p s).*2 = new) as Hq.
  { unfold Store.query_items. rewrite Hitems, imap_app, filter_app.
    rewrite (filter_imap_none p old Hold (λ i, i)). simpl.
    apply (filter_imap_all p new Hnew). }
  rewrite order_by_install_order_id; [done|].
  apply rows_sorted. by rewrite Hq.
Qed.

(** What [createBatchRequest] leaves in the store: the new items, appended
    to the item table by [_createBatchItems], and the manifest built from
    them. *)
Lemma createBatchRequest_created pf lg s input options :
  ∃ s1 new,
    Store.batch_items (createBatchRequest pf lg s input options).2
    = Store.batch_items s1 ∧
    Store.batch_items s1 = Store.batch_items s ++ new ∧
    BatchItem.app_version <$> new
    = filter (resolves pf) (JS.trim <$> JS.split "," input) ∧
    Forall (λ it, BatchItem.batch_request it = Store.fresh s ∧
                  BatchItem.state it = queued) new ∧
    BatchItem.install_order <$> new
    = (λ k : nat, (100 + 100 * Z.of_nat k)%Z) <$> seq 0 (length new) ∧
    Store.batch_requests (createBatchRequest pf lg s input options).2
      !! Store.fresh s
    = Some (BatchRequest.set_batch_manifest
              (Some (_buildManifest s1 (Store.fresh s)))
              (new_batch pf (Z.of_nat (length (JS.split "," input))) options)).
Proof.
  unfold createBatchRequest.
  rewrite bool_decide_eq_false_2
    by (pose proof (split_nonempty "," input); by destruct (JS.split "," input)).
  unfold Store.insert_batch, ActivityLogger.log, _createBatchItems.
  cbv zeta beta iota.
  match goal with |- context [create_items_loop pf ?b ?l ?o ?st] =>
    destruct (create_items_loop_spec pf b l o st)
      as (Hbr & _ & new & Hnew & Hids & Hall);
    destruct (create_items_loop_orders pf b l o st) as (new' & Hnew' & Hord);
    set (s1 := create_items_loop pf b l o st) in *; exists s1, new
  end.
  cbn [negb]. cbv iota.
  rewrite Hnew in Hnew'. apply app_inv_head in Hnew'. subst new'.
  split_and!; [reflexivity|done..|].
  unfold Store.update_batch, Store.insert_log. cbn [snd Store.batch_requests].
  rewrite Hbr. cbn [Store.batch_requests Store.insert_log].
  by rewrite lookup_alter_eq, lookup_insert_eq.
Qed.

(** On a store without items of the new batch, the rows of the batch in
    install order are the created items. *)
Lemma created_rows s new t :
  no_items_of (Store.fresh s) s →
  Forall (λ it, BatchItem.batch_request it = Store.fresh s ∧
                BatchItem.state it = queued) new →
  BatchItem.install_order <$> new
  = (λ k : nat, (100 + 100 * Z.of_nat k)%Z) <$> seq 0 (length new) →
  Store.batch_items t = Store.batch_items s ++ new →
  (Store.order_by_install_order
     (Store.query_items (of_batch (Store.fresh s)) t)).*2 = new.
Proof.
  intros Hfresh Hall Hord Ht.
  apply (batch_rows_appended _ t (Store.batch_items s) new).
  - done.
  - eapply Forall_impl; [exact Hfresh|]. intros it Hit. simpl in Hit.
    unfold of_batch. by apply bool_decide_eq_false.
  - eapply Forall_impl; [exact Hall|]. intros it [Hit _].
    unfold of_batch. by apply bool_decide_eq_true.
  - rewrite Hord. apply steps_sorted.
Qed.

(** X13. On a store where no item refers to the identifier that the new
    batch request receives, the items of the new batch, read in install
    order, are one per submitted identifier that resolves, in the order of
    submission: they are queued and carry the install orders 100, 200, ....
    The manifest stored on the batch request lists one package per item in
    the same order, and the identifiers later handed to the install flow
    are the resolved ones joined by commas. *)
Theorem createBatchRequest_items_in_order pf lg s input options :
  no_items_of (Store.fresh s) s →
  let ids := filter (resolves pf) (JS.trim <$> JS.split "," input) in
  let s' := (createBatchRequest pf lg s input options).2 in
  let items :=
    (Store.order_by_install_order
       (Store.query_items (of_batch (Store.fresh s)) s')).*2 in
  BatchItem.app_version <$> items = ids ∧
  BatchItem.install_order <$> items
  = (λ k : nat, (100 * (Z.of_nat k + 1))%Z) <$> seq 0 (length ids) ∧
  Forall (λ it, BatchItem.state it = queued) items ∧
  _getAppVersionSysIds s' (Store.fresh s) = JS.join "," ids ∧
  ∃ b m,
    Store.batch_requests s' !! Store.fresh s = Some b ∧
    BatchRequest.batch_manifest b = Some m ∧
    pkg_id <$> packages m = BatchItem.application <$> items ∧
    requested_version <$> packages m = BatchItem.to_version <$> items.
Proof.
  intros Hfresh ids s' items.
  destruct (createBatchRequest_created pf lg s input options)
    as (s1 & new & Hs' & Hnew & Hids & Hall & Hord & Hb).
  fold s' in Hs', Hb. fold ids in Hids.
  assert (∀ t, Store.batch_items t = Store.batch_items s1 →
            (Store.order_by_install_order
               (Store.query_items (of_batch (Store.fresh s)) t)).*2 = new)
    as Hrows.
  { intros t Ht. apply (created_rows s new t); [done..|]. by rewrite Ht. }
  assert (items = new) as -> by (by apply Hrows).
  assert (length new = length ids) as Hlen
    by (by rewrite <- Hids, length_fmap).
  split_and!.
  - done.
  - rewrite Hord, Hlen. apply list_fmap_ext. intros; lia.
  - eapply Forall_impl; [exact Hall|]. by intros it [_ ?].
  - unfold _getAppVersionSysIds. f_equal.
    rewrite <- Hids, <- (Hrows s' Hs'). by rewrite <- list_fmap_compose.
  - eexists _, _. split; [exact Hb|]. split; [reflexivity|].
    unfold _buildManifest. cbn [BatchRequest.batch_manifest packages].
    rewrite <- (Hrows s1 eq_refl), <- !list_fmap_compose. done.
Qed.

Lemma createBatchRequest_items_in_order_witness :
  let s' := (createBatchRequest demo_platform ActivityLogger.initialize
               Store.empty spaced_input no_create_options).2 in
  let items :=
    (Store.order_by_install_order (Store.query_items (of_batch "0") s')).*2 in
  BatchItem.app_version <$> items = ["v1"; "v2"] ∧
  BatchItem.install_order <$> items = [100; 200]%Z ∧
  _getAppVersionSysIds s' "0" = "v1,v2".
Proof.
  destruct (createBatchRequest_items_in_order demo_platform
              ActivityLogger.initialize Store.empty spaced_input no_create_options)
    as (Hids & Hord & _ & Happs & _); [by constructor|].
  split_and!; [exact Hids|exact Hord|exact Happs].
Defined.
End created_items.

(* ===================================================================== *)
(** * POST /batch-install                                                 *)
(* ===================================================================== *)
Section rest_install.
Import BatchUpdateManager ItemSpec CreateSpec UpdateCenterAPI.

(** X14. An install request that asks for immediate execution answers 201
    with the execution result attached, whether or not the install flow
    could be started. The flow receives the submitted identifiers that
    resolve, trimmed, in the order of submission and joined by commas. If
    it throws, the response still is 201 with a successful creation result:
    the failure shows in the execution result and on the batch request,
    which is [failed] with the exception's message as [error_summary]. *)
Theorem postBatchInstall_runs_flow_on_resolved_ids pf run s req :
  no_items_of (Store.fresh s) s →
  JS.truthy (appVersionSysIds req) = true →
  execute req = true →
  ActivityLogger.if_truthy (scheduledStart (body_options req)) = None →
  let ids := filter (resolves pf)
               (JS.trim <$> JS.split "," (appVersionSysIds req)) in
  ∃ r e s' b,
    postBatchInstall pf run s req
    = ({| status := 201; body := Some r; execution := Some e |}, s') ∧
    success r = true ∧ batchRequestId r = Some (Store.fresh s) ∧
    Store.batch_requests s' !! Store.fresh s = Some b ∧
    match run (JS.join "," ids) with
    | flow_outputs pw msg =>
        success e = true ∧ progressWorkerId e = Some pw ∧
        BatchRequest.state b = in_progress ∧
        BatchRequest.progress_worker b = Some pw
    | flow_throws err =>
        e = failure err None ∧
        BatchRequest.state b = failed ∧
        BatchRequest.error_summary b = Some err
    end.
Proof.
  intros Hfresh Htruthy Hexec Hsched ids.
  destruct (createBatchRequest_created pf ActivityLogger.initialize s
              (appVersionSysIds req) (body_options req))
    as (s1 & new & Hs' & Hnew & Hids & Hall & Hord & _).
  destruct (createBatchRequest_spec pf ActivityLogger.initialize s
              (appVersionSysIds req) (body_options req))
    as (s' & _ & _ & _ & b & Hcreate & _ & _ & _ & _ & _ & _ & Hb & _ & Hst & _).
  rewrite Hcreate in Hs'. cbn [snd] in Hs'.
  assert (_getAppVersionSysIds s' (Store.fresh s) = JS.join "," ids) as Happs.
  { unfold _getAppVersionSysIds. f_equal. subst ids. rewrite <- Hids.
    pose proof (created_rows s new s' Hfresh Hall Hord) as Hrows.
    rewrite <- Hrows by (by rewrite Hs').
    by rewrite <- list_fmap_compose. }
  rewrite Hsched in Hst.
  assert (BatchRequest.state b ≠ in_progress) as Hidle by (by rewrite Hst).
  pose proof (executeBatchInstall_batch pf run
                (ActivityLogger.initialize + 1 + 1)%Z s' (Store.fresh s) b Hb Hidle)
    as Hb'.
  rewrite Happs in Hb'.
  unfold postBatchInstall. rewrite Htruthy, Hcreate. cbn [negb success].
  rewrite Hexec, Hsched. cbn [batchRequestId default].
  rewrite bool_decide_eq_false_2 by (by intros [? ?]). cbn [negb andb].
  change (id (Store.fresh s)) with (Store.fresh s).
  rewrite executeBatchInstall_apps in Hb' |- *. rewrite Happs in Hb' |- *.
  unfold executeBatchInstall in Hb' |- *. rewrite Hb in Hb' |- *.
  rewrite bool_decide_eq_false_2 in Hb' |- * by done.
  unfold ActivityLogger.log in Hb' |- *. cbv zeta beta iota in Hb' |- *.
  destruct (run (JS.join "," ids)) as [pw msg|err].
  - eexists _, _, _, _. split; [reflexivity|].
    split_and!; [done|done|exact Hb'|done..].
  - eexists _, _, _, _. split; [reflexivity|].
    split_and!; [done|done|exact Hb'|done..].
Qed.

Lemma postBatchInstall_runs_flow_on_resolved_ids_witness :
  ∃ r e s' b,
    postBatchInstall demo_platform (λ _, flow_throws "no runner") Store.empty
      {| appVersionSysIds := spaced_input; execute := true;
         body_options := no_create_options |}
    = ({| status := 201; body := Some r; execution := Some e |}, s') ∧
    success r = true ∧
    Store.batch_requests s' !! "0" = Some b ∧
    e = failure "no runner" None ∧
    BatchRequest.state b = failed.
Proof.
  destruct (postBatchInstall_runs_flow_on_resolved_ids demo_platform
              (λ _, flow_throws "no runner") Store.empty
              {| appVersionSysIds := spaced_input; execute := true;
                 body_options := no_create_options |})
    as (r & e & s' & b & Hpost & Hr & _ & Hb & He & Hst & _);
    [by constructor|done|done|done|].
  by exists r, e, s', b.
Defined.

(** X15. An install request that is scheduled, or that asks not to
    execute, only creates the batch: the response is 201 without an
    execution result, the batch request is [scheduled] (or [draft] when no
    start is given), the items appended for it are all queued, and the
    install flow is not consulted: the outcome is the same for every flow
    runner. *)
Theorem postBatchInstall_deferred pf run s req :
  JS.truthy (appVersionSysIds req) = true →
  execute req = false ∨
  is_Some (ActivityLogger.if_truthy (scheduledStart (body_options req))) →
  (∃ r s' b new,
     postBatchInstall pf run s req
     = ({| status := 201; body := Some r; execution := None |}, s') ∧
     success r = true ∧ batchRequestId r = Some (Store.fresh s) ∧
     Store.batch_requests s' !! Store.fresh s = Some b ∧
     BatchRequest.state b
     = match ActivityLogger.if_truthy (scheduledStart (body_options req)) with
       | Some _ => scheduled
       | None => draft
       end ∧
     BatchRequest.actual_start b = None ∧
     Store.batch_items s' = Store.batch_items s ++ new ∧
     Forall (λ it, BatchItem.state it = queued) new) ∧
  ∀ run', postBatchInstall pf run' s req = postBatchInstall pf run s req.
Proof.
  intros Htruthy Hdefer.
  assert (execute req &&
          negb (bool_decide (is_Some (ActivityLogger.if_truthy
                                        (scheduledStart (body_options req)))))
          = false) as Hcond.
  { destruct Hdefer as [->|Hs]; [done|].
    rewrite (bool_decide_eq_true_2 _ Hs). apply andb_false_r. }
  destruct (createBatchRequest_created pf ActivityLogger.initialize s
              (appVersionSysIds req) (body_options req))
    as (s1 & new & Hs' & Hnew & _ & Hall & _ & Hb).
  destruct (createBatchRequest_spec pf ActivityLogger.initialize s
              (appVersionSysIds req) (body_options req))
    as (s' & _ & _ & _ & b & Hcreate & _).
  rewrite Hcreate in Hs', Hb. cbn [snd] in Hs', Hb.
  split.
  - unfold postBatchInstall. rewrite Htruthy, Hcreate. cbn [negb success].
    rewrite Hcond. eexists _, s', _, new. split; [reflexivity|].
    split_and!; [done|done|exact Hb|done|done|by rewrite Hs'|].
    eapply Forall_impl; [exact Hall|]. by intros it [_ ?].
  - intros run'. unfold postBatchInstall. rewrite Htruthy, Hcreate.
    cbn [negb success]. by rewrite Hcond.
Qed.

Lemma postBatchInstall_deferred_witness :
  ∃ r s' b,
    postBatchInstall demo_platform demo_runner Store.empty
      {| appVersionSysIds := "v1,v2"; execute := true;
         body_options := {| scheduledStart := Some "2030-01-01 00:00:00";
                            notes := None |} |}
    = ({| status := 201; body := Some r; execution := None |}, s') ∧
    Store.batch_requests s' !! "0" = Some b ∧
    BatchRequest.state b = scheduled.
Proof.
  destruct (postBatchInstall_deferred demo_platform demo_runner Store.empty
              {| appVersionSysIds := "v1,v2"; execute := true;
                 body_options := {| scheduledStart := Some "2030-01-01 00:00:00";
                                    notes := None |} |})
    as [(r & s' & b & new & Hpost & _ & _ & Hb & Hst & _) _];
    [done|right; by eexists|].
  by exists r, s', b.
Defined.
End rest_install.

(* ===================================================================== *)
(** * Progress Reconciler: when the loop ends, and what it records        *)
(* ===================================================================== *)
Section reconciler_end.
Import MonitorProgress MonitorSpec ReconcilerSpec.

Lemma finalizeBatch_outputs now st msg m :
  ∃ final, outputs (_finalizeBatch now st msg m) = Some (final, msg) ∧
           (final = partial ∨ final = st).
Proof.
  unfold _finalizeBatch. cbn -[pretty].
  eexists. split; [reflexivity|]. destruct (_ && _); auto.
Qed.

Lemma poll_worker_missing o m :
  obs_worker o = None →
  (obs_now o - startTime m ≤ MAX_POLL_TIME_MS)%Z →
  poll o m
  = if (20 <? pollCount m + 1)%Z
    then (_finalizeBatch (obs_now o) failed "Progress worker not found"
            (log error installation
               "Progress worker not found after extended polling"
               ActivityLogger.no_options
               (with_pollCount (pollCount m + 1) m)), true)
    else (with_pollCount (pollCount m + 1) m, false).
Proof.
  intros Hw Ht. unfold poll. cbv zeta. rewrite Hw.
  cbn [startTime with_pollCount pollCount].
  by rewrite (proj2 (Z.ltb_ge _ _) Ht).
Qed.

(** X16. While the progress worker cannot be read and the two hours have
    not passed, the script only counts its polls: the first twenty
    iterations change nothing in the store and write no log entry. The
    twenty-first ends the loop, with the summary 'Progress worker not
    found' and the final state [failed], or [partial] when the batch has
    both completed and failed items. *)
Theorem worker_not_found_after_20_polls (obs : list Observation) (m : t) :
  pollCount m = 0%Z →
  Forall (λ o, obs_worker o = None ∧
               (obs_now o - startTime m ≤ MAX_POLL_TIME_MS)%Z) obs →
  (length obs ≤ 20 →
   poll_trace obs m
   = (λ k : nat, with_pollCount (Z.of_nat k) m) <$> seq 1 (length obs)) ∧
  (20 < length obs →
   ∃ m' final,
     poll_trace obs m
     = ((λ k : nat, with_pollCount (Z.of_nat k) m) <$> seq 1 20) ++ [m'] ∧
     outputs m' = Some (final, "Progress worker not found") ∧
     (final = partial ∨ final = failed)).
Proof.
  intros Hpc Hobs.
  assert (∀ (c : nat) obs, c ≤ 20 →
    Forall (λ o, obs_worker o = None ∧
                 (obs_now o - startTime m ≤ MAX_POLL_TIME_MS)%Z) obs →
    (c + length obs ≤ 20 →
     poll_trace obs (with_pollCount (Z.of_nat c) m)
     = (λ k : nat, with_pollCount (Z.of_nat k) m) <$> seq (S c) (length obs)) ∧
    (20 < c + length obs →
     ∃ m' final,
       poll_trace obs (with_pollCount (Z.of_nat c) m)
       = ((λ k : nat, with_pollCount (Z.of_nat k) m) <$> seq (S c) (20 - c))
         ++ [m'] ∧
       outputs m' = Some (final, "Progress worker not found") ∧
       (final = partial ∨ final = failed))) as Hgen.
  { clear obs Hobs. intros c obs. revert c.
    induction obs as [|o obs IH]; intros c Hc Hobs.
    - split; [done|]. simpl. lia.
    - apply Forall_cons in Hobs as [[Hw Ht] Hobs].
      cbn [poll_trace]. rewrite poll_worker_missing by done.
      change (pollCount (with_pollCount (Z.of_nat c) m)) with (Z.of_nat c).
      change (with_pollCount (Z.of_nat c + 1) (with_pollCount (Z.of_nat c) m))
        with (with_pollCount (Z.of_nat c + 1) m).
      destruct (Z.ltb_spec 20 (Z.of_nat c + 1)) as [Hlt|Hle]; cbv beta iota.
      + assert (c = 20) as -> by lia. split; [simpl; lia|].
        intros _.
        match goal with |- context [[_finalizeBatch ?n ?st ?msg ?mm]] =>
          destruct (finalizeBatch_outputs n st msg mm) as (final & Hout & Hfin);
          exists (_finalizeBatch n st msg mm), final
        end.
        split; [reflexivity|]. split; [exact Hout|done].
      + replace (Z.of_nat c + 1)%Z with (Z.of_nat (S c)) by lia.
        destruct (IH (S c)) as [IH1 IH2]; [lia|done|].
        simpl length. split.
        * intros Hlen. rewrite IH1 by lia. reflexivity.
        * intros Hlen.
          destruct IH2 as (m' & final & Htr & Hout & Hfin); [lia|].
          exists m', final. split; [|done]. rewrite Htr.
          replace (20 - c) with (S (20 - S c)) by lia. reflexivity. }
  assert (m = with_pollCount (Z.of_nat 0) m) as Hm
    by (destruct m; simpl in Hpc; by subst).
  destruct (Hgen 0 obs) as [H1 H2]; [lia|done|].
  rewrite <- Hm in H1, H2. split; [exact H1|exact H2].
Qed.

Lemma worker_not_found_after_20_polls_witness :
  poll_trace
    (replicate 3 {| obs_now := 3000; obs_worker := None; obs_store_app := ∅ |})
    (with_pollCount 0 Scenario.monitor0)
  = (λ k : nat, with_pollCount (Z.of_nat k) (with_pollCount 0 Scenario.monitor0))
      <$> seq 1 3.
Proof.
  apply (worker_not_found_after_20_polls
           (replicate 3 {| obs_now := 3000; obs_worker := None;
                           obs_store_app := ∅ |})
           (with_pollCount 0 Scenario.monitor0)).
  - reflexivity.
  - repeat constructor; vm_compute; discriminate.
  - simpl. lia.
Defined.

Lemma count_states_le (rows : list (nat * BatchItem.t)) :
  (count_state item_completed rows + count_state item_failed rows
   + count_state skipped rows ≤ Z.of_nat (length rows))%Z.
Proof.
  unfold count_state. induction rows as [|row rows IH]; [done|].
  destruct (BatchItem.state row.2) eqn:Hst;
    repeat (first [rewrite filter_cons_True by (by rewrite Hst)
                  |rewrite filter_cons_False by (by rewrite Hst)]);
    simpl length; lia.
Qed.

Lemma finalizeBatch_counters now st msg m b :
  Store.batch_requests (store m) !! batchRequestId m = Some b →
  let m' := _finalizeBatch now st msg m in
  let rows := Store.query_items
                (BatchUpdateManager.of_batch (batchRequestId m)) (store m') in
  ∃ b',
    Store.batch_requests (store m') !! batchRequestId m = Some b' ∧
    BatchRequest.completed_apps b' = count_state item_completed rows ∧
    BatchRequest.failed_apps b' = count_state item_failed rows ∧
    BatchRequest.skipped_apps b' = count_state skipped rows ∧
    BatchRequest.overall_progress b' = 100%Z ∧
    BatchRequest.actual_end b' = Some now ∧
    BatchRequest.state b'
    = (if (0 <? count_state item_failed rows)%Z &&
          (0 <? count_state item_completed rows)%Z
       then partial else st) ∧
    outputs m' = Some (BatchRequest.state b', msg).
Proof.
  intros Hb m' rows.
  assert (rows = Store.query_items
                   (BatchUpdateManager.of_batch (batchRequestId m)) (store m))
    as -> by reflexivity.
  subst m'. unfold _finalizeBatch. cbn -[pretty].
  rewrite lookup_alter_eq, Hb. cbn -[pretty].
  eexists. split; [reflexivity|].
  destruct (0 <? count_state item_failed _)%Z; by split_and!.
Qed.

(** X17. When the loop ends, the counters written on the batch request
    are the numbers of completed, failed and skipped items that the batch
    has in the item table at that moment, so together they never exceed
    the number of its items; progress is 100 and [actual_end] is the time
    of the iteration. The state is the flow's [final_state] output; it is
    [partial] exactly when at least one item completed and at least one
    failed, and otherwise [completed] or [failed]. *)
Theorem finalize_records_item_counts o m m' b :
  poll o m = (m', true) →
  Store.batch_requests (store m) !! batchRequestId m = Some b →
  let rows := Store.query_items
                (BatchUpdateManager.of_batch (batchRequestId m)) (store m') in
  ∃ b' summary,
    Store.batch_requests (store m') !! batchRequestId m = Some b' ∧
    BatchRequest.completed_apps b' = count_state item_completed rows ∧
    BatchRequest.failed_apps b' = count_state item_failed rows ∧
    BatchRequest.skipped_apps b' = count_state skipped rows ∧
    (BatchRequest.completed_apps b' + BatchRequest.failed_apps b'
     + BatchRequest.skipped_apps b' ≤ Z.of_nat (length rows))%Z ∧
    BatchRequest.overall_progress b' = 100%Z ∧
    BatchRequest.actual_end b' = Some (obs_now o) ∧
    outputs m' = Some (BatchRequest.state b', summary) ∧
    (BatchRequest.state b' = partial ↔
     (0 < BatchRequest.failed_apps b')%Z ∧
     (0 < BatchRequest.completed_apps b')%Z) ∧
    (BatchRequest.state b' = partial ∨ BatchRequest.state b' = completed ∨
     BatchRequest.state b' = failed).
Proof.
  intros (mx & st & msg & Hstep & -> & Hst)%poll_break Hb rows.
  pose proof (ss_batchRequestId _ _ Hstep) as Hid.
  destruct (proj2 (ss_batches _ _ Hstep (batchRequestId m))) as [bx Hbx];
    [by eexists|].
  rewrite <- Hid in Hbx.
  destruct (finalizeBatch_counters (obs_now o) st msg mx bx Hbx)
    as (b' & Hb' & Hc & Hf & Hs & Hp & He & Hstate & Hout).
  rewrite Hid in Hb', Hc, Hf, Hs, Hstate. fold rows in Hc, Hf, Hs, Hstate.
  exists b', msg. split_and!; [done..| |done|done|done| |].
  - rewrite Hc, Hf, Hs. apply count_states_le.
  - rewrite Hstate, Hc, Hf.
    destruct (Z.ltb_spec 0 (count_state item_failed rows));
      destruct (Z.ltb_spec 0 (count_state item_completed rows)); simpl;
      (split; [intros Hpartial|intros [? ?]]); try done; try lia;
      destruct Hst as [-> | ->]; done.
  - rewrite Hstate. destruct (_ && _); [by left|].
    destruct Hst as [-> | ->]; auto.
Qed.

Lemma finalize_records_item_counts_witness :
  ∃ b',
    Store.batch_requests
      (store (poll (Scenario.observe 4000 (Scenario.worker "complete" "Done" 100))
                Scenario.monitor0).1) !! "0" = Some b' ∧
    BatchRequest.completed_apps b' = 2%Z ∧
    BatchRequest.failed_apps b' = 0%Z ∧
    BatchRequest.overall_progress b' = 100%Z.
Proof.
  destruct (Store.batch_requests (store Scenario.monitor0) !! "0")
    as [b|] eqn:Hb; [|vm_compute in Hb; discriminate].
  destruct (finalize_records_item_counts
              (Scenario.observe 4000 (Scenario.worker "complete" "Done" 100))
              Scenario.monitor0
              (poll (Scenario.observe 4000 (Scenario.worker "complete" "Done" 100))
                 Scenario.monitor0).1 b)
    as (b' & summary & Hb' & Hc & Hf & _ & _ & Hp & _).
  - vm_compute. reflexivity.
  - exact Hb.
  - exists b'. split_and!; [exact Hb'| | |exact Hp].
    + rewrite Hc. vm_compute. reflexivity.
    + rewrite Hf. vm_compute. reflexivity.
Defined.

(** X18. With the progress worker at hand and the two hours not passed,
    an iteration ends the loop exactly when the worker's state is
    'complete', 'cancelled' or 'error'; every other state, known or not,
    keeps the script polling. On ending, the flow's summary is the worker's
    output summary, or its message when the summary is empty, and the final
    state is [completed] only for a worker that is 'complete': a cancelled
    worker gives [failed], as an error does, and [partial] replaces either
    when the items are mixed. *)
Theorem poll_ends_on_terminal_worker o m pw :
  obs_worker o = Some pw →
  (obs_now o - startTime m ≤ MAX_POLL_TIME_MS)%Z →
  ((poll o m).2 = true ↔ terminal_worker pw) ∧
  (terminal_worker pw →
   ∃ final,
     outputs (poll o m).1
     = Some (final, JS.or_else (pw_output_summary pw) (pw_message pw)) ∧
     (final = partial ∨
      final = if bool_decide (pw_state pw = "complete") then completed
              else failed)).
Proof.
  intros Hw Ht. unfold poll. cbv zeta. rewrite Hw.
  cbn [startTime with_pollCount].
  rewrite (proj2 (Z.ltb_ge _ _) Ht).
  set (m1 := with_pollCount (pollCount m + 1) m).
  set (m2 := if negb (bool_decide (pw_message pw = lastMessage m1)) then _ else m1).
  set (m3 := if _ && _ && _ then _ else m2).
  unfold terminal_worker.
  destruct (bool_decide (pw_state pw = "complete")) eqn:H1;
    [|destruct (bool_decide (pw_state pw = "cancelled")) eqn:H2;
      [|destruct (bool_decide (pw_state pw = "error")) eqn:H3]];
    cbn [orb fst snd].
  - apply bool_decide_eq_true in H1. split; [naive_solver|]. intros _.
    match goal with |- context [_finalizeBatch ?n ?st ?msg ?mm] =>
      destruct (finalizeBatch_outputs n st msg mm) as (final & Hout & Hfin)
    end.
    exists final. split; [exact Hout|done].
  - apply bool_decide_eq_true in H2. split; [naive_solver|]. intros _.
    match goal with |- context [_finalizeBatch ?n ?st ?msg ?mm] =>
      destruct (finalizeBatch_outputs n st msg mm) as (final & Hout & Hfin)
    end.
    exists final. split; [exact Hout|done].
  - apply bool_decide_eq_true in H3. split; [naive_solver|]. intros _.
    match goal with |- context [_finalizeBatch ?n ?st ?msg ?mm] =>
      destruct (finalizeBatch_outputs n st msg mm) as (final & Hout & Hfin)
    end.
    exists final. split; [exact Hout|done].
  - apply bool_decide_eq_false in H1, H2, H3. split; [naive_solver|].
    naive_solver.
Qed.

Lemma poll_ends_on_terminal_worker_witness :
  (poll (Scenario.observe 3000 (Scenario.worker "cancelled" "Stopped" 40))
     Scenario.monitor0).2 = true ∧
  ∃ final,
    outputs (poll (Scenario.observe 3000 (Scenario.worker "cancelled" "Stopped" 40))
               Scenario.monitor0).1 = Some (final, "Stopped") ∧
    (final = partial ∨ final = failed).
Proof.
  destruct (poll_ends_on_terminal_worker
              (Scenario.observe 3000 (Scenario.worker "cancelled" "Stopped" 40))
              Scenario.monitor0 (Scenario.worker "cancelled" "Stopped" 40))
    as [Hstop Hout]; [reflexivity|vm_compute; discriminate|].
  split; [apply Hstop; right; by left|].
  destruct Hout as (final & Hout & Hfin); [right; by left|].
  exists final. split; [exact Hout|exact Hfin].
Defined.
End reconciler_end.

(* ===================================================================== *)
(** * Progress Reconciler: the per-item estimate                          *)
(* ===================================================================== *)
Section reconciler_estimate.
Import BatchUpdateManager MonitorProgress MonitorSpec ReconcilerSpec.

(** What the loop of [_parseAndUpdateItems] does to the row that it meets
    at position [idx] of the ordered result. *)
Local Abbreviation row_update now msg p total index idx it0 :=
  (if (idx <? index)%Z then
     (λ it, BatchItem.set_duration_seconds
              (JS.round_div (now - default now%Z (BatchItem.start_time it0)) 1000)
           (BatchItem.set_status_message (Some "Installed successfully")
           (BatchItem.set_end_time (Some now%Z)
           (BatchItem.set_progress_percent 100
           (BatchItem.set_state item_completed it)))))
   else if (idx =? index)%Z then
     (λ it, BatchItem.set_status_message (Some msg)
              (BatchItem.set_progress_percent
                 (Z.max 0 (Z.min 100 (p * total - 100 * index))) it))
   else (λ it : BatchItem.t, it)).

Lemma estimate_row_lookup now msg p total index idx row m i :
  Store.batch_items
    (store (estimate_row now msg p total index idx row m)) !! i
  = if decide (i = row.1)
    then row_update now msg p total index idx row.2
           <$> Store.batch_items (store m) !! i
    else Store.batch_items (store m) !! i.
Proof.
  unfold estimate_row.
  destruct (idx <? index)%Z; [|destruct (idx =? index)%Z]; cbn;
    case_decide as Hi; subst;
    rewrite ?list_lookup_alter_eq, ?list_lookup_alter_ne by done; try done.
  by destruct (Store.batch_items (store m) !! row.1).
Qed.

Lemma estimate_rows_lookup now msg p total index rows :
  ∀ idx m, NoDup rows.*1 →
    let m' := estimate_rows now msg p total index idx rows m in
    (∀ j i it0, rows !! j = Some (i, it0) →
       Store.batch_items (store m') !! i
       = row_update now msg p total index (idx + Z.of_nat j)%Z it0
           <$> Store.batch_items (store m) !! i) ∧
    (∀ i, i ∉ rows.*1 →
       Store.batch_items (store m') !! i = Store.batch_items (store m) !! i).
Proof.
  induction rows as [|row rows IH]; intros idx m Hnd; [by split|].
  rewrite fmap_cons in Hnd. apply NoDup_cons in Hnd as [Hrow Hnd].
  cbn [estimate_rows]. cbv zeta.
  destruct (IH (idx + 1)%Z
              (estimate_row now msg p total index idx row m) Hnd) as [IH1 IH2].
  split.
  - intros [|j] i it0 Hj.
    + injection Hj as ->. rewrite IH2 by done.
      rewrite estimate_row_lookup, decide_True by done.
      by rewrite Z.add_0_r.
    + cbn in Hj. rewrite (IH1 j i it0 Hj).
      rewrite estimate_row_lookup, decide_False.
      * by replace (idx + 1 + Z.of_nat j)%Z with (idx + Z.of_nat (S j))%Z by lia.
      * intros ->. apply Hrow. apply list_elem_of_fmap.
        exists (row.1, it0). split; [done|]. by eapply list_elem_of_lookup_2.
  - intros i Hi. rewrite fmap_cons, not_elem_of_cons in Hi.
    destruct Hi as [Hne Hi]. rewrite IH2 by done.
    by rewrite estimate_row_lookup, decide_False.
Qed.

Lemma order_by_perm (rows : list (nat * BatchItem.t)) :
  Store.order_by_install_order rows ≡ₚ rows.
Proof. apply order_by_install_order_sorted. Qed.

(** The item table after [_parseAndUpdateItems], position by position. *)
Lemma parseAndUpdateItems_lookup now msg p m :
  let rows := Store.order_by_install_order
                (Store.query_items (installing_of (batchRequestId m)) (store m)) in
  let total := Z.of_nat (length rows) in
  let m' := _parseAndUpdateItems now msg p m in
  (∀ j i it0, rows !! j = Some (i, it0) →
     Store.batch_items (store m) !! i = Some it0 ∧
     installing_of (batchRequestId m) it0 = true ∧
     Store.batch_items (store m') !! i
     = Some (row_update now msg p total (p * total / 100)%Z (Z.of_nat j) it0 it0)) ∧
  (∀ i, i ∉ rows.*1 →
     Store.batch_items (store m') !! i = Store.batch_items (store m) !! i) ∧
  (∀ i it, Store.batch_items (store m) !! i = Some it →
     installing_of (batchRequestId m) it = true → (i, it) ∈ rows).
Proof.
  intros rows total m'.
  pose proof (order_by_perm
    (Store.query_items (installing_of (batchRequestId m)) (store m))) as Hperm.
  fold rows in Hperm.
  assert (NoDup rows.*1) as Hnd.
  { rewrite Hperm. apply query_items_NoDup. }
  assert (∀ i it0, (i, it0) ∈ rows ↔
            Store.batch_items (store m) !! i = Some it0 ∧
            installing_of (batchRequestId m) it0 = true) as Hin.
  { intros i it0. rewrite Hperm. apply query_items_elem. }
  assert (length (Store.query_items (installing_of (batchRequestId m)) (store m))
          = length rows) as Hlen by (by rewrite Hperm).
  assert (m' = if (0 <? total)%Z
               then estimate_rows now msg p total (p * total / 100)%Z 0 rows m
               else m) as Hm'.
  { subst m'. unfold _parseAndUpdateItems. cbv zeta. rewrite Hlen. done. }
  destruct (estimate_rows_lookup now msg p total (p * total / 100)%Z rows 0 m Hnd)
    as [H1 H2].
  split_and!.
  - intros j i it0 Hj.
    assert ((i, it0) ∈ rows) as Hrow by (by eapply list_elem_of_lookup_2).
    apply Hin in Hrow as [Hit Hinst]. split_and!; [done..|].
    rewrite Hm'. destruct (Z.ltb_spec 0 total) as [_|Hz].
    + rewrite (H1 j i it0 Hj), Hit. simpl. by rewrite Z.add_0_l.
    + apply lookup_lt_Some in Hj. subst total. lia.
  - intros i Hi. rewrite Hm'. destruct (0 <? total)%Z; [by apply H2|done].
  - intros i it Hit Hinst. by apply Hin.
Qed.

(** X19. The estimate made from a progress message only concerns the
    items of the batch that are installing: every other row of the item
    table is left as it is. An installing item keeps its state or becomes
    completed, with progress 100 and the time of the iteration as end time;
    it is never marked failed here. At 100 percent every installing item of
    the batch is taken to be installed, so none is installing afterwards. *)
Theorem parseAndUpdateItems_effect now msg p m :
  let id := batchRequestId m in
  let m' := _parseAndUpdateItems now msg p m in
  (∀ i it, Store.batch_items (store m) !! i = Some it →
     ∃ it', Store.batch_items (store m') !! i = Some it' ∧
       (installing_of id it = false → it' = it) ∧
       (BatchItem.state it' = BatchItem.state it ∨
        it' = estimated_complete now it)) ∧
  (p = 100%Z →
   Store.batch_items (store m')
   = (λ it, if installing_of id it then estimated_complete now it else it)
       <$> Store.batch_items (store m)) ∧
  (p = 100%Z →
   Forall (λ it, BatchItem.batch_request it = id →
                 BatchItem.state it ≠ installing)
     (Store.batch_items (store m'))).
Proof.
  intros id m'.
  destruct (parseAndUpdateItems_lookup now msg p m) as (Hrow & Hother & Hin).
  set (rows := Store.order_by_install_order
                 (Store.query_items (installing_of (batchRequestId m)) (store m)))
    in *.
  set (total := Z.of_nat (length rows)) in *.
  fold m' in Hrow, Hother. fold id in Hrow, Hin.
  assert (∀ i it, Store.batch_items (store m) !! i = Some it →
            installing_of id it = false → i ∉ rows.*1) as Hout.
  { intros i it Hit Hinst ([i' it0] & Hi & [j Hj]%list_elem_of_lookup_1)%list_elem_of_fmap.
    simpl in Hi. subst i'. destruct (Hrow j i it0 Hj) as (Hit0 & Hinst0 & _).
    congruence. }
  assert (p = 100%Z →
          Store.batch_items (store m')
          = (λ it, if installing_of id it then estimated_complete now it else it)
              <$> Store.batch_items (store m)) as Hfull.
  { intros ->. apply list_eq. intros i. rewrite list_lookup_fmap.
    destruct (Store.batch_items (store m) !! i) as [it|] eqn:Hit; simpl.
    - destruct (installing_of id it) eqn:Hinst.
      + destruct (list_elem_of_lookup_1 _ _ (Hin i it Hit Hinst)) as [j Hj].
        destruct (Hrow j i it Hj) as (_ & _ & ->).
        assert (Z.of_nat j < 100 * total / 100)%Z as Hlt.
        { rewrite Z.mul_comm, Z.div_mul by done.
          apply lookup_lt_Some in Hj. subst total. lia. }
        apply Z.ltb_lt in Hlt. by rewrite Hlt.
      + rewrite Hother by (by eapply Hout). done.
    - rewrite Hother; [done|].
      intros ([i' it0] & Hi & [j Hj]%list_elem_of_lookup_1)%list_elem_of_fmap.
      simpl in Hi. subst i'. destruct (Hrow j i it0 Hj) as (Hit0 & _).
      congruence. }
  split_and!.
  - intros i it Hit. destruct (installing_of id it) eqn:Hinst.
    + destruct (list_elem_of_lookup_1 _ _ (Hin i it Hit Hinst)) as [j Hj].
      destruct (Hrow j i it Hj) as (_ & _ & Hit').
      eexists. split; [exact Hit'|]. split; [done|].
      destruct (_ <? _)%Z; [by right|].
      destruct (_ =? _)%Z; by left.
    + exists it. rewrite Hother by (by eapply Hout). by split_and!; [|  |left].
  - exact Hfull.
  - intros Hp. rewrite (Hfull Hp). apply Forall_fmap, Forall_forall.
    intros it _. simpl. unfold installing_of, of_batch.
    destruct (bool_decide (BatchItem.batch_request it = id)) eqn:Hid;
      destruct (bool_decide (BatchItem.state it = installing)) eqn:Hst; simpl.
    + done.
    + intros _. by apply bool_decide_eq_false in Hst.
    + intros ?. by apply bool_decide_eq_false in Hid.
    + intros ?. by apply bool_decide_eq_false in Hid.
Qed.
End reconciler_estimate.

(* ===================================================================== *)
(** * Progress Reconciler: other batches are left alone                   *)
(* ===================================================================== *)
Section reconciler_frame.
Import BatchUpdateManager MonitorProgress MonitorSpec ReconcilerSpec.

(** A step of the script that keeps its batch id and leaves the other
    batches alone. *)
Local Abbreviation kept m m' :=
  (batchRequestId m' = batchRequestId m ∧
   others_kept (batchRequestId m) (store m) (store m')).

Lemma others_kept_refl id s : others_kept id s s.
Proof. split; [done|]. intros i it Hit. by exists it. Qed.

Lemma others_kept_trans id s1 s2 s3 :
  others_kept id s1 s2 → others_kept id s2 s3 → others_kept id s1 s3.
Proof.
  intros [Hb1 Hi1] [Hb2 Hi2]. split.
  - intros id' Hne. by rewrite Hb2, Hb1.
  - intros i it Hit.
    destruct (Hi1 i it Hit) as (it2 & Hit2 & Hbr2 & Heq2).
    destruct (Hi2 i it2 Hit2) as (it3 & Hit3 & Hbr3 & Heq3).
    exists it3. split_and!; [done|congruence|].
    intros Hne. rewrite Heq3, Heq2; [done..|]. by rewrite Heq2.
Qed.

Lemma kept_refl m : kept m m.
Proof. split; [done|apply others_kept_refl]. Qed.

Lemma kept_same_store m m' :
  batchRequestId m' = batchRequestId m → store m' = store m → kept m m'.
Proof. intros Hid Hs. split; [done|]. rewrite Hs. apply others_kept_refl. Qed.

Lemma kept_trans m1 m2 m3 : kept m1 m2 → kept m2 m3 → kept m1 m3.
Proof.
  intros [Hid1 H1] [Hid2 H2]. split; [congruence|].
  rewrite Hid1 in H2. by eapply others_kept_trans.
Qed.

Lemma others_kept_update_batch id f s :
  others_kept id s (Store.update_batch id f s).
Proof.
  split; cbn.
  - intros id' Hne. by rewrite lookup_alter_ne.
  - intros i it Hit. by exists it.
Qed.

Lemma others_kept_update_item id i f s :
  (∀ it, Store.batch_items s !! i = Some it → BatchItem.batch_request it = id) →
  (∀ it, BatchItem.batch_request (f it) = BatchItem.batch_request it) →
  others_kept id s (Store.update_item i f s).
Proof.
  intros Hi Hf. split; cbn; [done|].
  intros j it Hit. destruct (decide (j = i)) as [->|Hne].
  - exists (f it). rewrite list_lookup_alter_eq, Hit. split_and!; [done|done|].
    intros Hbr. by destruct Hbr; apply Hi.
  - exists it. by rewrite list_lookup_alter_ne.
Qed.

Lemma others_kept_insert_log id mk s0 s :
  others_kept id s0 s → others_kept id s0 (Store.insert_log mk s).
Proof. intros [Hb Hi]. by split. Qed.

Lemma log_kept ty ph msg opts m : kept m (log ty ph msg opts m).
Proof. split; [done|]. split; cbn; [done|]. intros i it Hit. by exists it. Qed.

Lemma estimate_row_kept now msg p total index idx row m :
  (∀ it, Store.batch_items (store m) !! row.1 = Some it →
         BatchItem.batch_request it = batchRequestId m) →
  kept m (estimate_row now msg p total index idx row m).
Proof.
  intros Hrow. unfold estimate_row.
  destruct (idx <? index)%Z; [|destruct (idx =? index)%Z]; cbn.
  - split; [done|]. by apply others_kept_update_item.
  - split; [done|]. by apply others_kept_update_item.
  - apply kept_refl.
Qed.

Lemma sync_row_kept now inv row m :
  (∀ it, Store.batch_items (store m) !! row.1 = Some it →
         BatchItem.batch_request it = batchRequestId m) →
  kept m (sync_row now inv row m).
Proof.
  intros Hrow. unfold sync_row.
  destruct (_ ≫= _) as [app|]; [|apply kept_refl].
  unfold ActivityLogger.logAppInstallComplete, ActivityLogger.logAppInstallFailed,
    ActivityLogger.log.
  destruct (bool_decide (sa_version app = _)).
  - destruct (negb _); [|apply kept_refl].
    split; [done|]. cbn [store with_store].
    apply others_kept_insert_log, others_kept_update_item; [exact Hrow|].
    intros it. by destruct (BatchItem.end_time it).
  - destruct (bool_decide (BatchItem.state row.2 = installing));
      [|apply kept_refl].
    split; [done|]. cbn [store with_store with_counters].
    by apply others_kept_insert_log, others_kept_update_item.
Qed.

(** A loop over the rows of a query on the items of the batch. *)
Lemma rows_kept (step : nat * BatchItem.t → t → t) rows m0 :
  (∀ row m,
     (∀ it, Store.batch_items (store m) !! row.1 = Some it →
            BatchItem.batch_request it = batchRequestId m) →
     kept m (step row m)) →
  (∀ row, row ∈ rows →
     Store.batch_items (store m0) !! row.1 = Some row.2 ∧
     BatchItem.batch_request row.2 = batchRequestId m0) →
  ∀ m, kept m0 m → kept m0 (foldl (λ m row, step row m) m rows).
Proof.
  intros Hstep. induction rows as [|row rows IH]; intros Hrows m Hm; [done|].
  cbn [foldl]. apply IH.
  - intros r Hr. apply Hrows. by right.
  - eapply kept_trans; [exact Hm|]. apply Hstep.
    intros it Hit. destruct Hm as [Hid [_ Hitems]].
    destruct (Hrows row) as [Hrow Hbr]; [by left|].
    destruct (Hitems _ _ Hrow) as (it' & Hit' & Hbr' & _).
    rewrite Hit in Hit'. injection Hit' as <-. congruence.
Qed.

Lemma estimate_rows_kept now msg p total index rows m0 :
  (∀ row, row ∈ rows →
     Store.batch_items (store m0) !! row.1 = Some row.2 ∧
     BatchItem.batch_request row.2 = batchRequestId m0) →
  ∀ idx m, kept m0 m →
    kept m0 (estimate_rows now msg p total index idx rows m).
Proof.
  induction rows as [|row rows IH]; intros Hrows idx m Hm; [done|].
  cbn [estimate_rows]. apply IH.
  - intros r Hr. apply Hrows. by right.
  - eapply kept_trans; [exact Hm|]. apply estimate_row_kept.
    intros it Hit. destruct Hm as [Hid [_ Hitems]].
    destruct (Hrows row) as [Hrow Hbr]; [by left|].
    destruct (Hitems _ _ Hrow) as (it' & Hit' & Hbr' & _).
    rewrite Hit in Hit'. injection Hit' as <-. congruence.
Qed.

Lemma parseAndUpdateItems_kept now msg p m :
  kept m (_parseAndUpdateItems now msg p m).
Proof.
  unfold _parseAndUpdateItems. cbv zeta.
  destruct (0 <? _)%Z; [|apply kept_refl].
  apply estimate_rows_kept; [|apply kept_refl].
  intros [i it]. rewrite order_by_perm. intros [Hit Hp]%query_items_elem.
  split; [done|]. unfold installing_of, of_batch in Hp.
  apply andb_true_iff in Hp as [Hp _]. by apply bool_decide_eq_true in Hp.
Qed.

Lemma syncFinalItemStates_kept now inv m :
  kept m (_syncFinalItemStates now inv m).
Proof.
  unfold _syncFinalItemStates.
  apply (rows_kept (sync_row now inv)); [|  |apply kept_refl].
  - intros row m1. apply sync_row_kept.
  - intros [i it] [Hit Hp]%query_items_elem. split; [done|].
    unfold of_batch in Hp. by apply bool_decide_eq_true in Hp.
Qed.

Lemma finalizeBatch_kept now st msg m : kept m (_finalizeBatch now st msg m).
Proof.
  unfold _finalizeBatch. cbn -[pretty]. split; [done|]. split; cbn -[pretty].
  - intros id' Hne. by rewrite lookup_alter_ne.
  - intros i it Hit. by exists it.
Qed.

Lemma poll_kept o m : kept m (poll o m).1.
Proof.
  unfold poll.
  assert (kept m (with_pollCount (pollCount m + 1) m)) as Hpc
    by (by apply kept_same_store).
  set (m1 := with_pollCount (pollCount m + 1) m) in *.
  destruct (MAX_POLL_TIME_MS <? _)%Z; cbn [fst].
  { eapply kept_trans; [exact Hpc|].
    eapply kept_trans; [apply log_kept|apply finalizeBatch_kept]. }
  destruct (obs_worker o) as [pw|].
  2: { destruct (20 <? pollCount m1)%Z; cbn [fst]; [|exact Hpc].
       eapply kept_trans; [exact Hpc|].
       eapply kept_trans; [apply log_kept|apply finalizeBatch_kept]. }
  cbv zeta.
  set (m2 := if negb (bool_decide (pw_message pw = lastMessage m1)) then _ else m1).
  assert (kept m m2) as H2.
  { eapply kept_trans; [exact Hpc|]. subst m2.
    destruct (negb _); [|apply kept_refl].
    eapply kept_trans; [apply log_kept|].
    match goal with |- context [_parseAndUpdateItems ?n ?s ?q ?mm] =>
      eapply kept_trans; [|apply (parseAndUpdateItems_kept n s q mm)]
    end.
    by apply kept_same_store. }
  set (m3 := if _ && _ && _ then _ else m2).
  assert (kept m m3) as H3.
  { eapply kept_trans; [exact H2|]. subst m3.
    destruct (_ && _ && _); [|apply kept_refl].
    split; [done|]. apply others_kept_update_batch. }
  destruct (_ || _ || _); cbn [fst]; [|exact H3].
  eapply kept_trans; [exact H3|].
  eapply kept_trans; [|apply finalizeBatch_kept].
  eapply kept_trans; [|apply syncFinalItemStates_kept].
  destruct (JS.truthy _); [apply log_kept|apply kept_refl].
Qed.

Lemma poll_trace_kept obs :
  ∀ m m', m' ∈ poll_trace obs m → kept m m'.
Proof.
  induction obs as [|o obs IH]; intros m m' Hin; simpl in Hin.
  - by apply elem_of_nil in Hin.
  - pose proof (poll_kept o m) as Hs.
    destruct (poll o m) as [m1 stop]. simpl in Hs. destruct stop.
    + by apply list_elem_of_singleton in Hin as ->.
    + apply elem_of_cons in Hin as [->|Hin]; [done|].
      eapply kept_trans; [exact Hs|by apply IH].
Qed.

(** X20. A run of the reconciler for one batch leaves every other batch
    alone, however long it polls and whatever it observes: the other batch
    requests and the items of other batches are unchanged, no row of the
    item table is added, removed or moved to another batch, and the log
    entries it appends all belong to its own batch. *)
Theorem reconciler_keeps_other_batches s id pw start obs :
  let m' := execute s id pw start obs in
  (∀ id', id' ≠ id →
     Store.batch_requests (store m') !! id' = Store.batch_requests s !! id') ∧
  (∀ i it, Store.batch_items s !! i = Some it →
     ∃ it', Store.batch_items (store m') !! i = Some it' ∧
       BatchItem.batch_request it' = BatchItem.batch_request it ∧
       (BatchItem.batch_request it ≠ id → it' = it)) ∧
  length (Store.batch_items (store m')) = length (Store.batch_items s) ∧
  ∃ es, Store.activity_log (store m') = Store.activity_log s ++ es ∧
        Forall (λ e, ActivityLog.batch_request e = id) es.
Proof.
  intros m'.
  assert (kept (init s id pw start) m') as [_ [Hb Hi]].
  { subst m'. unfold execute. set (m0 := init s id pw start).
    destruct (poll_trace obs m0) as [|m1 tr] eqn:Htr; [apply kept_refl|].
    apply (poll_trace_kept obs). rewrite Htr. by apply last_elem_of. }
  destruct (execute_script_step s id pw start obs)
    as [_ _ _ Hlen (_ & es & Hlog & _ & Hes)].
  fold m' in Hlen, Hlog.
  split_and!; [exact Hb|exact Hi|exact Hlen|].
  exists (drop (length (Store.activity_log s)) (Store.activity_log (store m'))).
  rewrite Hlog. cbn. rewrite <- app_assoc, drop_app_length. split; [done|].
  apply Forall_app. split; [by repeat constructor|exact Hes].
Qed.
End reconciler_frame.

(* ===================================================================== *)
(** * The read resources and the dashboard counters                       *)
(* ===================================================================== *)
Section read_api.
Import UpdateAnalyzer UpdateCenterReadAPI AnalyzerSpec.

Lemma level_name_inj l l' : level_name l = level_name l' ↔ l = l'.
Proof. split; [|by intros ->]. by destruct l, l'. Qed.

Lemma risk_name_inj r r' : risk_name r = risk_name r' ↔ r = r'.
Proof. split; [|by intros ->]. by destruct r, r'. Qed.

Lemma count_level_count l l' c :
  l ≠ none →
  level_count l' (count_level l c)
  = (level_count l' c + if decide (l = l') then 1 else 0)%Z.
Proof. intros Hl. destruct l, l'; simpl; try done; lia. Qed.

Lemma count_risk_count r r' rb :
  risk_count r' (count_risk r rb)
  = (risk_count r' rb + if decide (r = r') then 1 else 0)%Z.
Proof. destruct r, r'; simpl; lia. Qed.

(** The listed apps of each level, and of each risk, are as many as the
    counters say. *)
Lemma summary_counts_by_level store_apps latest tbl hasCustomizations :
  let sm := getUpdateSummary store_apps latest tbl hasCustomizations in
  (∀ l, Z.of_nat (length (filter (λ a, au_updateLevel a = l) (apps sm)))
        = level_count l (s_counts sm)) ∧
  (∀ r, Z.of_nat (length (filter (λ a, au_riskLevel a = r) (apps sm)))
        = risk_count r (riskBreakdown sm)) ∧
  Z.of_nat (length (apps sm)) = c_total (s_counts sm).
Proof.
  unfold getUpdateSummary. generalize (updatable store_apps). intros l.
  match goal with |- context [foldl ?fs ?s0 l] =>
    set (step := fs); set (sm0 := s0) end.
  assert (∀ sm,
    ((∀ l, Z.of_nat (length (filter (λ a, au_updateLevel a = l) (apps sm)))
           = level_count l (s_counts sm)) ∧
     (∀ r, Z.of_nat (length (filter (λ a, au_riskLevel a = r) (apps sm)))
           = risk_count r (riskBreakdown sm)) ∧
     Z.of_nat (length (apps sm)) = c_total (s_counts sm)) →
    let sm' := foldl step sm l in
    (∀ l, Z.of_nat (length (filter (λ a, au_updateLevel a = l) (apps sm')))
          = level_count l (s_counts sm')) ∧
    (∀ r, Z.of_nat (length (filter (λ a, au_riskLevel a = r) (apps sm')))
          = risk_count r (riskBreakdown sm')) ∧
    Z.of_nat (length (apps sm')) = c_total (s_counts sm')) as Hfold.
  { induction l as [|app l IH]; intros sm Hsm; [done|].
    cbn [foldl]. apply IH. destruct Hsm as (Hlev & Hrisk & Htot).
    subst step. cbn beta.
    destruct (latest (ia_sys_id app)) as [lv|]; [|done].
    cbn [apps s_counts riskBreakdown]. split_and!.
    - intros l'. rewrite filter_app, length_app, Nat2Z.inj_add, Hlev.
      rewrite count_level_count by apply getUpdateLevel_not_none.
      f_equal. rewrite filter_cons, filter_nil. cbn [au_updateLevel].
      by case_decide.
    - intros r'. rewrite filter_app, length_app, Nat2Z.inj_add, Hrisk.
      rewrite count_risk_count.
      f_equal. rewrite filter_cons, filter_nil. cbn [au_riskLevel].
      by case_decide.
    - rewrite length_app, Nat2Z.inj_add, Htot. cbn [length].
      pose proof (getUpdateLevel_not_none (ia_version app) (lv_version lv)).
      by destruct (getUpdateLevel (ia_version app) (lv_version lv)). }
  apply Hfold. split_and!; [by intros []|by intros []|done].
Qed.

(** X21. The list resource agrees with the dashboard: without filters it
    reports as many updates as the dashboard's total; filtered by a level
    it reports as many as the dashboard's counter of that level, and
    filtered by a risk as many as the risk breakdown says. Every update it
    returns matches the filters given, and a filter that names no level
    (or no risk) returns nothing, with status 200. *)
Theorem available_updates_agree_with_dashboard
    (store_apps : list InstalledApp) (latest : string → option LatestVersion)
    (tbl : DependencyTable) (hasCustomizations : string → bool) :
  let sm := getUpdateSummary store_apps latest tbl hasCustomizations in
  let board := (getDashboard sm).2 in
  ul_total (getAvailableUpdates sm EmptyString EmptyString).2
  = c_total (d_counts board) ∧
  (∀ l, l ≠ none →
     ul_total (getAvailableUpdates sm (level_name l) EmptyString).2
     = level_count l (d_counts board)) ∧
  (∀ r, ul_total (getAvailableUpdates sm EmptyString (risk_name r)).2
        = risk_count r (d_riskBreakdown board)) ∧
  (∀ lf rf a, a ∈ ul_updates (getAvailableUpdates sm lf rf).2 →
     a ∈ apps sm ∧
     (JS.truthy lf = true → level_name (au_updateLevel a) = lf) ∧
     (JS.truthy rf = true → risk_name (au_riskLevel a) = rf)) ∧
  (∀ lf rf, JS.truthy lf = true → (∀ l, l ≠ none → level_name l ≠ lf) →
     getAvailableUpdates sm lf rf
     = (200%Z, {| ul_total := 0; ul_updates := [] |})).
Proof.
  intros sm board.
  destruct (summary_counts_by_level store_apps latest tbl hasCustomizations)
    as (Hlev & Hrisk & Htot). fold sm in Hlev, Hrisk, Htot.
  split_and!.
  - exact Htot.
  - intros l Hl. unfold getAvailableUpdates.
    replace (JS.truthy (level_name l)) with true by (by destruct l).
    cbn. rewrite <- Hlev. do 2 f_equal.
    apply list_filter_iff. intros a. apply level_name_inj.
  - intros r. unfold getAvailableUpdates.
    replace (JS.truthy (risk_name r)) with true by (by destruct r).
    cbn. rewrite <- Hrisk. do 2 f_equal.
    apply list_filter_iff. intros a. apply risk_name_inj.
  - intros lf rf a. unfold getAvailableUpdates. cbn.
    destruct (JS.truthy lf), (JS.truthy rf);
      rewrite ?list_elem_of_filter; naive_solver.
  - intros lf rf Hlf Hno. unfold getAvailableUpdates. rewrite Hlf.
    assert (filter (λ a, level_name (au_updateLevel a) = lf) (apps sm) = [])
      as ->.
    { destruct (filter _ (apps sm)) as [|a rest] eqn:Hf; [done|].
      assert (a ∈ filter (λ a, level_name (au_updateLevel a) = lf) (apps sm))
        as [Ha Hin]%list_elem_of_filter by (rewrite Hf; by left).
      destruct (decide (au_updateLevel a = none)) as [Hnone|Hnone].
      - specialize (Hlev none). simpl in Hlev.
        destruct (filter (λ a, au_updateLevel a = none) (apps sm)) eqn:Hn;
          [|done].
        by apply (filter_nil_not_elem_of _ _ a Hn) in Hin.
      - by apply Hno in Hnone. }
    by destruct (JS.truthy rf).
Qed.
End read_api.

(* ===================================================================== *)
(** * The refresh job and its notifications                               *)
(* ===================================================================== *)
Section refresh_job.
Import UpdateAnalyzer RefreshJob.

Lemma runs_cons enabled emails summary rest last :
  runs enabled emails (summary :: rest) last
  = ((executeJob enabled emails summary last).1
       :: (runs enabled emails rest (executeJob enabled emails summary last).2).1,
     (runs enabled emails rest (executeJob enabled emails summary last).2).2).
Proof.
  cbn [runs]. destruct (executeJob enabled emails summary last) as [mail l1].
  cbn [fst snd]. by destruct (runs enabled emails rest l1).
Qed.

Lemma executeJob_last enabled emails summary last :
  (executeJob enabled emails summary last).2
  = Z.max last (c_total (s_counts summary)).
Proof.
  unfold executeJob. cbv zeta.
  destruct (Z.ltb_spec last (c_total (s_counts summary))); cbn [snd]; lia.
Qed.

(** X22. Over successive runs of the refresh job, [last_notified_count]
    is a high-water mark: after each run it is the highest total seen so
    far, whether or not a mail could be sent. A run sends a mail only when
    its total exceeds every total seen before (and the count the property
    started with); the mail goes to the non-empty addresses of the admins
    and announces the excess over that mark. With notifications enabled and
    at least one address, every such run does send one. In particular,
    after the number of available updates has dropped, new updates are not
    announced until the total passes the old maximum. *)
Theorem refresh_job_notifies_on_new_maximum (enabled : string)
    (emails : list string) (summaries : list UpdateSummary) (last : Z) :
  let mails := (runs enabled emails summaries last).1 in
  (runs enabled emails summaries last).2 = high_water last summaries ∧
  length mails = length summaries ∧
  ∀ k summary, summaries !! k = Some summary →
    let seen := high_water last (take k summaries) in
    let total := c_total (s_counts summary) in
    (∀ mail, mails !! k = Some (Some mail) →
       (seen < total)%Z ∧ enabled = "true" ∧
       mail_to mail = filter (λ e, JS.truthy e = true) emails ∧
       mail_to mail ≠ [] ∧
       mail_subject mail
       = "Update Center: " +:+ pretty (total - seen)%Z +:+
         " New Store Update(s) Available") ∧
    ((seen < total)%Z → enabled = "true" →
     (∃ e, e ∈ emails ∧ JS.truthy e = true) →
     ∃ mail, mails !! k = Some (Some mail)).
Proof.
  revert last. induction summaries as [|sm rest IH]; intros last; [done|].
  rewrite runs_cons, executeJob_last. cbn [fst snd].
  destruct (IH (Z.max last (c_total (s_counts sm)))) as (Hlast & Hlen & Hk).
  split_and!.
  - exact Hlast.
  - cbn [length]. by rewrite Hlen.
  - intros [|k] summary Hsum.
    + injection Hsum as ->. cbn [take lookup list_lookup]. unfold high_water.
      cbn [foldl]. unfold executeJob, _notifyAdmins. cbv zeta. split.
      * intros mail Hmail. cbn in Hmail.
        destruct (Z.ltb_spec last (c_total (s_counts summary))); [|done].
        cbn [fst] in Hmail.
        destruct (bool_decide (enabled = "true")) eqn:Hen; [|done].
        cbn [negb] in Hmail.
        destruct (bool_decide (length _ = 0)) eqn:Hrec; [done|].
        injection Hmail as [= <-]. cbn [mail_to mail_subject].
        apply bool_decide_eq_true in Hen. apply bool_decide_eq_false in Hrec.
        split_and!; [done|done|done| |done].
        intros Hnil. by rewrite Hnil in Hrec.
      * intros Hlt Hen (e & He & Ht). cbn.
        apply Z.ltb_lt in Hlt. rewrite Hlt. cbn [fst].
        rewrite (bool_decide_eq_true_2 _ Hen). cbn [negb].
        rewrite bool_decide_eq_false_2; [by eexists|].
        intros Hlen0. apply nil_length_inv in Hlen0.
        by apply (filter_nil_not_elem_of _ _ e Hlen0) in He.
    + cbn [take]. unfold high_water. cbn [foldl].
      apply (Hk k summary Hsum).
Qed.
End refresh_job.

(* ===================================================================== *)
(** * The Available Updates remote table                                  *)
(* ===================================================================== *)
Section remote_table_levels.
Import UpdateAnalyzer AvailableUpdates RemoteTable RemoteTableSpec AnalyzerSpec.

Variable app : InstalledApp.
Variable installedVer : string.
Variable depInfo : bool * Z.

Lemma update_levels_get (d e : UpdateLevel) ver version ls :
  d ≠ none → e ≠ none →
  get_level d (update_levels app installedVer depInfo ver version e ls)
  = bump e (if decide (d = e)
            then fill app installedVer depInfo ver version e (get_level e ls)
            else get_level d ls).
Proof. intros Hd He. by destruct d, e. Qed.

Lemma at_level_snoc d vs ver :
  at_level installedVer d (vs ++ [ver])
  = at_level installedVer d vs
    ++ (if decide (diff_of installedVer ver = d) then [ver] else []).
Proof.
  unfold at_level. by rewrite filter_app.
Qed.

Lemma count_at_snoc d vs ver :
  count_at installedVer d (vs ++ [ver])
  = (count_at installedVer d vs
     + if decide (diff_of installedVer ver = d) then 1 else 0)%Z.
Proof.
  unfold count_at. rewrite at_level_snoc, length_app.
  case_decide; simpl; lia.
Qed.

Lemma app_levels_snoc vs ver :
  app_levels app installedVer depInfo (vs ++ [ver])
  = let d := diff_of installedVer ver in
    if bool_decide (d = none) then app_levels app installedVer depInfo vs
    else update_levels app installedVer depInfo ver
           (default EmptyString (ver_version ver)) d
           (app_levels app installedVer depInfo vs).
Proof. unfold app_levels. by rewrite foldl_app. Qed.

(** Each level of an app holds the last version of that level. *)
Lemma app_levels_tracks vs d :
  d ≠ none →
  entry_tracks app installedVer d vs
    (get_level d (app_levels app installedVer depInfo vs)).
Proof.
  intros Hd. induction vs as [|ver vs IH] using rev_ind.
  { unfold entry_tracks. by destruct d. }
  destruct IH as (H1 & H2 & H3 & H4 & H5 & H6 & H7 & H8).
  unfold entry_tracks. rewrite app_levels_snoc, !count_at_snoc, at_level_snoc.
  cbv zeta. case_bool_decide as He.
  - rewrite He. rewrite decide_False by done. rewrite app_nil_r.
    rewrite !decide_False by done. rewrite !Z.add_0_r. done.
  - rewrite update_levels_get by done.
    destruct (decide (d = diff_of installedVer ver)) as [Heq|Hne].
    + rewrite <- Heq. rewrite decide_True by done. rewrite last_snoc.
      cbn -[count_at]. rewrite H6, H7, H8.
      split_and!; try done; repeat case_bool_decide; repeat case_decide;
        try congruence; lia.
    + rewrite decide_False by done. rewrite app_nil_r.
      cbn -[count_at at_level]. rewrite H1, H2, H3, H4, H5, H6, H7, H8.
      split_and!; try done; repeat case_bool_decide; repeat case_decide;
        try congruence; lia.
Qed.

Local Abbreviation levels vs := (app_levels app installedVer depInfo vs).

Lemma fill_gaps_get (ls : Levels) :
  get_level patch (fill_gaps ls) = l_patch ls ∧
  get_level minor (fill_gaps ls)
  = (if nil (r_application (l_minor ls)) then l_patch ls else l_minor ls) ∧
  get_level major (fill_gaps ls)
  = (if nil (r_application (l_major ls))
     then (if nil (r_application (l_minor ls)) then l_patch ls else l_minor ls)
     else l_major ls).
Proof.
  unfold fill_gaps. cbn.
  destruct (nil (r_application (l_patch ls))); cbn;
    destruct (nil (r_application (l_minor ls))); cbn;
    destruct (nil (r_application (l_major ls))); done.
Qed.

Lemma add_rows_elem (ls : Levels) (row : Row) :
  row ∈ add_rows ls ↔
  ∃ lev, lev ≠ none ∧
         nil (r_available_version (get_level lev ls)) = false ∧
         row = with_risk lev (get_level lev ls).
Proof.
  unfold add_rows. cbn [flat_map]. cbv zeta. rewrite !elem_of_app.
  assert (∀ lev, row ∈ (if nil (r_available_version
                                  (with_risk lev (get_level lev ls)))
                        then [] else [with_risk lev (get_level lev ls)]) ↔
                 nil (r_available_version (get_level lev ls)) = false ∧
                 row = with_risk lev (get_level lev ls)) as Hone.
  { intros lev.
    change (r_available_version (with_risk lev (get_level lev ls)))
      with (r_available_version (get_level lev ls)).
    destruct (nil _).
    - split; [by intros ?%elem_of_nil|by intros [? _]].
    - rewrite list_elem_of_singleton. naive_solver. }
  rewrite !Hone. split.
  - intros [H|[H|[H|H]]]; [by exists major|by exists minor|by exists patch|].
    by apply elem_of_nil in H.
  - intros (lev & Hlev & Hnil & ->). destruct lev; [| | |done]; auto.
Qed.

Hypothesis app_id : ia_sys_id app ≠ EmptyString.

Lemma nil_application vs d :
  d ≠ none →
  nil (r_application (get_level d (levels vs))) = true ↔
  at_level installedVer d vs = [].
Proof.
  intros Hd. destruct (app_levels_tracks vs d Hd) as (-> & _).
  rewrite <- last_None. destruct (last _); simpl; [|done].
  split; [|done]. by destruct (ia_sys_id app).
Qed.

(** The level from which the row of the batch level [lev] is taken: the
    highest level not above [lev] that has a version, the patch level when
    none has. *)
Lemma fill_gaps_chosen vs lev :
  lev ≠ none →
  ∃ d, d ≠ none ∧ level_rank d ≤ level_rank lev ∧
       get_level lev (fill_gaps (levels vs)) = get_level d (levels vs) ∧
       (∀ d', level_rank d < level_rank d' ≤ level_rank lev →
              at_level installedVer d' vs = []) ∧
       (∀ d', d' ≠ none → level_rank d' ≤ level_rank lev →
              at_level installedVer d' vs ≠ [] →
              at_level installedVer d vs ≠ []).
Proof.
  intros Hlev.
  destruct (fill_gaps_get (levels vs)) as (Hp & Hm & HM).
  pose proof (nil_application vs minor) as Nm.
  pose proof (nil_application vs major) as NM.
  change (l_minor (levels vs)) with (get_level minor (levels vs)) in Hm, HM.
  change (l_major (levels vs)) with (get_level major (levels vs)) in HM.
  change (l_patch (levels vs)) with (get_level patch (levels vs)) in Hp, Hm, HM.
  destruct (nil (r_application (get_level minor (levels vs)))) eqn:Em;
    destruct (nil (r_application (get_level major (levels vs)))) eqn:EM;
    destruct lev; try done.
  all: specialize (Nm ltac:(done)); specialize (NM ltac:(done)).
  all: try (assert (at_level installedVer minor vs = []) as Zm
              by (by apply Nm)).
  all: try (assert (at_level installedVer major vs = []) as ZM
              by (by apply NM)).
  all: try (assert (at_level installedVer minor vs ≠ []) as Pm
              by (by intros ?%Nm)).
  all: try (assert (at_level installedVer major vs ≠ []) as PM
              by (by intros ?%NM)).
  all: rewrite ?Hp, ?Hm, ?HM.
  all: first
    [ exists major; split_and!;
        [done|simpl; lia|reflexivity
        |intros [] ?; simpl in *; try lia; done
        |first [done|intros [] ? ? ?; simpl in *; try lia; done]]
    | exists minor; split_and!;
        [done|simpl; lia|reflexivity
        |intros [] ?; simpl in *; try lia; done
        |first [done|intros [] ? ? ?; simpl in *; try lia; done]]
    | exists patch; split_and!;
        [done|simpl; lia|reflexivity
        |intros [] ?; simpl in *; try lia; done
        |first [done|intros [] ? ? ?; simpl in *; try lia; done]] ].
Qed.

(** The rows of one app: each proposes the last version of the highest
    level that is not above its batch level. *)
Lemma app_rows_sound vs row :
  row ∈ add_rows (fill_gaps (levels vs)) →
  ∃ lev d ver,
    lev ≠ none ∧ d ≠ none ∧ level_rank d ≤ level_rank lev ∧
    last (at_level installedVer d vs) = Some ver ∧
    (∀ d', level_rank d < level_rank d' ≤ level_rank lev →
           at_level installedVer d' vs = []) ∧
    r_batch_level row = Some lev ∧
    r_update_level row = Some d ∧
    r_application row = Some (ia_sys_id app) ∧
    r_available_version row = Some (ver_sys_id ver) ∧
    r_version_number row = Some (default EmptyString (ver_version ver)) ∧
    r_installed_version row = Some installedVer ∧
    r_major_count row = count_at installedVer major vs ∧
    r_minor_count row = count_at installedVer minor vs ∧
    r_patch_count row = count_at installedVer patch vs ∧
    r_risk_level row
    = assessRisk lev (count_at installedVer major vs)
        (count_at installedVer minor vs).
Proof.
  intros (lev & Hlev & Hnil & ->)%add_rows_elem.
  destruct (fill_gaps_chosen vs lev Hlev) as (d & Hd & Hrank & Hget & Hgap & _).
  rewrite Hget in Hnil |- *.
  destruct (app_levels_tracks vs d Hd)
    as (H1 & H2 & H3 & H4 & H5 & H6 & H7 & H8).
  destruct (last (at_level installedVer d vs)) as [ver|] eqn:Hlast.
  2: { rewrite H2 in Hnil. done. }
  exists lev, d, ver. cbn [with_risk r_batch_level r_update_level r_application
    r_available_version r_version_number r_installed_version r_major_count
    r_minor_count r_patch_count r_risk_level].
  rewrite H1, H2, H3, H4, H5, H6, H7, H8. by split_and!.
Qed.

Lemma app_rows_complete vs lev d :
  Forall (λ ver, ver_sys_id ver ≠ EmptyString) vs →
  lev ≠ none → d ≠ none → level_rank d ≤ level_rank lev →
  at_level installedVer d vs ≠ [] →
  ∃ row, row ∈ add_rows (fill_gaps (levels vs)) ∧ r_batch_level row = Some lev.
Proof.
  intros Hids Hlev Hd Hrank Hpresent.
  destruct (fill_gaps_chosen vs lev Hlev) as (e & He & _ & Hget & _ & Hsome).
  specialize (Hsome d Hd Hrank Hpresent).
  destruct (app_levels_tracks vs e He) as (_ & H2 & _).
  exists (with_risk lev (get_level lev (fill_gaps (levels vs)))).
  split; [|done]. apply add_rows_elem. exists lev. split_and!; [done| |done].
  rewrite Hget, H2.
  destruct (last (at_level installedVer e vs)) as [ver|] eqn:Hlast.
  - simpl. assert (ver ∈ vs) as Hin.
    { apply last_Some_elem_of in Hlast.
      by apply list_elem_of_filter in Hlast as [_ ?]. }
    rewrite Forall_forall in Hids. specialize (Hids ver Hin).
    by destruct (ver_sys_id ver).
  - by apply last_None in Hlast.
Qed.
End remote_table_levels.

Section remote_table_res.
Import UpdateAnalyzer AvailableUpdates RemoteTable RemoteTableSpec AnalyzerSpec.

Lemma res_get_set k k' ls (res : Res) :
  res_get k' (res_set k ls res)
  = if decide (k = k') then Some ls else res_get k' res.
Proof.
  induction res as [|[j old] res IH]; simpl.
  - repeat case_bool_decide; case_decide; congruence.
  - case_bool_decide as Hj; simpl.
    + subst j. repeat case_bool_decide; case_decide; congruence.
    + rewrite IH. repeat case_bool_decide; case_decide; congruence.
Qed.

Lemma res_set_keys k ls (res : Res) :
  (res_set k ls res).*1
  = if decide (k ∈ res.*1) then res.*1 else res.*1 ++ [k].
Proof.
  induction res as [|[j old] res IH].
  - rewrite decide_False; [done|]. apply not_elem_of_nil.
  - cbn [res_set]. rewrite !fmap_cons. cbn [fst].
    case_bool_decide as Hj.
    + subst j. rewrite fmap_cons. cbn [fst].
      destruct (decide (k ∈ k :: res.*1)) as [H|H]; [done|].
      destruct H. by left.
    + rewrite fmap_cons, IH. cbn [fst]. destruct (decide (k ∈ res.*1)).
      * destruct (decide (k ∈ j :: res.*1)) as [H|H]; [done|].
        destruct H. by right.
      * destruct (decide (k ∈ j :: res.*1)) as [H|H]; [|done].
        apply elem_of_cons in H as [?|?]; done.
Qed.

Lemma res_set_NoDup k ls (res : Res) :
  NoDup res.*1 → NoDup (res_set k ls res).*1.
Proof.
  intros Hnd. rewrite res_set_keys. case_decide; [done|].
  apply NoDup_app. split_and!; [done| |apply NoDup_singleton].
  intros x Hx ->%list_elem_of_singleton. done.
Qed.

Lemma res_get_elem (res : Res) k ls :
  NoDup res.*1 → (k, ls) ∈ res ↔ res_get k res = Some ls.
Proof.
  induction res as [|[j old] res IH]; simpl; intros Hnd.
  - split; [by intros ?%elem_of_nil|done].
  - apply NoDup_cons in Hnd as [Hj Hnd]. rewrite elem_of_cons, IH by done.
    case_bool_decide as Hk.
    + subst j. split; [intros [[= ->]|Hget]; [done|]|intros [= ->]; by left].
      destruct Hj. apply list_elem_of_fmap. exists (k, ls). split; [done|].
      by apply IH.
    + split; [intros [[= -> ->]|]; done|by right].
Qed.

(** The levels of an app once the versions [vs] have been read, starting
    from [ls]. *)
Local Abbreviation levels_from app iv dep ls0 vs :=
  (foldl (λ ls ver,
            let d := diff_of iv ver in
            if bool_decide (d = none) then ls
            else update_levels app iv dep ver
                   (default EmptyString (ver_version ver)) d ls) ls0 vs).

Lemma levels_from_unchanged app iv dep ls vs :
  Forall (λ ver, diff_of iv ver = none) vs →
  levels_from app iv dep ls vs = ls.
Proof.
  induction 1 as [|ver vs Hver _ IH]; [done|]. cbn [foldl]. cbv zeta.
  by rewrite bool_decide_eq_true_2.
Qed.

Lemma readable_cons app ver vs :
  readable app (ver :: vs) →
  ∃ iv version, ia_version app = Some iv ∧ ver_version ver = Some version ∧
                readable app vs.
Proof.
  intros [[iv Hiv] Hall]. apply Forall_cons in Hall as [[version Hver] Hall].
  exists iv, version. split_and!; [done..|]. by destruct vs.
Qed.

Lemma version_loop_spec app dep vs :
  ∀ res,
    readable app vs →
    let iv := default EmptyString (ia_version app) in
    ∃ res',
      version_loop app dep vs res = Some res' ∧
      (NoDup res.*1 → NoDup res'.*1) ∧
      (∀ k, k ≠ ia_sys_id app → res_get k res' = res_get k res) ∧
      res_get (ia_sys_id app) res'
      = if decide (Forall (λ ver, diff_of iv ver = none) vs)
        then res_get (ia_sys_id app) res
        else Some (levels_from app iv dep
                     (default templates (res_get (ia_sys_id app) res)) vs).
Proof.
  induction vs as [|ver vs IH]; intros res Hread iv.
  { exists res. split_and!; [done..|]. by rewrite decide_True. }
  destruct (readable_cons _ _ _ Hread) as (iv0 & version & Hiv & Hver & Hrest).
  assert (iv = iv0) as -> by (subst iv; by rewrite Hiv).
  cbn [version_loop]. unfold version_step. rewrite Hiv, Hver. cbv zeta.
  assert (diff_of iv0 ver = compareVersions iv0 version) as Hdiff
    by (unfold diff_of; by rewrite Hver).
  case_bool_decide as Hnone.
  - cbn [mbind option_bind]. destruct (IH res Hrest) as (res' & Hrun & Hnd & Hk & Hget).
    cbv zeta in Hget. rewrite Hiv in Hget. cbn [from_option id] in Hget.
    exists res'. split_and!; [done..|]. rewrite Hget.
    cbn [foldl]. cbv zeta. rewrite Hdiff, bool_decide_eq_true_2 by done.
    destruct (decide (Forall _ vs)) as [Hall|Hall].
    + rewrite decide_True; [done|]. constructor; [by rewrite Hdiff|done].
    + rewrite decide_False; [done|]. by intros [_ ?]%Forall_cons.
  - cbn [mbind option_bind].
    match goal with |- context [res_set ?k ?x res] =>
      set (ls1 := x); set (res1 := res_set k x res) end.
    destruct (IH res1 Hrest) as (res' & Hrun & Hnd & Hk & Hget).
    cbv zeta in Hget. rewrite Hiv in Hget. cbn [from_option id] in Hget.
    exists res'. split_and!.
    + done.
    + intros H. by apply Hnd, res_set_NoDup.
    + intros k Hne. rewrite Hk by done. subst res1.
      rewrite res_get_set.
      by rewrite (decide_False (P := ia_sys_id app = k)).
    + rewrite Hget. subst res1. rewrite res_get_set.
      rewrite (decide_True (P := ia_sys_id app = ia_sys_id app)) by done.
      cbn [from_option id].
      rewrite (decide_False (P := Forall _ (ver :: vs))).
      2: { intros [H _]%Forall_cons. by rewrite Hdiff in H. }
      cbn [foldl]. cbv zeta.
      rewrite Hdiff, bool_decide_eq_false_2 by done. rewrite Hver. cbn [from_option id].
      fold ls1. destruct (decide (Forall _ vs)) as [Hall|Hall]; [|done].
      by rewrite levels_from_unchanged.
Qed.

Lemma version_loop_throws app dep vs :
  ∀ res, ¬ readable app vs → version_loop app dep vs res = None.
Proof.
  induction vs as [|ver vs IH]; intros res Hbad; [by destruct Hbad|].
  cbn [version_loop]. unfold version_step.
  destruct (ia_version app) as [iv|] eqn:Hiv.
  2: { done. }
  destruct (ver_version ver) as [version|] eqn:Hver; [|done].
  assert (¬ readable app vs) as Hrest.
  { intros Hr. apply Hbad. split; [by rewrite Hiv|].
    constructor; [by rewrite Hver|]. destruct vs; [done|]. apply Hr. }
  cbv zeta. case_bool_decide; cbn [mbind option_bind]; by apply IH.
Qed.

Lemma app_loop_spec getAvailableVersions tbl apps :
  ∀ res,
    Forall (λ app, readable app (getAvailableVersions (ia_sys_id app))) apps →
    NoDup (ia_sys_id <$> apps) → NoDup res.*1 →
    (∀ app, app ∈ apps → res_get (ia_sys_id app) res = None) →
    ∃ res',
      app_loop getAvailableVersions tbl apps res = Some res' ∧
      NoDup res'.*1 ∧
      (∀ k, k ∉ ia_sys_id <$> apps → res_get k res' = res_get k res) ∧
      (∀ app, app ∈ apps →
         let iv := default EmptyString (ia_version app) in
         let vs := getAvailableVersions (ia_sys_id app) in
         res_get (ia_sys_id app) res'
         = if decide (Forall (λ ver, diff_of iv ver = none) vs) then None
           else Some (app_levels app iv (getDependencyInfo tbl (ia_sys_id app)) vs)).
Proof.
  induction apps as [|app apps IH]; intros res Hread Hids Hnd Hfresh.
  { exists res. split_and!; [done..|]. by intros ? ?%elem_of_nil. }
  apply Forall_cons in Hread as [Happ Hread].
  rewrite fmap_cons in Hids. apply NoDup_cons in Hids as [Hid Hids].
  cbn [app_loop].
  destruct (version_loop_spec app (getDependencyInfo tbl (ia_sys_id app))
              (getAvailableVersions (ia_sys_id app)) res Happ)
    as (res1 & Hrun1 & Hnd1 & Hk1 & Hget1).
  rewrite Hrun1. cbn [mbind option_bind].
  destruct (IH res1 Hread Hids (Hnd1 Hnd)) as (res' & Hrun & Hnd' & Hk & Hget).
  { intros a Ha. rewrite Hk1; [apply Hfresh; by right|].
    intros Heq. apply Hid. rewrite <- Heq. apply list_elem_of_fmap.
    by exists a. }
  exists res'. split_and!; [done|done| |].
  - intros k Hk'. rewrite fmap_cons, not_elem_of_cons in Hk'.
    destruct Hk' as [Hne Hk']. by rewrite Hk, Hk1.
  - intros a [->|Ha]%elem_of_cons.
    + cbv zeta. rewrite Hk by done. rewrite Hget1.
      rewrite (Hfresh app) by left. done.
    + by apply Hget.
Qed.

Lemma app_loop_returns getAvailableVersions tbl apps :
  ∀ res,
    Forall (λ app, readable app (getAvailableVersions (ia_sys_id app))) apps →
    is_Some (app_loop getAvailableVersions tbl apps res).
Proof.
  induction apps as [|app apps IH]; intros res Hread; [by eexists|].
  apply Forall_cons in Hread as [Happ Hread]. cbn [app_loop].
  destruct (version_loop_spec app (getDependencyInfo tbl (ia_sys_id app))
              (getAvailableVersions (ia_sys_id app)) res Happ)
    as (res1 & -> & _). by apply IH.
Qed.

Lemma app_loop_throws getAvailableVersions tbl apps :
  ∀ res,
    ¬ Forall (λ app, readable app (getAvailableVersions (ia_sys_id app))) apps →
    app_loop getAvailableVersions tbl apps res = None.
Proof.
  induction apps as [|app apps IH]; intros res Hbad; [by destruct Hbad|].
  cbn [app_loop].
  destruct (decide (readable app (getAvailableVersions (ia_sys_id app))))
    as [Happ|Happ].
  - destruct (version_loop_spec app (getDependencyInfo tbl (ia_sys_id app))
                (getAvailableVersions (ia_sys_id app)) res Happ)
      as (res1 & -> & _). cbn [mbind option_bind]. apply IH.
    intros Hrest. apply Hbad. by constructor.
  - by rewrite version_loop_throws.
Qed.
End remote_table_res.

Section remote_table_rows.
Import UpdateAnalyzer AvailableUpdates RemoteTable RemoteTableSpec AnalyzerSpec.

(** The levels from which the rows of a returning run are made. *)
Lemma executeQuery_levels store_apps getAvailableVersions tbl rows :
  executeQuery store_apps getAvailableVersions tbl = Some rows →
  NoDup (ia_sys_id <$> updatable store_apps) →
  Forall (λ app, readable app (getAvailableVersions (ia_sys_id app)))
    (updatable store_apps) ∧
  ∀ row, row ∈ rows ↔
    ∃ app, app ∈ updatable store_apps ∧
      let iv := default EmptyString (ia_version app) in
      let vs := getAvailableVersions (ia_sys_id app) in
      ¬ Forall (λ ver, diff_of iv ver = none) vs ∧
      row ∈ add_rows (fill_gaps
               (app_levels app iv (getDependencyInfo tbl (ia_sys_id app)) vs)).
Proof.
  intros Hrun Hids. unfold executeQuery in Hrun.
  destruct (decide (Forall (λ app, readable app (getAvailableVersions (ia_sys_id app)))
                      (updatable store_apps))) as [Hread|Hbad].
  2: { by rewrite app_loop_throws in Hrun. }
  split; [done|].
  destruct (app_loop_spec getAvailableVersions tbl (updatable store_apps) []
              Hread Hids) as (res & Hres & Hnd & Hk & Hget);
    [apply NoDup_nil_2|done|].
  rewrite Hres in Hrun. cbn in Hrun. injection Hrun as <-.
  intros row. rewrite list_elem_of_In, in_flat_map. split.
  - intros ([k ls] & Hin%list_elem_of_In & Hrow%list_elem_of_In).
    apply res_get_elem in Hin; [|done]. simpl in Hrow.
    destruct (decide (k ∈ ia_sys_id <$> updatable store_apps)) as [Hk'|Hk'].
    + apply list_elem_of_fmap in Hk' as (app & -> & Happ).
      exists app. split; [done|]. cbv zeta.
      rewrite (Hget app Happ) in Hin. case_decide; [done|].
      injection Hin as <-. done.
    + rewrite Hk in Hin by done. done.
  - intros (app & Happ & Hsome & Hrow). cbv zeta in Hrow.
    eexists (ia_sys_id app, _). split.
    + apply list_elem_of_In, res_get_elem; [done|].
      rewrite (Hget app Happ). by rewrite decide_False.
    + by apply list_elem_of_In.
Qed.

(** X23. Every row that the remote table script adds belongs to an active
    app with an update available and has a batch level major, minor or
    patch. It proposes a version of that app whose level, compared with the
    installed version, is not above the batch level: the last version, in
    the order of the query, of the highest level not above the batch level
    for which the app has a version. Its three counters are the numbers of
    versions of the app at each level, the same on all rows of the app, and
    its risk is computed from the batch level and these counters. *)
Theorem remote_table_rows_sound store_apps getAvailableVersions tbl rows row :
  executeQuery store_apps getAvailableVersions tbl = Some rows →
  NoDup (ia_sys_id <$> updatable store_apps) →
  (∀ app, app ∈ updatable store_apps → ia_sys_id app ≠ EmptyString) →
  row ∈ rows →
  ∃ app iv lev d ver,
    app ∈ updatable store_apps ∧ ia_version app = Some iv ∧
    let vs := getAvailableVersions (ia_sys_id app) in
    lev ≠ none ∧ d ≠ none ∧ level_rank d ≤ level_rank lev ∧
    last (at_level iv d vs) = Some ver ∧
    (∀ d', level_rank d < level_rank d' ≤ level_rank lev →
           at_level iv d' vs = []) ∧
    r_batch_level row = Some lev ∧
    r_update_level row = Some d ∧
    r_application row = Some (ia_sys_id app) ∧
    r_available_version row = Some (ver_sys_id ver) ∧
    r_version_number row = ver_version ver ∧
    r_installed_version row = Some iv ∧
    r_major_count row = count_at iv major vs ∧
    r_minor_count row = count_at iv minor vs ∧
    r_patch_count row = count_at iv patch vs ∧
    r_risk_level row = assessRisk lev (count_at iv major vs) (count_at iv minor vs).
Proof.
  intros Hrun Hids Hnonempty Hrow.
  destruct (executeQuery_levels _ _ _ _ Hrun Hids) as [Hread Hrows].
  apply Hrows in Hrow as (app & Happ & _ & Hrow). cbv zeta in Hrow.
  apply app_rows_sound in Hrow as (lev & d & ver & Hsound);
    [|by apply Hnonempty].
  destruct Hsound as (Hlev & Hd & Hrank & Hlast & Hgap & Hrest).
  assert (ver ∈ getAvailableVersions (ia_sys_id app)) as Hver.
  { apply last_Some_elem_of in Hlast.
    by apply list_elem_of_filter in Hlast as [_ ?]. }
  rewrite Forall_forall in Hread. specialize (Hread app Happ).
  destruct (getAvailableVersions (ia_sys_id app)) as [|v0 vs] eqn:Hvs;
    [by apply elem_of_nil in Hver|].
  destruct Hread as [[iv Hiv] Hall].
  rewrite Forall_forall in Hall. destruct (Hall ver Hver) as [version Hversion].
  rewrite Hiv in Hlast, Hgap, Hrest. cbn [from_option id] in Hlast, Hgap, Hrest.
  exists app, iv, lev, d, ver. cbv zeta. rewrite Hvs.
  rewrite Hversion in Hrest |- *. cbn [from_option id] in Hrest.
  destruct Hrest as (?&?&?&?&?&?&?&?&?&?). by split_and!.
Qed.

Lemma remote_table_rows_sound_witness :
  ∃ rows row d ver,
    executeQuery demo_apps demo_versions [] = Some rows ∧ row ∈ rows ∧
    r_batch_level row = Some major ∧ r_update_level row = Some d ∧
    level_rank d ≤ level_rank major ∧
    r_available_version row = Some (ver_sys_id ver).
Proof.
  destruct (executeQuery demo_apps demo_versions []) as [rows|] eqn:Hrun;
    [|vm_compute in Hrun; discriminate].
  destruct rows as [|row rows]; [vm_compute in Hrun; discriminate|].
  destruct (remote_table_rows_sound demo_apps demo_versions [] (row :: rows) row)
    as (app & iv & lev & d & ver & _ & _ & _ & _ & Hrank & _ & _ & Hlev & Hd
        & _ & Hver & _).
  - exact Hrun.
  - vm_compute. repeat constructor; set_solver.
  - intros app Happ. vm_compute in Happ.
    repeat (apply elem_of_cons in Happ as [->|Happ]; [done|]).
    by apply elem_of_nil in Happ.
  - by left.
  - exists (row :: rows), row, d, ver.
    assert (lev = major) as ->.
    { vm_compute in Hrun. injection Hrun as <- _. vm_compute in Hlev.
      by injection Hlev as <-. }
    split_and!; [done|by left|done..].
Defined.

(** X24. The remote table is complete for a returning run: for every
    active app with an update available, and every batch level at or above
    the level of one of its versions, the table has a row of that app at
    that batch level, provided that sys_ids are not empty. *)
Theorem remote_table_rows_complete store_apps getAvailableVersions tbl rows
    app iv lev d :
  executeQuery store_apps getAvailableVersions tbl = Some rows →
  NoDup (ia_sys_id <$> updatable store_apps) →
  app ∈ updatable store_apps → ia_sys_id app ≠ EmptyString →
  Forall (λ ver, ver_sys_id ver ≠ EmptyString)
    (getAvailableVersions (ia_sys_id app)) →
  ia_version app = Some iv →
  lev ≠ none → d ≠ none → level_rank d ≤ level_rank lev →
  at_level iv d (getAvailableVersions (ia_sys_id app)) ≠ [] →
  ∃ row, row ∈ rows ∧ r_application row = Some (ia_sys_id app) ∧
         r_batch_level row = Some lev.
Proof.
  intros Hrun Hids Happ Hid Hvids Hiv Hlev Hd Hrank Hpresent.
  destruct (executeQuery_levels _ _ _ _ Hrun Hids) as [_ Hrows].
  destruct (app_rows_complete app iv (getDependencyInfo tbl (ia_sys_id app)) Hid
              (getAvailableVersions (ia_sys_id app)) lev d)
    as (row & Hrow & Hbatch); [done..|].
  assert (row ∈ rows) as Hin.
  { apply Hrows. exists app. split; [done|]. cbv zeta.
    rewrite Hiv. cbn [from_option id]. split; [|done].
    intros Hall. apply Hpresent. unfold at_level.
    destruct (filter _ _) as [|ver rest] eqn:Hf; [done|].
    assert (ver ∈ filter (λ ver, diff_of iv ver = d)
                    (getAvailableVersions (ia_sys_id app))) as Hver
      by (rewrite Hf; by left).
    apply list_elem_of_filter in Hver as [Hdiff Hver].
    rewrite Forall_forall in Hall. specialize (Hall ver Hver). congruence. }
  exists row. split_and!; [done| |done].
  apply app_rows_sound in Hrow as (? & ? & ? & _ & _ & _ & _ & _ & _ & _ & Happl & _);
    done.
Qed.

Lemma remote_table_rows_complete_witness :
  ∃ rows row,
    executeQuery demo_apps demo_versions [] = Some rows ∧ row ∈ rows ∧
    r_application row = Some "app1" ∧ r_batch_level row = Some major.
Proof.
  destruct (executeQuery demo_apps demo_versions []) as [rows|] eqn:Hrun;
    [|vm_compute in Hrun; discriminate].
  destruct (remote_table_rows_complete demo_apps demo_versions [] rows
              {| ia_sys_id := "app1"; ia_name := "App One";
                 ia_version := Some "1.2.3"; ia_vendor := None;
                 ia_scope := Some "x_one"; ia_active := true;
                 ia_update_available := true |} "1.2.3" major patch)
    as (row & Hrow & Happ & Hlev).
  - exact Hrun.
  - vm_compute. repeat constructor; set_solver.
  - vm_compute. by left.
  - done.
  - vm_compute. repeat constructor; done.
  - done.
  - done.
  - done.
  - simpl. lia.
  - vm_compute. done.
  - by exists rows, row.
Defined.

(** X25. The remote table script throws, adding no row at all, exactly
    when some active app with an update available has at least one version
    record and either its installed version is missing or one of its
    version records has no version: [compareVersions] is then called on
    [null]. *)
Theorem remote_table_throws store_apps getAvailableVersions tbl :
  executeQuery store_apps getAvailableVersions tbl = None ↔
  ∃ app, app ∈ updatable store_apps ∧
    getAvailableVersions (ia_sys_id app) ≠ [] ∧
    (ia_version app = None ∨
     ∃ ver, ver ∈ getAvailableVersions (ia_sys_id app) ∧ ver_version ver = None).
Proof.
  assert (∀ app vs, ¬ readable app vs ↔
            vs ≠ [] ∧ (ia_version app = None ∨
                       ∃ ver, ver ∈ vs ∧ ver_version ver = None)) as Hbad.
  { intros app vs. destruct vs as [|v0 vs]; [by split; [|intros [? _]]|].
    cbn [readable]. split.
    - intros Hnot. split; [done|].
      destruct (ia_version app) as [iv|]; [|by left]. right.
      destruct (decide (Forall (λ ver, is_Some (ver_version ver)) (v0 :: vs)))
        as [Hall|Hall]; [by destruct Hnot|].
      apply not_Forall_Exists in Hall; [|apply _].
      apply Exists_exists in Hall as (ver & Hver & Hnone). exists ver.
      split; [done|]. simpl in Hnone. by destruct (ver_version ver); [destruct Hnone|].
    - intros [_ [Hiv|(ver & Hver & Hnone)]] [[iv Hsome] Hall].
      + congruence.
      + rewrite Forall_forall in Hall. destruct (Hall ver Hver). congruence. }
  unfold executeQuery. split.
  - intros Hrun.
    destruct (decide (Forall (λ app, readable app (getAvailableVersions (ia_sys_id app)))
                        (updatable store_apps))) as [Hread|Hnot].
    + destruct (app_loop_returns getAvailableVersions tbl _ [] Hread) as [res Hres].
      by rewrite Hres in Hrun.
    + apply not_Forall_Exists in Hnot; [|apply _].
      apply Exists_exists in Hnot as (app & Happ & Hnr). exists app.
      split; [done|]. by apply Hbad.
  - intros (app & Happ & Hnr). rewrite app_loop_throws; [done|].
    rewrite Forall_forall. intros Hall.
    apply (Hbad app (getAvailableVersions (ia_sys_id app))) in Hnr.
    by apply Hnr, Hall.
Qed.
End remote_table_rows.

(* ===================================================================== *)
(** * A successful installation                                           *)
(* ===================================================================== *)
Section successful_installation.
Import BatchUpdateManager MonitorProgress MonitorSpec ReconcilerSpec OutcomeSpec.

Lemma same_targets_refl s : same_targets s s.
Proof. intros j it Hit. by exists it. Qed.

Lemma same_targets_trans s1 s2 s3 :
  same_targets s1 s2 → same_targets s2 s3 → same_targets s1 s3.
Proof.
  intros H1 H2 j it Hit.
  destruct (H1 j it Hit) as (it2 & Hit2 & ? & ? & ?).
  destruct (H2 j it2 Hit2) as (it3 & Hit3 & ? & ? & ?).
  exists it3. split_and!; congruence.
Qed.

Lemma same_targets_items s s' :
  Store.batch_items s' = Store.batch_items s → same_targets s s'.
Proof. intros Heq j it Hit. exists it. by rewrite Heq. Qed.

Lemma parseAndUpdateItems_same_targets now msg p m :
  same_targets (store m) (store (_parseAndUpdateItems now msg p m)).
Proof.
  intros i it Hit.
  destruct (parseAndUpdateItems_lookup now msg p m) as (Hrow & Hother & _).
  set (rows := Store.order_by_install_order
                 (Store.query_items (installing_of (batchRequestId m)) (store m)))
    in *.
  destruct (decide (i ∈ rows.*1)) as [Hin|Hout].
  - apply list_elem_of_fmap in Hin as ([i' it0] & Hi & [j Hj]%list_elem_of_lookup_1).
    simpl in Hi. subst i'. destruct (Hrow j i it0 Hj) as (Hit0 & _ & Hit').
    rewrite Hit in Hit0. injection Hit0 as <-.
    eexists. split; [exact Hit'|].
    destruct (_ <? _)%Z; [done|]. by destruct (_ =? _)%Z.
  - exists it. by rewrite Hother.
Qed.

(** The sync completes every item of the batch that the inventory shows
    at its target version. *)
Lemma sync_completes now inv m j it :
  Store.batch_items (store m) !! j = Some it →
  BatchItem.batch_request it = batchRequestId m →
  at_target inv it →
  ∃ it', Store.batch_items (store (_syncFinalItemStates now inv m)) !! j = Some it' ∧
         BatchItem.state it' = item_completed.
Proof.
  intros Hj Hbatch (app & Happ & Hver). unfold _syncFinalItemStates.
  set (rows := Store.query_items _ _).
  assert ((j, it) ∈ rows) as Hin.
  { apply query_items_elem. split; [done|].
    unfold of_batch. by apply bool_decide_eq_true. }
  pose proof (query_items_NoDup (of_batch (batchRequestId m)) (store m)) as Hnd.
  fold rows in Hnd.
  apply list_elem_of_split in Hin as (r1 & r2 & Hrows). rewrite Hrows in *.
  rewrite fmap_app, fmap_cons in Hnd.
  apply NoDup_app in Hnd as (_ & Hr1 & [Hr2 _]%NoDup_cons). simpl in Hr1, Hr2.
  rewrite foldl_app. simpl.
  set (m1 := foldl _ m r1).
  assert (Store.batch_items (store m1) !! j = Some it) as Hj1.
  { unfold m1. rewrite sync_rows_other; [done|].
    intros Hin. apply (Hr1 j Hin). set_solver. }
  destruct (sync_row_at now inv j it app m1 Hj1 Happ) as (it' & Hj2 & Hsame & _).
  exists it'. split; [by rewrite sync_rows_other|]. by apply Hsame.
Qed.

Lemma count_state_all (st : ItemState) (rows : list (nat * BatchItem.t)) :
  Forall (λ row, BatchItem.state row.2 = st) rows →
  count_state st rows = Z.of_nat (length rows) ∧
  ∀ st', st' ≠ st → count_state st' rows = 0%Z.
Proof.
  unfold count_state. induction 1 as [|row rows Hrow _ [IH1 IH2]]; [done|].
  split.
  - rewrite filter_cons_True by done. simpl length. lia.
  - intros st' Hne. rewrite filter_cons_False by congruence. by apply IH2.
Qed.

(** X26. The successful case: when the progress worker reports 'complete'
    and the inventory shows the application of every item of the batch at
    its target version, the iteration ends the loop with every item of the
    batch completed, whatever state the estimate had left it in; the batch
    request is [completed] with progress 100, [completed_apps] is the
    number of its items, nothing is counted as failed or skipped, and the
    flow's outputs are [completed] and the worker's summary. *)
Theorem successful_installation_completes o m pw b :
  obs_worker o = Some pw →
  pw_state pw = "complete" →
  (obs_now o - startTime m ≤ MAX_POLL_TIME_MS)%Z →
  Store.batch_requests (store m) !! batchRequestId m = Some b →
  (∀ j it, Store.batch_items (store m) !! j = Some it →
           BatchItem.batch_request it = batchRequestId m →
           at_target (obs_store_app o) it) →
  ∃ m' b',
    poll o m = (m', true) ∧
    Store.batch_requests (store m') !! batchRequestId m = Some b' ∧
    BatchRequest.state b' = completed ∧
    BatchRequest.overall_progress b' = 100%Z ∧
    outputs m'
    = Some (completed, JS.or_else (pw_output_summary pw) (pw_message pw)) ∧
    let rows := Store.query_items (of_batch (batchRequestId m)) (store m') in
    Forall (λ row, BatchItem.state row.2 = item_completed) rows ∧
    BatchRequest.completed_apps b' = Z.of_nat (length rows) ∧
    BatchRequest.failed_apps b' = 0%Z ∧
    BatchRequest.skipped_apps b' = 0%Z.
Proof.
  intros Hw Hstate Ht Hb Htarget. unfold poll. cbv zeta. rewrite Hw.
  cbn [startTime with_pollCount]. rewrite (proj2 (Z.ltb_ge _ _) Ht).
  assert (script_step m (with_pollCount (pollCount m + 1) m)) as S1
    by apply with_pollCount_script_step.
  assert (same_targets (store m) (store (with_pollCount (pollCount m + 1) m)))
    as T1 by apply same_targets_refl.
  set (m1 := with_pollCount (pollCount m + 1) m) in *.
  set (m2 := if negb (bool_decide (pw_message pw = lastMessage m1)) then _ else m1).
  assert (script_step m m2 ∧ same_targets (store m) (store m2)) as [S2 T2].
  { subst m2. destruct (negb _); [|done]. split.
    - eapply script_step_trans; [exact S1|].
      eapply script_step_trans; [apply log_script_step|].
      eapply script_step_trans; [apply with_last_script_step|].
      apply items_only_script_step, parseAndUpdateItems_items_only.
    - eapply same_targets_trans; [exact T1|].
      eapply same_targets_trans; [|apply parseAndUpdateItems_same_targets].
      by apply same_targets_items. }
  set (m3 := if _ && _ && _ then _ else m2).
  assert (script_step m m3 ∧ same_targets (store m) (store m3)) as [S3 T3].
  { subst m3. destruct (_ && _ && _); [|done]. split.
    - eapply script_step_trans; [exact S2|].
      eapply script_step_trans; [apply updateBatchProgress_script_step|].
      apply with_last_script_step.
    - eapply same_targets_trans; [exact T2|]. by apply same_targets_items. }
  rewrite (bool_decide_eq_true_2 _ Hstate). cbn [orb].
  set (m4 := if JS.truthy (pw_error_message pw) then _ else m3).
  assert (script_step m m4 ∧ same_targets (store m) (store m4)) as [S4 T4].
  { subst m4. destruct (JS.truthy _); [|done]. split.
    - eapply script_step_trans; [exact S3|apply log_script_step].
    - eapply same_targets_trans; [exact T3|]. by apply same_targets_items. }
  set (m5 := _syncFinalItemStates (obs_now o) (obs_store_app o) m4).
  assert (script_step m m5) as S5
    by (eapply script_step_trans; [exact S4|apply syncFinalItemStates_script_step]).
  pose proof (ss_batchRequestId _ _ S4) as Hid4.
  pose proof (ss_batchRequestId _ _ S5) as Hid5.
  destruct (proj2 (ss_batches _ _ S5 (batchRequestId m))) as [b5 Hb5];
    [by eexists|].
  rewrite <- Hid5 in Hb5.
  destruct (finalizeBatch_counters (obs_now o) completed
              (JS.or_else (pw_output_summary pw) (pw_message pw)) m5 b5 Hb5)
    as (b' & Hb' & Hc & Hf & Hs & Hp & _ & Hst & Hout).
  rewrite Hid5 in Hb', Hc, Hf, Hs, Hst.
  set (m' := _finalizeBatch _ _ _ m5) in *.
  set (rows := Store.query_items (of_batch (batchRequestId m)) (store m')) in *.
  assert (Forall (λ row, BatchItem.state row.2 = item_completed) rows) as Hall.
  { apply Forall_forall. intros [i it5] Hin.
    assert (rows = Store.query_items (of_batch (batchRequestId m)) (store m5))
      as Hrows by reflexivity.
    rewrite Hrows in Hin. apply query_items_elem in Hin as [Hit5 Hbatch5].
    unfold of_batch in Hbatch5. apply bool_decide_eq_true in Hbatch5.
    assert (is_Some (Store.batch_items (store m) !! i)) as [it0 Hit0].
    { apply lookup_lt_is_Some. rewrite <- (ss_length _ _ S5).
      by eapply lookup_lt_Some. }
    destruct (T4 i it0 Hit0) as (it4 & Hit4 & Hbr4 & Happ4 & Hto4).
    destruct (syncFinalItemStates_kept (obs_now o) (obs_store_app o) m4)
      as [_ [_ Hkept]].
    destruct (Hkept i it4 Hit4) as (it5' & Hit5' & Hbr5 & _).
    fold m5 in Hit5'. rewrite Hit5 in Hit5'. injection Hit5' as <-.
    assert (BatchItem.batch_request it0 = batchRequestId m) as Hbr0 by congruence.
    destruct (Htarget i it0 Hit0 Hbr0) as (app & Happ & Hver).
    destruct (sync_completes (obs_now o) (obs_store_app o) m4 i it4 Hit4)
      as (it5' & Hit5' & Hdone).
    - congruence.
    - exists app. by rewrite Happ4, Hto4.
    - fold m5 in Hit5'. rewrite Hit5 in Hit5'. by injection Hit5' as <-. }
  destruct (count_state_all item_completed rows Hall) as [Hcount Hzero].
  exists m', b'. split; [reflexivity|]. split; [exact Hb'|].
  rewrite (Hzero item_failed) in Hf, Hst by done.
  rewrite (Hzero skipped) in Hs by done.
  cbn [Z.ltb andb] in Hst. rewrite Hst in Hout.
  split_and!;
    [done|done|done|exact Hall|rewrite Hc; exact Hcount|exact Hf|exact Hs].
Qed.

Lemma successful_installation_completes_witness :
  ∃ m' b',
    poll (Scenario.observe 4000 (Scenario.worker "complete" "Done" 100))
      Scenario.monitor0 = (m', true) ∧
    Store.batch_requests (store m') !! "0" = Some b' ∧
    BatchRequest.state b' = completed ∧
    BatchRequest.failed_apps b' = 0%Z.
Proof.
  destruct (Store.batch_requests (store Scenario.monitor0) !! "0")
    as [b|] eqn:Hb; [|vm_compute in Hb; discriminate].
  destruct (successful_installation_completes
              (Scenario.observe 4000 (Scenario.worker "complete" "Done" 100))
              Scenario.monitor0 (Scenario.worker "complete" "Done" 100) b)
    as (m' & b' & Hrun & Hb' & Hst & _ & _ & _ & _ & Hf & _).
  - reflexivity.
  - reflexivity.
  - vm_compute. discriminate.
  - exact Hb.
  - intros j it Hit Hbatch.
    destruct j as [|[|j]]; vm_compute in Hit;
      [injection Hit as <-..|discriminate];
      eexists; split; vm_compute; reflexivity.
  - by exists m', b'.
Defined.
End successful_installation.
